(** * RondevuConnectionManager: per-torrent peer discovery and teardown

    A shallow embedding of [src/src/RondevuConnectionManager.ts].  The file
    holds two revisions of the same class:

    - the bloom-filter revision (explicit offer / answer API, one
      [BloomFilter] per torrent), embedded in [Module Bloom];
    - the pooled revision ([Rondevu.connect], [rondevu.offer] pool,
      [rondevu.peer]), embedded in [Module Pooled], with its
      [SimplePeerWrapper] class in [Module Wrapper].

    JavaScript runs the class on one thread: an [async] method runs until
    its next [await], is parked, and is resumed when the awaited promise
    settles.  Each parked method is kept in the state as a [Task] holding
    the local variables it captured; the run of the program is a sequence
    of [Event]s (timer ticks, promise settlements, peer events, calls of
    the public methods), each handled to completion by [step].  Calls into
    the rondevu client, WebTorrent and the timer API are recorded as a
    list of [Effect]s in the order in which they are made.

    Conventions.  Numbers ([maxPeersPerTorrent], sizes, limits) are
    integers.  An object (peer, timer, offer handle, bloom filter) is a
    reference number.  [handleTorrentAdded] goes on in the turn in which
    the pass it awaits returns.  Foreign calls the source wraps in [try]
    may throw, as a [World] says; [offerHandle.cancel()], which the pooled
    revision does not wrap, may throw as well; the other foreign calls
    return. *)

From Stdlib Require Import String List ZArith Bool Arith Lia.
Import ListNotations.
Local Open Scope string_scope.
Local Open Scope list_scope.

(** ** JavaScript [Map] with string keys

    Entries are kept in insertion order, as [Map.prototype.forEach] and
    [entries()] visit them. *)
Module JsMap.
Section WithValue.
Context {V : Type}.

Definition t := list (string * V).

Definition empty : t := [].

Fixpoint get (k : string) (m : t) : option V :=
match m with
| [] => None
| (k', v) :: m' => if String.eqb k k' then Some v else get k m'
end.

Definition has (k : string) (m : t) : bool :=
match get k m with Some _ => true | None => false end.

(** [set] on a key that is present replaces the value in place. *)
Fixpoint set (k : string) (v : V) (m : t) : t :=
match m with
| [] => [(k, v)]
| (k', v') :: m' =>
if String.eqb k k' then (k, v) :: m' else (k', v') :: set k v m'
end.

Definition delete (k : string) (m : t) : t :=
filter (fun kv => negb (String.eqb k (fst kv))) m.

(** [m.get(k)?.push(x)], [m.get(k)?.add(x)], [m.get(k)?.delete(x)]: the
collection stored under [k] is changed in place; nothing happens when
[k] has no entry. *)
Definition onEntry (k : string) (g : V -> V) (m : t) : t :=
match get k m with
| Some v => set k (g v) m
| None => m
end.

Definition keys (m : t) : list string := map fst m.

Definition values (m : t) : list V := map snd m.
End WithValue.
Arguments t : clear implicits.
End JsMap.

(** ** JavaScript [Set] of object references

Objects (peers) are compared by identity; a reference is a number. *)
Module JsSet.
Definition t := list nat.

Definition mem (x : nat) (s : t) : bool := existsb (Nat.eqb x) s.

Definition add (x : nat) (s : t) : t := if mem x s then s else s ++ [x].

Definition delete (x : nat) (s : t) : t :=
filter (fun y => negb (Nat.eqb x y)) s.

Definition size (s : t) : Z := Z.of_nat (length s).
End JsSet.

(** ** State and effect-trace monad *)
Section Monad.
Context {S E : Type}.

Definition M (A : Type) : Type := S -> A * S * list E.

Definition ret {A} (a : A) : M A := fun s => (a, s, []).

Definition bind {A B} (m : M A) (f : A -> M B) : M B :=
fun s =>
let '(a, s1, e1) := m s in
let '(b, s2, e2) := f a s1 in
(b, s2, e1 ++ e2).

Definition emit (e : E) : M unit := fun s => (tt, s, [e]).

Definition gets {A} (f : S -> A) : M A := fun s => (f s, s, []).

Definition modify (f : S -> S) : M unit := fun s => (tt, f s, []).

(** [xs.forEach(f)] *)
Fixpoint forEach {A} (xs : list A) (f : A -> M unit) : M unit :=
match xs with
| [] => ret tt
| x :: xs' => bind (f x) (fun _ => forEach xs' f)
end.

(** [xs.forEach(f)] where [f] may throw: [false] is an exception that
leaves the loop. *)
Fixpoint forEachOk {A} (xs : list A) (f : A -> M bool) : M bool :=
match xs with
| [] => ret true
| x :: xs' => bind (f x) (fun ok => if ok then forEachOk xs' f else ret false)
end.

Definition exec {A} (m : M A) (s : S) : S := snd (fst (m s)).
Definition effects {A} (m : M A) (s : S) : list E := snd (m s).
End Monad.
Arguments M : clear implicits.

Declare Scope act_scope.
Delimit Scope act_scope with act.
Notation "x <- c1 ;; c2" := (bind c1 (fun x => c2))
  (at level 61, c1 at next level, right associativity) : act_scope.
Notation "c1 ;; c2" := (bind c1 (fun _ => c2))
  (at level 61, right associativity) : act_scope.

(** JavaScript truthiness of an optional string: [undefined] and the empty
    string are falsy. *)
Definition truthy (o : option string) : bool :=
  match o with
  | Some EmptyString => false
  | Some _ => true
  | None => false
  end.

(** * The bloom-filter revision (source lines 1-374) *)
Module Bloom.

Definition PeerRef := nat.
Definition TimerId := nat.
Definition FilterRef := nat.
Definition TaskId := nat.

(** [RondevuConnectionManagerOptions], every field optional. *)
Record ManagerOptions := {
  o_rondevuServer : option string;
  o_maxPeersPerTorrent : option Z;
  o_debug : option bool;
  o_refreshInterval : option Z;
  o_credentials : option string   (* the peerId of the stored credentials *)
}.

(** [this.options] after the constructor applied the defaults. *)
Record Options := {
  rondevuServer : option string;
  maxPeersPerTorrent : Z;
  debug : bool;
  refreshInterval : Z
}.

Definition orDefault {A} (o : option A) (d : A) : A :=
  match o with Some a => a | None => d end.

Definition resolveOptions (o : ManagerOptions) : Options :=
  {| rondevuServer := o_rondevuServer o;
     maxPeersPerTorrent := orDefault (o_maxPeersPerTorrent o) 50%Z;
     debug := orDefault (o_debug o) false;
     refreshInterval := orDefault (o_refreshInterval o) 30000%Z |}.

(** A remote advertisement as returned by [rondevu.offers.findByTopic]. *)
Record RemoteOffer := {
  ro_id : string;
  ro_peerId : string;
  ro_sdp : string;
  ro_answererPeerId : option string
}.

(** Modelled from the spec: the [BloomFilter] class of
    [@xtr-dev/rondevu-client] is imported, not defined, by the source.
    The spec (section 2, DedupFilter) gives it as a set with add, membership
    test and serialisation.  The manager calls [new BloomFilter(1024, 3)],
    [add] and [toBytes] only; the filter is kept as the identities added to
    it, and its serialisation as the set it encodes. *)
Record BloomFilter := {
  bf_bits : nat;
  bf_hashes : nat;
  bf_items : list string
}.

Definition BloomBytes := list string.

Definition newBloomFilter (bits hashes : nat) : BloomFilter :=
  {| bf_bits := bits; bf_hashes := hashes; bf_items := [] |}.

Definition bf_add (x : string) (f : BloomFilter) : BloomFilter :=
  {| bf_bits := bf_bits f; bf_hashes := bf_hashes f;
     bf_items := bf_items f ++ [x] |}.

Definition bf_test (x : string) (f : BloomFilter) : bool :=
  existsb (String.eqb x) (bf_items f).

Definition toBytes (f : BloomFilter) : BloomBytes := bf_items f.

(** Who awaits a discovery pass: [handleTorrentAdded] goes on to start the
    refresh timer when the pass returns; the timer callback and
    [discoverPeers] do nothing more. *)
Inductive Awaiter := AddedHandler | NoAwaiter.

(** A parked [async] method with the locals it captured. *)
Inductive Task :=
| AwaitCreateOffer (infoHash : string) (currentPeerCount : Z)
    (peer : PeerRef) (aw : Awaiter)
| AwaitFindByTopic (infoHash : string) (bloomFilter : option FilterRef)
    (aw : Awaiter)
| AwaitAnswer (infoHash : string) (bloomFilter : option FilterRef)
    (answerPeer : PeerRef) (remoteOffer : RemoteOffer)
    (rest : list RemoteOffer) (aw : Awaiter)
| AwaitOfferDelete (offerId : string).

(** How an awaited promise settles. *)
Inductive Settled :=
| Rejected
| Registered (peerId : string)
| OfferCreated (offerId : string)
| OffersFound (offers : list RemoteOffer)
| Answered
| OfferDeleted.

(** Arguments of [this.log]; the line reaches the console only when
    [options.debug] is set. *)
Inductive LogMsg :=
| LInitializing
| LRegistered (peerId : string)
| LUsingExisting (peerId : string)
| LFailedToRegister
| LTorrentAdded (infoHash : string)
| LCleaningUp (infoHash : string)
| LErrorClosingPeer
| LErrorDeletingOffer
| LMaxPeersReached (infoHash : string)
| LCreatingOffer (infoHash : string)
| LDiscovering (infoHash : string)
| LFound (n : nat) (infoHash : string)
| LAnswering (offerId infoHash : string)
| LFailedToAnswer (offerId : string)
| LErrorDiscovering (infoHash : string)
| LPeerConnected (infoHash : string)
| LFailedToAddPeer
| LPeerDisconnected (infoHash : string)
| LPeerFailed (infoHash : string)
| LDataChannel (infoHash : string)
| LTorrentNotFound (infoHash : string)
| LDestroying.

(** Calls that leave the class. *)
Inductive Effect :=
| Log (m : LogMsg)
| CallRegister                                   (* rondevu.register() *)
| ClientOnTorrent                                (* client.on('torrent', ..) *)
| CreatePeer (peer : PeerRef)                    (* rondevu.createPeer(..) *)
| CreateOffer (peer : PeerRef) (topic : string) (ttl : Z)
| FindByTopic (topic : string) (limit : Z) (bloom : option BloomBytes)
| Answer (peer : PeerRef) (offer : RemoteOffer) (topic : string)
| TorrentAddPeer (infoHash : string) (peer : PeerRef)
| PeerClose (peer : PeerRef)
| OffersDelete (offerId : string)
| SetInterval (timer : TimerId) (infoHash : string) (ms : Z)
| ClearInterval (timer : TimerId).

Inductive PeerEvent := Connected | Disconnected | Failed | DataChannel.

(** What the event loop delivers next. *)
Inductive Event :=
| EvInitSettled (r : Settled)          (* rondevu.register() settles *)
| EvClientAdd (infoHash : string)      (* a torrent joins client.torrents *)
| EvTorrent (infoHash : string)        (* client emits 'torrent' *)
| EvDestroyed (infoHash : string)      (* torrent emits 'destroyed' *)
| EvTick (timer : TimerId)             (* an interval fires *)
| EvSettle (task : TaskId) (r : Settled)
| EvPeer (peer : PeerRef) (e : PeerEvent)
| EvDiscoverPeers (infoHash : string)  (* public discoverPeers(infoHash) *)
| EvDestroy.                           (* public destroy() *)

(** Synchronous calls into foreign objects that the source guards with
    [try]: whether they throw is up to the foreign object. *)
Record World := {
  closeThrows : PeerRef -> bool;     (* peer.close() *)
  addPeerThrows : PeerRef -> bool    (* torrent.addPeer(peer.pc) *)
}.

(** The private fields of the class. *)
Record Fields := {
  torrentPeers : JsMap.t JsSet.t;
  torrentOffers : JsMap.t (list string);
  torrentCleanupHandlers : JsMap.t string;  (* the infoHash the closure captured *)
  refreshTimers : JsMap.t TimerId;
  torrentBloomFilters : JsMap.t FilterRef
}.

(** Listeners and timers the class registered with WebTorrent, the peers
    and the timer API.  The ['done'] listener only logs and is left out. *)
Record Host := {
  clientTorrents : list string;              (* client.torrents *)
  torrentListener : bool;                    (* client.on('torrent', ..) attached *)
  destroyedOnce : list string;               (* torrent.once('destroyed', cleanup) *)
  intervals : list (TimerId * string);       (* live setInterval timers *)
  peerHandlers : list (PeerRef * string)     (* setupPeerHandlers(peer, torrent) *)
}.

(** The rondevu client, the bloom-filter objects and the parked methods. *)
Record Runtime := {
  credentials : option string;     (* rondevu.getCredentials()?.peerId *)
  initPending : bool;              (* initialize() parked on register() *)
  filters : list BloomFilter;      (* filter objects, by reference *)
  tasks : list (TaskId * Task);
  nextPeer : nat;
  nextTimer : nat;
  nextTask : nat
}.

Record State := {
  fields : Fields;
  host : Host;
  runtime : Runtime
}.

Definition upd_torrentPeers (g : JsMap.t JsSet.t -> JsMap.t JsSet.t) (s : State) : State :=
  let f := fields s in
  {| fields := {| torrentPeers := g (torrentPeers f);
                  torrentOffers := torrentOffers f;
                  torrentCleanupHandlers := torrentCleanupHandlers f;
                  refreshTimers := refreshTimers f;
                  torrentBloomFilters := torrentBloomFilters f |};
     host := host s; runtime := runtime s |}.

Definition upd_torrentOffers (g : JsMap.t (list string) -> JsMap.t (list string)) (s : State) : State :=
  let f := fields s in
  {| fields := {| torrentPeers := torrentPeers f;
                  torrentOffers := g (torrentOffers f);
                  torrentCleanupHandlers := torrentCleanupHandlers f;
                  refreshTimers := refreshTimers f;
                  torrentBloomFilters := torrentBloomFilters f |};
     host := host s; runtime := runtime s |}.

Definition upd_torrentCleanupHandlers (g : JsMap.t string -> JsMap.t string) (s : State) : State :=
  let f := fields s in
  {| fields := {| torrentPeers := torrentPeers f;
                  torrentOffers := torrentOffers f;
                  torrentCleanupHandlers := g (torrentCleanupHandlers f);
                  refreshTimers := refreshTimers f;
                  torrentBloomFilters := torrentBloomFilters f |};
     host := host s; runtime := runtime s |}.

Definition upd_refreshTimers (g : JsMap.t TimerId -> JsMap.t TimerId) (s : State) : State :=
  let f := fields s in
  {| fields := {| torrentPeers := torrentPeers f;
                  torrentOffers := torrentOffers f;
                  torrentCleanupHandlers := torrentCleanupHandlers f;
                  refreshTimers := g (refreshTimers f);
                  torrentBloomFilters := torrentBloomFilters f |};
     host := host s; runtime := runtime s |}.

Definition upd_torrentBloomFilters (g : JsMap.t FilterRef -> JsMap.t FilterRef) (s : State) : State :=
  let f := fields s in
  {| fields := {| torrentPeers := torrentPeers f;
                  torrentOffers := torrentOffers f;
                  torrentCleanupHandlers := torrentCleanupHandlers f;
                  refreshTimers := refreshTimers f;
                  torrentBloomFilters := g (torrentBloomFilters f) |};
     host := host s; runtime := runtime s |}.

Definition upd_clientTorrents (g : list string -> list string) (s : State) : State :=
  let h := host s in
  {| fields := fields s;
     host := {| clientTorrents := g (clientTorrents h);
                torrentListener := torrentListener h;
                destroyedOnce := destroyedOnce h;
                intervals := intervals h;
                peerHandlers := peerHandlers h |};
     runtime := runtime s |}.

Definition upd_torrentListener (g : bool -> bool) (s : State) : State :=
  let h := host s in
  {| fields := fields s;
     host := {| clientTorrents := clientTorrents h;
                torrentListener := g (torrentListener h);
                destroyedOnce := destroyedOnce h;
                intervals := intervals h;
                peerHandlers := peerHandlers h |};
     runtime := runtime s |}.

Definition upd_destroyedOnce (g : list string -> list string) (s : State) : State :=
  let h := host s in
  {| fields := fields s;
     host := {| clientTorrents := clientTorrents h;
                torrentListener := torrentListener h;
                destroyedOnce := g (destroyedOnce h);
                intervals := intervals h;
                peerHandlers := peerHandlers h |};
     runtime := runtime s |}.

Definition upd_intervals (g : list (TimerId * string) -> list (TimerId * string)) (s : State) : State :=
  let h := host s in
  {| fields := fields s;
     host := {| clientTorrents := clientTorrents h;
                torrentListener := torrentListener h;
                destroyedOnce := destroyedOnce h;
                intervals := g (intervals h);
                peerHandlers := peerHandlers h |};
     runtime := runtime s |}.

Definition upd_peerHandlers (g : list (PeerRef * string) -> list (PeerRef * string)) (s : State) : State :=
  let h := host s in
  {| fields := fields s;
     host := {| clientTorrents := clientTorrents h;
                torrentListener := torrentListener h;
                destroyedOnce := destroyedOnce h;
                intervals := intervals h;
                peerHandlers := g (peerHandlers h) |};
     runtime := runtime s |}.

Definition upd_runtime (g : Runtime -> Runtime) (s : State) : State :=
  {| fields := fields s; host := host s; runtime := g (runtime s) |}.

Definition set_credentials (v : option string) (r : Runtime) : Runtime :=
  {| credentials := v; initPending := initPending r; filters := filters r;
     tasks := tasks r; nextPeer := nextPeer r; nextTimer := nextTimer r;
     nextTask := nextTask r |}.

Definition set_initPending (v : bool) (r : Runtime) : Runtime :=
  {| credentials := credentials r; initPending := v; filters := filters r;
     tasks := tasks r; nextPeer := nextPeer r; nextTimer := nextTimer r;
     nextTask := nextTask r |}.

Definition set_filters (v : list BloomFilter) (r : Runtime) : Runtime :=
  {| credentials := credentials r; initPending := initPending r; filters := v;
     tasks := tasks r; nextPeer := nextPeer r; nextTimer := nextTimer r;
     nextTask := nextTask r |}.

Definition set_tasks (v : list (TaskId * Task)) (r : Runtime) : Runtime :=
  {| credentials := credentials r; initPending := initPending r; filters := filters r;
     tasks := v; nextPeer := nextPeer r; nextTimer := nextTimer r;
     nextTask := nextTask r |}.

Definition set_nextPeer (v : nat) (r : Runtime) : Runtime :=
  {| credentials := credentials r; initPending := initPending r; filters := filters r;
     tasks := tasks r; nextPeer := v; nextTimer := nextTimer r;
     nextTask := nextTask r |}.

Definition set_nextTimer (v : nat) (r : Runtime) : Runtime :=
  {| credentials := credentials r; initPending := initPending r; filters := filters r;
     tasks := tasks r; nextPeer := nextPeer r; nextTimer := v;
     nextTask := nextTask r |}.

Definition set_nextTask (v : nat) (r : Runtime) : Runtime :=
  {| credentials := credentials r; initPending := initPending r; filters := filters r;
     tasks := tasks r; nextPeer := nextPeer r; nextTimer := nextTimer r;
     nextTask := v |}.

Definition Act := M State Effect.

Fixpoint updateNth {A} (n : nat) (g : A -> A) (l : list A) : list A :=
  match l, n with
  | [], _ => []
  | x :: l', O => g x :: l'
  | x :: l', S n' => x :: updateNth n' g l'
  end.

(** [torrentPeers.get(infoHash)?.size ?? 0] *)
Definition peerCount (infoHash : string) (s : State) : Z :=
  match JsMap.get infoHash (torrentPeers (fields s)) with
  | Some peers => JsSet.size peers
  | None => 0%Z
  end.

(** [remoteOffer.peerId === this.rondevu.getCredentials()?.peerId] *)
Definition isOwn (remoteOffer : RemoteOffer) (s : State) : bool :=
  match credentials (runtime s) with
  | Some me => String.eqb (ro_peerId remoteOffer) me
  | None => false
  end.

(** [bloomFilter?.toBytes()] on the filter object behind the reference. *)
Definition filterBytes (bloomFilter : option FilterRef) (s : State)
  : option BloomBytes :=
  match bloomFilter with
  | Some r => option_map toBytes (nth_error (filters (runtime s)) r)
  | None => None
  end.

(** The identities held by the filter object behind a reference. *)
Definition filterItems (r : FilterRef) (s : State) : list string :=
  match nth_error (filters (runtime s)) r with
  | Some f => bf_items f
  | None => []
  end.

Section Manager.
Variable options : Options.
Variable world : World.
Local Open Scope act_scope.

Definition log (m : LogMsg) : Act unit := emit (Log m).

(** [this.rondevu.createPeer(this.options.rtcConfig)]: a new peer object. *)
Definition createPeer : Act PeerRef :=
  p <- gets (fun s => nextPeer (runtime s));;
  modify (upd_runtime (set_nextPeer (S p)));;
  emit (CreatePeer p);;
  ret p.

(** An [await]: the rest of the method is parked until the promise settles. *)
Definition park (t : Task) : Act unit :=
  k <- gets (fun s => nextTask (runtime s));;
  modify (upd_runtime (fun r => set_nextTask (S k) (set_tasks (tasks r ++ [(k, t)]) r))).

Definition newFilter (f : BloomFilter) : Act FilterRef :=
  r <- gets (fun s => length (filters (runtime s)));;
  modify (upd_runtime (fun rt => set_filters (filters rt ++ [f]) rt));;
  ret r.

(** [bloomFilter?.add(x)] *)
Definition filterAdd (bloomFilter : option FilterRef) (x : string) : Act unit :=
  match bloomFilter with
  | Some r =>
      modify (upd_runtime (fun rt => set_filters (updateNth r (bf_add x) (filters rt)) rt))
  | None => ret tt
  end.

(** [setupPeerHandlers] (lines 279-312): the four listeners of a peer; what
    they do is [onPeerEvent]. *)
Definition setupPeerHandlers (peer : PeerRef) (infoHash : string)
    (isOfferer : bool) : Act unit :=
  modify (upd_peerHandlers (fun hs => hs ++ [(peer, infoHash)])).

Definition onPeerEvent (peer : PeerRef) (infoHash : string) (e : PeerEvent)
  : Act unit :=
  match e with
  | Connected =>
      log (LPeerConnected infoHash);;
      modify (upd_torrentPeers (JsMap.onEntry infoHash (JsSet.add peer)));;
      emit (TorrentAddPeer infoHash peer);;
      if addPeerThrows world peer then log LFailedToAddPeer else ret tt
  | Disconnected =>
      log (LPeerDisconnected infoHash);;
      modify (upd_torrentPeers (JsMap.onEntry infoHash (JsSet.delete peer)))
  | Failed =>
      log (LPeerFailed infoHash);;
      modify (upd_torrentPeers (JsMap.onEntry infoHash (JsSet.delete peer)))
  | DataChannel => log (LDataChannel infoHash)
  end.

(** The [cleanup] closure of [handleTorrentAdded] (lines 150-189). *)
Definition closePeer (peer : PeerRef) : Act unit :=
  emit (PeerClose peer);;
  if closeThrows world peer then log LErrorClosingPeer else ret tt.

Definition deleteOffer (offerId : string) : Act unit :=
  emit (OffersDelete offerId);;
  park (AwaitOfferDelete offerId).

Definition cleanup (infoHash : string) : Act unit :=
  log (LCleaningUp infoHash);;
  timer <- gets (fun s => JsMap.get infoHash (refreshTimers (fields s)));;
  match timer with
  | Some tm =>
      emit (ClearInterval tm);;
      modify (upd_intervals (filter (fun e => negb (Nat.eqb (fst e) tm))));;
      modify (upd_refreshTimers (JsMap.delete infoHash))
  | None => ret tt
  end;;
  peers <- gets (fun s => JsMap.get infoHash (torrentPeers (fields s)));;
  match peers with
  | Some ps =>
      forEach ps closePeer;;
      modify (upd_torrentPeers (JsMap.delete infoHash))
  | None => ret tt
  end;;
  offerIds <- gets (fun s => JsMap.get infoHash (torrentOffers (fields s)));;
  match offerIds with
  | Some ids =>
      forEach ids deleteOffer;;
      modify (upd_torrentOffers (JsMap.delete infoHash))
  | None => ret tt
  end;;
  modify (upd_torrentBloomFilters (JsMap.delete infoHash));;
  modify (upd_torrentCleanupHandlers (JsMap.delete infoHash)).

(** [handleTorrentAdded] after its [await] (lines 142-198). *)
Definition handleTorrentAdded_resume (infoHash : string) : Act unit :=
  tm <- gets (fun s => nextTimer (runtime s));;
  modify (upd_runtime (set_nextTimer (S tm)));;
  emit (SetInterval tm infoHash (refreshInterval options));;
  modify (upd_intervals (fun l => l ++ [(tm, infoHash)]));;
  modify (upd_refreshTimers (JsMap.set infoHash tm));;
  modify (upd_destroyedOnce (fun l => l ++ [infoHash]));;
  modify (upd_torrentCleanupHandlers (JsMap.set infoHash infoHash)).

(** A discovery pass returns to whoever awaits it. *)
Definition passReturns (aw : Awaiter) (infoHash : string) : Act unit :=
  match aw with
  | AddedHandler => handleTorrentAdded_resume infoHash
  | NoAwaiter => ret tt
  end.

(** The [for (const remoteOffer of offers)] loop of
    [discoverPeersForTorrent] (lines 242-270), up to its next [await]. *)
Fixpoint connectLoop (infoHash : string) (bloomFilter : option FilterRef)
    (offers : list RemoteOffer) (aw : Awaiter) : Act unit :=
  match offers with
  | [] => passReturns aw infoHash
  | remoteOffer :: rest =>
      own <- gets (isOwn remoteOffer);;
      if own then connectLoop infoHash bloomFilter rest aw
      else if truthy (ro_answererPeerId remoteOffer)
      then connectLoop infoHash bloomFilter rest aw
      else
        filterAdd bloomFilter (ro_peerId remoteOffer);;
        answerPeer <- createPeer;;
        log (LAnswering (ro_id remoteOffer) infoHash);;
        emit (Answer answerPeer remoteOffer infoHash);;
        park (AwaitAnswer infoHash bloomFilter answerPeer remoteOffer rest aw)
  end.

(** [discoverPeersForTorrent] up to its first [await] (lines 204-224). *)
Definition discoverPeersForTorrent (infoHash : string) (aw : Awaiter)
  : Act unit :=
  currentPeerCount <- gets (peerCount infoHash);;
  if (maxPeersPerTorrent options <=? currentPeerCount)%Z then
    log (LMaxPeersReached infoHash);;
    passReturns aw infoHash
  else
    peer <- createPeer;;
    log (LCreatingOffer infoHash);;
    emit (CreateOffer peer infoHash 300000%Z);;
    park (AwaitCreateOffer infoHash currentPeerCount peer aw).

(** A parked method goes on when its promise settles.  [None]: the
    settlement is not one this [await] can receive. *)
Definition resume (t : Task) (r : Settled) : option (Act unit) :=
  match t, r with
  | AwaitCreateOffer infoHash currentPeerCount peer aw, OfferCreated offerId =>
      Some (
        modify (upd_torrentOffers (JsMap.onEntry infoHash (fun ids => ids ++ [offerId])));;
        setupPeerHandlers peer infoHash true;;
        log (LDiscovering infoHash);;
        bloomFilter <- gets (fun s => JsMap.get infoHash (torrentBloomFilters (fields s)));;
        bytes <- gets (filterBytes bloomFilter);;
        emit (FindByTopic infoHash
                (maxPeersPerTorrent options - currentPeerCount)%Z bytes);;
        park (AwaitFindByTopic infoHash bloomFilter aw))
  | AwaitCreateOffer infoHash _ _ aw, Rejected =>
      Some (log (LErrorDiscovering infoHash);; passReturns aw infoHash)
  | AwaitFindByTopic infoHash bloomFilter aw, OffersFound offers =>
      Some (log (LFound (length offers) infoHash);;
            connectLoop infoHash bloomFilter offers aw)
  | AwaitFindByTopic infoHash _ aw, Rejected =>
      Some (log (LErrorDiscovering infoHash);; passReturns aw infoHash)
  | AwaitAnswer infoHash bloomFilter answerPeer _ rest aw, Answered =>
      Some (setupPeerHandlers answerPeer infoHash false;;
            connectLoop infoHash bloomFilter rest aw)
  | AwaitAnswer infoHash bloomFilter _ remoteOffer rest aw, Rejected =>
      Some (log (LFailedToAnswer (ro_id remoteOffer));;
            connectLoop infoHash bloomFilter rest aw)
  | AwaitOfferDelete _, OfferDeleted => Some (ret tt)
  | AwaitOfferDelete _, Rejected => Some (log LErrorDeletingOffer)
  | _, _ => None
  end.

(** [handleTorrentAdded] up to its [await] (lines 130-140). *)
Definition handleTorrentAdded (infoHash : string) : Act unit :=
  log (LTorrentAdded infoHash);;
  modify (upd_torrentPeers (JsMap.set infoHash []));;
  modify (upd_torrentOffers (JsMap.set infoHash []));;
  f <- newFilter (newBloomFilter 1024 3);;
  modify (upd_torrentBloomFilters (JsMap.set infoHash f));;
  discoverPeersForTorrent infoHash AddedHandler.

(** Public [discoverPeers] (lines 326-333). *)
Definition discoverPeers (infoHash : string) : Act unit :=
  found <- gets (fun s => existsb (String.eqb infoHash) (clientTorrents (host s)));;
  if found then discoverPeersForTorrent infoHash NoAwaiter
  else log (LTorrentNotFound infoHash).

(** Public [destroy] (lines 362-373). *)
Definition destroy : Act unit :=
  log LDestroying;;
  handlers <- gets (fun s => JsMap.values (torrentCleanupHandlers (fields s)));;
  forEach handlers cleanup;;
  modify (upd_torrentCleanupHandlers (fun _ => JsMap.empty));;
  modify (upd_torrentPeers (fun _ => JsMap.empty));;
  modify (upd_torrentOffers (fun _ => JsMap.empty));;
  modify (upd_refreshTimers (fun _ => JsMap.empty));;
  modify (upd_torrentBloomFilters (fun _ => JsMap.empty)).

(** [initialize] (lines 101-125): the part after the [try] block. *)
Definition attachListeners : Act unit :=
  emit ClientOnTorrent;;
  modify (upd_torrentListener (fun _ => true));;
  existing <- gets (fun s => clientTorrents (host s));;
  forEach existing handleTorrentAdded.

(** [initialize] up to its [await], and after it.  The client is
    authenticated when it holds credentials; [register()] leaves the
    credentials it resolves with in the client. *)
Definition initialize : Act unit :=
  log LInitializing;;
  c <- gets (fun s => credentials (runtime s));;
  match c with
  | None =>
      emit CallRegister;;
      modify (upd_runtime (set_initPending true))
  | Some peerId =>
      log (LUsingExisting peerId);;
      attachListeners
  end.

Definition initialize_resume (r : Settled) : option (Act unit) :=
  match r with
  | Registered peerId =>
      Some (modify (upd_runtime (set_credentials (Some peerId)));;
            log (LRegistered peerId);;
            attachListeners)
  | Rejected => Some (log LFailedToRegister)
  | _ => None
  end.

Definition findTask (k : TaskId) (s : State) : option Task :=
  option_map snd (find (fun e => Nat.eqb (fst e) k) (tasks (runtime s))).

Definition dropTask (k : TaskId) : State -> State :=
  upd_runtime (fun r => set_tasks (filter (fun e => negb (Nat.eqb (fst e) k)) (tasks r)) r).

(** One turn of the event loop. *)
Definition step (ev : Event) : Act unit :=
  match ev with
  | EvInitSettled r =>
      pending <- gets (fun s => initPending (runtime s));;
      match pending, initialize_resume r with
      | true, Some k => modify (upd_runtime (set_initPending false));; k
      | _, _ => ret tt
      end
  | EvClientAdd infoHash =>
      modify (upd_clientTorrents (fun l => l ++ [infoHash]))
  | EvTorrent infoHash =>
      attached <- gets (fun s => torrentListener (host s));;
      if attached then handleTorrentAdded infoHash else ret tt
  | EvDestroyed infoHash =>
      closures <- gets (fun s => filter (String.eqb infoHash) (destroyedOnce (host s)));;
      modify (upd_clientTorrents (filter (fun t => negb (String.eqb infoHash t))));;
      modify (upd_destroyedOnce (filter (fun t => negb (String.eqb infoHash t))));;
      forEach closures cleanup
  | EvTick timer =>
      live <- gets (fun s => find (fun e => Nat.eqb (fst e) timer) (intervals (host s)));;
      match live with
      | Some (_, infoHash) => discoverPeersForTorrent infoHash NoAwaiter
      | None => ret tt
      end
  | EvSettle k r =>
      t <- gets (findTask k);;
      match t with
      | Some t =>
          match resume t r with
          | Some go => modify (dropTask k);; go
          | None => ret tt
          end
      | None => ret tt
      end
  | EvPeer peer e =>
      hs <- gets (fun s => filter (fun h => Nat.eqb (fst h) peer) (peerHandlers (host s)));;
      forEach hs (fun h => onPeerEvent peer (snd h) e)
  | EvDiscoverPeers infoHash => discoverPeers infoHash
  | EvDestroy => destroy
  end.

Fixpoint run (evs : list Event) : Act unit :=
  match evs with
  | [] => ret tt
  | ev :: evs' => step ev;; run evs'
  end.

(** [getStats] (lines 338-350). *)
Record Stats := {
  activeTorrents : nat;
  st_peerId : option string;
  st_rondevuServer : string;
  st_torrents : list (string * Z)
}.

Definition getStats (s : State) : Stats :=
  {| activeTorrents := length (clientTorrents (host s));
     st_peerId := credentials (runtime s);
     st_rondevuServer := orDefault (rondevuServer options) "https://api.ronde.vu";
     st_torrents := map (fun e => (fst e, JsSet.size (snd e))) (torrentPeers (fields s)) |}.

End Manager.

(** The state a fresh instance starts from, and the constructor
    (lines 73-96): it resolves the options and calls [initialize]. *)
Definition newState (creds : option string) (torrents : list string) : State :=
  {| fields := {| torrentPeers := JsMap.empty; torrentOffers := JsMap.empty;
                  torrentCleanupHandlers := JsMap.empty;
                  refreshTimers := JsMap.empty;
                  torrentBloomFilters := JsMap.empty |};
     host := {| clientTorrents := torrents; torrentListener := false;
                destroyedOnce := []; intervals := []; peerHandlers := [] |};
     runtime := {| credentials := creds; initPending := false; filters := [];
                   tasks := []; nextPeer := 0; nextTimer := 0; nextTask := 0 |} |}.

Definition construct (o : ManagerOptions) (torrents : list string)
  : unit * State * list Effect :=
  initialize (resolveOptions o) (newState (o_credentials o) torrents).

(** ** Notions used to state the properties *)

(** What is tracked for a torrent. *)
Definition timerOf (infoHash : string) (s : State) : list TimerId :=
  match JsMap.get infoHash (refreshTimers (fields s)) with
  | Some tm => [tm]
  | None => []
  end.

Definition peersOf (infoHash : string) (s : State) : JsSet.t :=
  match JsMap.get infoHash (torrentPeers (fields s)) with
  | Some ps => ps
  | None => []
  end.

Definition offersOf (infoHash : string) (s : State) : list string :=
  match JsMap.get infoHash (torrentOffers (fields s)) with
  | Some ids => ids
  | None => []
  end.

(** The live interval timers whose callback runs a pass for a torrent. *)
Definition liveTimers (infoHash : string) (s : State) : list TimerId :=
  map fst (filter (fun e => String.eqb infoHash (snd e)) (intervals (host s))).

(** The calls one [peer.close()] inside its [try] leaves in the trace. *)
Definition closeTrace (w : World) (p : PeerRef) : list Effect :=
  PeerClose p :: (if closeThrows w p then [Log LErrorClosingPeer] else []).

(** The calls [cleanup] makes, from what is tracked when it starts. *)
Definition cleanupTrace (w : World) (infoHash : string) (s : State)
  : list Effect :=
  Log (LCleaningUp infoHash)
    :: map ClearInterval (timerOf infoHash s)
    ++ flat_map (closeTrace w) (peersOf infoHash s)
    ++ map OffersDelete (offersOf infoHash s).

(** The parked [offers.delete] calls of [cleanup]. *)
Definition parkAll (ids : list string) (s : State) : State :=
  fold_left (fun s id => exec (park (AwaitOfferDelete id)) s) ids s.

(** The private fields with every entry of a torrent removed. *)
Definition forget (infoHash : string) (f : Fields) : Fields :=
  {| torrentPeers := JsMap.delete infoHash (torrentPeers f);
     torrentOffers := JsMap.delete infoHash (torrentOffers f);
     torrentCleanupHandlers := JsMap.delete infoHash (torrentCleanupHandlers f);
     refreshTimers := JsMap.delete infoHash (refreshTimers f);
     torrentBloomFilters := JsMap.delete infoHash (torrentBloomFilters f) |}.

Definition noFields : Fields :=
  {| torrentPeers := JsMap.empty; torrentOffers := JsMap.empty;
     torrentCleanupHandlers := JsMap.empty; refreshTimers := JsMap.empty;
     torrentBloomFilters := JsMap.empty |}.

(** The teardown step a call belongs to: timer, peers, offers. *)
Definition phase (e : Effect) : list nat :=
  match e with
  | ClearInterval _ => [0]
  | PeerClose _ => [1]
  | OffersDelete _ => [2]
  | _ => []
  end.

(** A parked pass that [handleTorrentAdded] awaits. *)
Definition awaitedByAdded (t : Task) : bool :=
  match t with
  | AwaitCreateOffer _ _ _ AddedHandler
  | AwaitFindByTopic _ _ AddedHandler
  | AwaitAnswer _ _ _ _ _ AddedHandler => true
  | _ => false
  end.

(** A manager whose initialisation failed: no listener, no timer, no
    per-torrent entry, nothing parked that would create one. *)
Definition inert (s : State) : Prop :=
  fields s = noFields /\
  torrentListener (host s) = false /\
  destroyedOnce (host s) = [] /\
  intervals (host s) = [] /\
  initPending (runtime s) = false /\
  Forall (fun kt => awaitedByAdded (snd kt) = false) (tasks (runtime s)).

(** Calls an inert manager never makes. *)
Definition quiet (e : Effect) : Prop :=
  match e with
  | CallRegister | ClientOnTorrent | SetInterval _ _ _ => False
  | _ => True
  end.

(** No private map holds two entries for one infoHash. *)
Definition oneEntryPerTopic (s : State) : Prop :=
  NoDup (JsMap.keys (torrentPeers (fields s))) /\
  NoDup (JsMap.keys (torrentOffers (fields s))) /\
  NoDup (JsMap.keys (torrentCleanupHandlers (fields s))) /\
  NoDup (JsMap.keys (refreshTimers (fields s))) /\
  NoDup (JsMap.keys (torrentBloomFilters (fields s))).

(** [log] (lines 317-321) prints in debug mode only: what the console
    shows of a trace. *)
Definition console (o : Options) (trace : list Effect) : list LogMsg :=
  if debug o
  then flat_map (fun e => match e with Log m => [m] | _ => [] end) trace
  else [].

(** [answer] calls made for the advertisements of one remote identity. *)
Definition answers (peerId : string) (e : Effect) : bool :=
  match e with
  | Answer _ remoteOffer _ => String.eqb peerId (ro_peerId remoteOffer)
  | _ => false
  end.

(** The instance the constructor leaves behind. *)
Definition constructed (o : ManagerOptions) (torrents : list string) : State :=
  snd (fst (construct o torrents)).

(** ** Sample runs *)

Definition calm : World :=
  {| closeThrows := fun _ => false; addPeerThrows := fun _ => false |}.

Definition sampleOptions (cap : Z) (creds : option string) : ManagerOptions :=
  {| o_rondevuServer := None; o_maxPeersPerTorrent := Some cap;
     o_debug := None; o_refreshInterval := None; o_credentials := creds |}.

Definition bob : RemoteOffer :=
  {| ro_id := "offer-bob"; ro_peerId := "bob"; ro_sdp := "v=0";
     ro_answererPeerId := None |}.

Definition taken : RemoteOffer :=
  {| ro_id := "offer-carol"; ro_peerId := "carol"; ro_sdp := "v=0";
     ro_answererPeerId := Some "dave" |}.

(** Torrent T is added; the first pass publishes offer o1, finds bob's
    advertisement and answers it. *)
Definition firstPass : list Event :=
  [EvClientAdd "T"; EvTorrent "T"; EvSettle 0 (OfferCreated "o1");
   EvSettle 1 (OffersFound [bob]); EvSettle 2 Answered].

(** Then the peer behind the own offer and the peer that answered bob both
    connect. *)
Definition bothConnect : list Event :=
  firstPass ++ [EvPeer 0 Connected; EvPeer 1 Connected].

(** Or the refresh timer fires and the service returns bob's advertisement
    once more. *)
Definition secondPass : list Event :=
  firstPass ++ [EvTick 0; EvSettle 3 (OfferCreated "o2");
                EvSettle 4 (OffersFound [bob]); EvSettle 5 Answered].

(** Torrent T is added, its first pass finds nothing, and the peer behind
    the own offer connects. *)
Definition addedOnce : list Event :=
  [EvClientAdd "T"; EvTorrent "T"; EvSettle 0 (OfferCreated "o1");
   EvSettle 1 (OffersFound []); EvPeer 0 Connected].

Definition after (cap : Z) (evs : list Event) : State :=
  exec (run (resolveOptions (sampleOptions cap (Some "me"))) calm evs)
       (constructed (sampleOptions cap (Some "me")) []).

Definition traceOf (cap : Z) (evs : list Event) : list Effect :=
  effects (run (resolveOptions (sampleOptions cap (Some "me"))) calm evs)
          (constructed (sampleOptions cap (Some "me")) []).

(** ** The rest of the public interface, and notions for its properties *)

(** [getCredentials] (lines 355-357); credentials are kept as their
    peerId. *)
Definition getCredentials (s : State) : option string :=
  credentials (runtime s).

Definition anyCall (e : Effect) : Prop := True.

(** Events that run [cleanup] closures, and the event that ends
    [initialize]. *)
Definition tearsDown (ev : Event) : bool :=
  match ev with
  | EvDestroyed _ | EvDestroy => true
  | _ => false
  end.

(** What events leave in place between [s] and [s']: every peer listener;
    with [identity], no [initialize] is parked and the credentials and the
    ['torrent'] listener are as they were; with [timers], every live
    interval timer is still live. *)
Definition keeps (identity timers : bool) (s s' : State) : Prop :=
  (identity = true ->
     initPending (runtime s') = false /\
     credentials (runtime s') = credentials (runtime s) /\
     torrentListener (host s') = torrentListener (host s)) /\
  incl (peerHandlers (host s)) (peerHandlers (host s')) /\
  (timers = true -> incl (intervals (host s)) (intervals (host s'))).

(** The advertisements the connect loop answers: not the manager's own, not
    already answered. *)
Definition eligible (s : State) (offers : list RemoteOffer) : list RemoteOffer :=
  filter (fun ro => negb (isOwn ro s || truthy (ro_answererPeerId ro))) offers.

(** The advertisements handed to [answer] in a trace, in order. *)
Definition answered (trace : list Effect) : list RemoteOffer :=
  flat_map (fun e => match e with Answer _ ro _ => [ro] | _ => [] end) trace.

(** Task numbers are given out in order. *)
Definition freshTasks (s : State) : Prop :=
  Forall (fun kt => fst kt < nextTask (runtime s)) (tasks (runtime s)).

(** The promise awaited last settles. *)
Definition settleLatest (o : Options) (w : World) (r : Settled) : Act unit :=
  bind (gets (fun s => pred (nextTask (runtime s))))
       (fun k => step o w (EvSettle k r)).

(** How [answerPeer.answer] can settle. *)
Definition attemptOutcome (r : Settled) : bool :=
  match r with
  | Answered | Rejected => true
  | _ => false
  end.

(** The calls of a discovery pass. *)
Definition discovers (e : Effect) : bool :=
  match e with
  | CreatePeer _ | CreateOffer _ _ _ | FindByTopic _ _ _ | Answer _ _ _ => true
  | _ => false
  end.

(** A parked [offers.delete] of [cleanup]. *)
Definition awaitsDelete (t : Task) : bool :=
  match t with
  | AwaitOfferDelete _ => true
  | _ => false
  end.

(** Every tracked peer carries the listeners of [setupPeerHandlers] for
    its torrent. *)
Definition heard (s : State) : Prop :=
  forall infoHash p,
    In p (peersOf infoHash s) -> In (p, infoHash) (peerHandlers (host s)).

End Bloom.

(** * The pooled revision (source lines 375-856) *)
Module Pooled.

Definition PeerRef := nat.
Definition TimerId := nat.
Definition HandleRef := nat.
Definition ConnRef := nat.
Definition TaskId := nat.

Record ManagerOptions := {
  o_rondevuServer : option string;
  o_maxPeersPerTorrent : option Z;
  o_debug : option bool;
  o_refreshInterval : option Z;
  o_credential : option string
}.

Record Options := {
  rondevuServer : option string;
  maxPeersPerTorrent : Z;
  debug : bool;
  refreshInterval : Z;
  credential : option string
}.

Definition orDefault {A} (o : option A) (d : A) : A :=
  match o with Some a => a | None => d end.

Definition resolveOptions (o : ManagerOptions) : Options :=
  {| rondevuServer := o_rondevuServer o;
     maxPeersPerTorrent := orDefault (o_maxPeersPerTorrent o) 50%Z;
     debug := orDefault (o_debug o) false;
     refreshInterval := orDefault (o_refreshInterval o) 30000%Z;
     credential := o_credential o |}.

(** A remote advertisement as returned by [rondevu.discover]; the class
    reads its [username] only. *)
Record RemoteOffer := { ro_username : string }.

Inductive Awaiter := AddedHandler | NoAwaiter.

Inductive Task :=
| AwaitOffer (infoHash : string) (currentPeerCount : Z) (aw : Awaiter)
| AwaitDiscover (infoHash : string) (aw : Awaiter)
| AwaitPeer (infoHash : string) (remoteOffer : RemoteOffer)
    (rest : list RemoteOffer) (aw : Awaiter).

Inductive Settled :=
| Rejected
| ConnectedAs (name : string)          (* Rondevu.connect resolved *)
| OfferHandleReady (h : HandleRef)     (* rondevu.offer resolved *)
| Discovered (offers : list RemoteOffer)
| PeerReady (peer : PeerRef).          (* rondevu.peer resolved *)

Inductive LogMsg :=
| LInitializing
| LConnectedToRondevu (name : string)
| LFailedToConnectRondevu
| LNotInitialized
| LTorrentAdded (infoHash : string)
| LCleaningUp (infoHash : string)
| LErrorClosingPeer
| LMaxPeersReached (infoHash : string)
| LCreatingOffers (infoHash : string)
| LIncomingConnection (infoHash : string)
| LAddedIncomingPeer (infoHash : string)
| LFailedToAddIncomingPeer
| LDiscovering (infoHash : string)
| LFound (n : nat) (infoHash : string)
| LConnecting (username infoHash : string)
| LConnectedToPeer (infoHash : string)
| LFailedToAddPeer
| LPeerDisconnected (infoHash : string)
| LPeerError (infoHash : string)
| LFailedToConnect (username : string)
| LErrorDiscovering (infoHash : string)
| LTorrentNotFound (infoHash : string)
| LDestroying.

Inductive Effect :=
| Log (m : LogMsg)
| CallConnect (apiUrl credential : option string)    (* Rondevu.connect(..) *)
| ClientOnTorrent
| CallOffer (tag : string) (maxOffers : Z) (ttl : Z) (* rondevu.offer(..) *)
| CallDiscover (tag : string) (limit : Z)            (* rondevu.discover(..) *)
| CallPeer (tag : string) (username : string)        (* rondevu.peer(..) *)
| TorrentAddPeer (infoHash : string) (peer : PeerRef)
| TorrentAddIncoming (infoHash : string) (conn : ConnRef)
| PeerClose (peer : PeerRef)
| OfferCancel (h : HandleRef)                        (* offerHandle.cancel() *)
| SetInterval (timer : TimerId) (infoHash : string) (ms : Z)
| ClearInterval (timer : TimerId).

Inductive PeerEvent := Open | Close | Error.

Inductive Event :=
| EvInitSettled (r : Settled)          (* Rondevu.connect settles *)
| EvClientAdd (infoHash : string)
| EvTorrent (infoHash : string)
| EvDestroyed (infoHash : string)
| EvTick (timer : TimerId)
| EvSettle (task : TaskId) (r : Settled)
| EvPeer (peer : PeerRef) (e : PeerEvent)
| EvConnectionOpened (conn : ConnRef)     (* rondevu emits 'connection:opened' *)
| EvConnectionConnected (conn : ConnRef)  (* connection emits 'connected' *)
| EvDiscoverPeers (infoHash : string)
| EvDestroy.

Record World := {
  closeThrows : PeerRef -> bool;          (* peer.close() *)
  cancelThrows : HandleRef -> bool;       (* offerHandle.cancel() *)
  addPeerThrows : PeerRef -> bool;        (* torrent.addPeer(wrapper) *)
  hasPeerConnection : PeerRef -> bool;    (* peer.peerConnection is set *)
  connHasPeerConnection : ConnRef -> bool;
  addIncomingThrows : ConnRef -> bool
}.

Record Fields := {
  rondevu : option string;                  (* null, or the client with its name *)
  torrentOfferHandles : JsMap.t HandleRef;
  torrentPeers : JsMap.t JsSet.t;
  torrentCleanupHandlers : JsMap.t string;
  refreshTimers : JsMap.t TimerId
}.

Record Host := {
  clientTorrents : list string;
  torrentListener : bool;
  destroyedOnce : list string;
  intervals : list (TimerId * string);
  peerHandlers : list (PeerRef * string);
  connectionListeners : list string;        (* rondevu.on('connection:opened', ..) *)
  connectionHandlers : list (ConnRef * string)
}.

Record Runtime := {
  initPending : bool;
  tasks : list (TaskId * Task);
  nextTimer : nat;
  nextTask : nat
}.

Record State := {
  fields : Fields;
  host : Host;
  runtime : Runtime
}.

Definition upd_fields (g : Fields -> Fields) (s : State) : State :=
  {| fields := g (fields s); host := host s; runtime := runtime s |}.

Definition upd_host (g : Host -> Host) (s : State) : State :=
  {| fields := fields s; host := g (host s); runtime := runtime s |}.

Definition upd_runtime (g : Runtime -> Runtime) (s : State) : State :=
  {| fields := fields s; host := host s; runtime := g (runtime s) |}.

Definition set_rondevu (v : option string) (s : State) : State :=
  upd_fields (fun f =>
    {| rondevu := v; torrentOfferHandles := torrentOfferHandles f;
       torrentPeers := torrentPeers f;
       torrentCleanupHandlers := torrentCleanupHandlers f;
       refreshTimers := refreshTimers f |}) s.

Definition upd_torrentOfferHandles (g : JsMap.t HandleRef -> JsMap.t HandleRef) (s : State) : State :=
  upd_fields (fun f =>
    {| rondevu := rondevu f; torrentOfferHandles := g (torrentOfferHandles f);
       torrentPeers := torrentPeers f;
       torrentCleanupHandlers := torrentCleanupHandlers f;
       refreshTimers := refreshTimers f |}) s.

Definition upd_torrentPeers (g : JsMap.t JsSet.t -> JsMap.t JsSet.t) (s : State) : State :=
  upd_fields (fun f =>
    {| rondevu := rondevu f; torrentOfferHandles := torrentOfferHandles f;
       torrentPeers := g (torrentPeers f);
       torrentCleanupHandlers := torrentCleanupHandlers f;
       refreshTimers := refreshTimers f |}) s.

Definition upd_torrentCleanupHandlers (g : JsMap.t string -> JsMap.t string) (s : State) : State :=
  upd_fields (fun f =>
    {| rondevu := rondevu f; torrentOfferHandles := torrentOfferHandles f;
       torrentPeers := torrentPeers f;
       torrentCleanupHandlers := g (torrentCleanupHandlers f);
       refreshTimers := refreshTimers f |}) s.

Definition upd_refreshTimers (g : JsMap.t TimerId -> JsMap.t TimerId) (s : State) : State :=
  upd_fields (fun f =>
    {| rondevu := rondevu f; torrentOfferHandles := torrentOfferHandles f;
       torrentPeers := torrentPeers f;
       torrentCleanupHandlers := torrentCleanupHandlers f;
       refreshTimers := g (refreshTimers f) |}) s.

Definition upd_clientTorrents (g : list string -> list string) (s : State) : State :=
  upd_host (fun h =>
    {| clientTorrents := g (clientTorrents h); torrentListener := torrentListener h;
       destroyedOnce := destroyedOnce h; intervals := intervals h;
       peerHandlers := peerHandlers h;
       connectionListeners := connectionListeners h;
       connectionHandlers := connectionHandlers h |}) s.

Definition upd_torrentListener (g : bool -> bool) (s : State) : State :=
  upd_host (fun h =>
    {| clientTorrents := clientTorrents h; torrentListener := g (torrentListener h);
       destroyedOnce := destroyedOnce h; intervals := intervals h;
       peerHandlers := peerHandlers h;
       connectionListeners := connectionListeners h;
       connectionHandlers := connectionHandlers h |}) s.

Definition upd_destroyedOnce (g : list string -> list string) (s : State) : State :=
  upd_host (fun h =>
    {| clientTorrents := clientTorrents h; torrentListener := torrentListener h;
       destroyedOnce := g (destroyedOnce h); intervals := intervals h;
       peerHandlers := peerHandlers h;
       connectionListeners := connectionListeners h;
       connectionHandlers := connectionHandlers h |}) s.

Definition upd_intervals (g : list (TimerId * string) -> list (TimerId * string)) (s : State) : State :=
  upd_host (fun h =>
    {| clientTorrents := clientTorrents h; torrentListener := torrentListener h;
       destroyedOnce := destroyedOnce h; intervals := g (intervals h);
       peerHandlers := peerHandlers h;
       connectionListeners := connectionListeners h;
       connectionHandlers := connectionHandlers h |}) s.

Definition upd_peerHandlers (g : list (PeerRef * string) -> list (PeerRef * string)) (s : State) : State :=
  upd_host (fun h =>
    {| clientTorrents := clientTorrents h; torrentListener := torrentListener h;
       destroyedOnce := destroyedOnce h; intervals := intervals h;
       peerHandlers := g (peerHandlers h);
       connectionListeners := connectionListeners h;
       connectionHandlers := connectionHandlers h |}) s.

Definition upd_connectionListeners (g : list string -> list string) (s : State) : State :=
  upd_host (fun h =>
    {| clientTorrents := clientTorrents h; torrentListener := torrentListener h;
       destroyedOnce := destroyedOnce h; intervals := intervals h;
       peerHandlers := peerHandlers h;
       connectionListeners := g (connectionListeners h);
       connectionHandlers := connectionHandlers h |}) s.

Definition upd_connectionHandlers (g : list (ConnRef * string) -> list (ConnRef * string)) (s : State) : State :=
  upd_host (fun h =>
    {| clientTorrents := clientTorrents h; torrentListener := torrentListener h;
       destroyedOnce := destroyedOnce h; intervals := intervals h;
       peerHandlers := peerHandlers h;
       connectionListeners := connectionListeners h;
       connectionHandlers := g (connectionHandlers h) |}) s.

Definition set_initPending (v : bool) (r : Runtime) : Runtime :=
  {| initPending := v; tasks := tasks r; nextTimer := nextTimer r;
     nextTask := nextTask r |}.

Definition set_tasks (v : list (TaskId * Task)) (r : Runtime) : Runtime :=
  {| initPending := initPending r; tasks := v; nextTimer := nextTimer r;
     nextTask := nextTask r |}.

Definition set_nextTimer (v : nat) (r : Runtime) : Runtime :=
  {| initPending := initPending r; tasks := tasks r; nextTimer := v;
     nextTask := nextTask r |}.

Definition set_nextTask (v : nat) (r : Runtime) : Runtime :=
  {| initPending := initPending r; tasks := tasks r; nextTimer := nextTimer r;
     nextTask := v |}.

Definition Act := M State Effect.

Definition peerCount (infoHash : string) (s : State) : Z :=
  match JsMap.get infoHash (torrentPeers (fields s)) with
  | Some peers => JsSet.size peers
  | None => 0%Z
  end.

Section Manager.
Variable options : Options.
Variable world : World.
Local Open Scope act_scope.

Definition log (m : LogMsg) : Act unit := emit (Log m).

Definition park (t : Task) : Act unit :=
  k <- gets (fun s => nextTask (runtime s));;
  modify (upd_runtime (fun r => set_nextTask (S k) (set_tasks (tasks r ++ [(k, t)]) r))).

(** The listeners put on a peer (lines 763-787). *)
Definition onPeerEvent (peer : PeerRef) (infoHash : string) (e : PeerEvent)
  : Act unit :=
  match e with
  | Open =>
      log (LConnectedToPeer infoHash);;
      if hasPeerConnection world peer then
        emit (TorrentAddPeer infoHash peer);;
        if addPeerThrows world peer then log LFailedToAddPeer else ret tt
      else ret tt
  | Close =>
      log (LPeerDisconnected infoHash);;
      modify (upd_torrentPeers (JsMap.onEntry infoHash (JsSet.delete peer)))
  | Error =>
      log (LPeerError infoHash);;
      modify (upd_torrentPeers (JsMap.onEntry infoHash (JsSet.delete peer)))
  end.

(** The [cleanup] closure of [handleTorrentAdded] (lines 644-674).  The
    result is [false] when [offerHandle.cancel()] threw and the closure was
    left by the exception. *)
Definition closePeer (peer : PeerRef) : Act unit :=
  emit (PeerClose peer);;
  if closeThrows world peer then log LErrorClosingPeer else ret tt.

Definition cleanup_peers (infoHash : string) : Act bool :=
  peers <- gets (fun s => JsMap.get infoHash (torrentPeers (fields s)));;
  match peers with
  | Some ps =>
      forEach ps closePeer;;
      modify (upd_torrentPeers (JsMap.delete infoHash))
  | None => ret tt
  end;;
  modify (upd_torrentCleanupHandlers (JsMap.delete infoHash));;
  ret true.

Definition cleanup (infoHash : string) : Act bool :=
  log (LCleaningUp infoHash);;
  timer <- gets (fun s => JsMap.get infoHash (refreshTimers (fields s)));;
  match timer with
  | Some tm =>
      emit (ClearInterval tm);;
      modify (upd_intervals (filter (fun e => negb (Nat.eqb (fst e) tm))));;
      modify (upd_refreshTimers (JsMap.delete infoHash))
  | None => ret tt
  end;;
  offerHandle <- gets (fun s => JsMap.get infoHash (torrentOfferHandles (fields s)));;
  match offerHandle with
  | Some h =>
      emit (OfferCancel h);;
      if cancelThrows world h then ret false
      else
        modify (upd_torrentOfferHandles (JsMap.delete infoHash));;
        cleanup_peers infoHash
  | None => cleanup_peers infoHash
  end.

(** [handleTorrentAdded] after its [await] (lines 636-683). *)
Definition handleTorrentAdded_resume (infoHash : string) : Act unit :=
  tm <- gets (fun s => nextTimer (runtime s));;
  modify (upd_runtime (set_nextTimer (S tm)));;
  emit (SetInterval tm infoHash (refreshInterval options));;
  modify (upd_intervals (fun l => l ++ [(tm, infoHash)]));;
  modify (upd_refreshTimers (JsMap.set infoHash tm));;
  modify (upd_destroyedOnce (fun l => l ++ [infoHash]));;
  modify (upd_torrentCleanupHandlers (JsMap.set infoHash infoHash)).

Definition passReturns (aw : Awaiter) (infoHash : string) : Act unit :=
  match aw with
  | AddedHandler => handleTorrentAdded_resume infoHash
  | NoAwaiter => ret tt
  end.

(** The [for (const remoteOffer of result.offers)] loop (lines 745-791), up
    to its next [await]. *)
Fixpoint connectLoop (infoHash : string) (offers : list RemoteOffer)
    (aw : Awaiter) : Act unit :=
  match offers with
  | [] => passReturns aw infoHash
  | remoteOffer :: rest =>
      client <- gets (fun s => rondevu (fields s));;
      match client with
      | None =>
          (* [this.rondevu.getName()] on [null] throws into the outer [catch] *)
          log (LErrorDiscovering infoHash);;
          passReturns aw infoHash
      | Some name =>
          if String.eqb (ro_username remoteOffer) name
          then connectLoop infoHash rest aw
          else
            log (LConnecting (ro_username remoteOffer) infoHash);;
            emit (CallPeer infoHash (ro_username remoteOffer));;
            park (AwaitPeer infoHash remoteOffer rest aw)
      end
  end.

(** Lines 736-740: the discovery query. *)
Definition discover (infoHash : string) (currentPeerCount : Z) (aw : Awaiter)
  : Act unit :=
  log (LDiscovering infoHash);;
  emit (CallDiscover infoHash (maxPeersPerTorrent options - currentPeerCount)%Z);;
  park (AwaitDiscover infoHash aw).

(** [discoverPeersForTorrent] up to its first [await] (lines 689-711). *)
Definition discoverPeersForTorrent (infoHash : string) (aw : Awaiter)
  : Act unit :=
  client <- gets (fun s => rondevu (fields s));;
  match client with
  | None => passReturns aw infoHash
  | Some _ =>
      currentPeerCount <- gets (peerCount infoHash);;
      if (maxPeersPerTorrent options <=? currentPeerCount)%Z then
        log (LMaxPeersReached infoHash);;
        passReturns aw infoHash
      else
        tracked <- gets (fun s => JsMap.has infoHash (torrentOfferHandles (fields s)));;
        if tracked then discover infoHash currentPeerCount aw
        else
          log (LCreatingOffers infoHash);;
          emit (CallOffer infoHash 3%Z 300000%Z);;
          park (AwaitOffer infoHash currentPeerCount aw)
  end.

Definition resume (t : Task) (r : Settled) : option (Act unit) :=
  match t, r with
  | AwaitOffer infoHash currentPeerCount aw, OfferHandleReady offerHandle =>
      Some (
        modify (upd_torrentOfferHandles (JsMap.set infoHash offerHandle));;
        modify (upd_connectionListeners (fun l => l ++ [infoHash]));;
        discover infoHash currentPeerCount aw)
  | AwaitOffer infoHash _ aw, Rejected =>
      Some (log (LErrorDiscovering infoHash);; passReturns aw infoHash)
  | AwaitDiscover infoHash aw, Discovered offers =>
      Some (log (LFound (length offers) infoHash);;
            connectLoop infoHash offers aw)
  | AwaitDiscover infoHash aw, Rejected =>
      Some (log (LErrorDiscovering infoHash);; passReturns aw infoHash)
  | AwaitPeer infoHash _ rest aw, PeerReady peer =>
      Some (
        modify (upd_torrentPeers (JsMap.onEntry infoHash (JsSet.add peer)));;
        modify (upd_peerHandlers (fun hs => hs ++ [(peer, infoHash)]));;
        connectLoop infoHash rest aw)
  | AwaitPeer infoHash remoteOffer rest aw, Rejected =>
      Some (log (LFailedToConnect (ro_username remoteOffer));;
            connectLoop infoHash rest aw)
  | _, _ => None
  end.

(** [handleTorrentAdded] up to its [await] (lines 621-634). *)
Definition handleTorrentAdded (infoHash : string) : Act unit :=
  client <- gets (fun s => rondevu (fields s));;
  match client with
  | None => log LNotInitialized
  | Some _ =>
      log (LTorrentAdded infoHash);;
      modify (upd_torrentPeers (JsMap.set infoHash []));;
      discoverPeersForTorrent infoHash AddedHandler
  end.

(** Public [discoverPeers] (lines 809-816). *)
Definition discoverPeers (infoHash : string) : Act unit :=
  found <- gets (fun s => existsb (String.eqb infoHash) (clientTorrents (host s)));;
  if found then discoverPeersForTorrent infoHash NoAwaiter
  else log (LTorrentNotFound infoHash).

(** Public [destroy] (lines 845-855); [false] when a cleanup closure threw. *)
Definition destroy : Act bool :=
  log LDestroying;;
  handlers <- gets (fun s => JsMap.values (torrentCleanupHandlers (fields s)));;
  ok <- forEachOk handlers cleanup;;
  if ok then
    modify (upd_torrentCleanupHandlers (fun _ => JsMap.empty));;
    modify (upd_torrentPeers (fun _ => JsMap.empty));;
    modify (upd_torrentOfferHandles (fun _ => JsMap.empty));;
    modify (upd_refreshTimers (fun _ => JsMap.empty));;
    ret true
  else ret false.

Definition attachListeners : Act unit :=
  emit ClientOnTorrent;;
  modify (upd_torrentListener (fun _ => true));;
  existing <- gets (fun s => clientTorrents (host s));;
  forEach existing handleTorrentAdded.

(** [initialize] (lines 578-616). *)
Definition initialize : Act unit :=
  log LInitializing;;
  emit (CallConnect (rondevuServer options) (credential options));;
  modify (upd_runtime (set_initPending true)).

Definition initialize_resume (r : Settled) : option (Act unit) :=
  match r with
  | ConnectedAs name =>
      Some (modify (set_rondevu (Some name));;
            log (LConnectedToRondevu name);;
            attachListeners)
  | Rejected => Some (log LFailedToConnectRondevu)
  | _ => None
  end.

(** The ['connection:opened'] listener and the ['connected'] listener it
    puts on the connection (lines 716-733). *)
Definition onConnectionOpened (conn : ConnRef) (infoHash : string) : Act unit :=
  log (LIncomingConnection infoHash);;
  modify (upd_connectionHandlers (fun l => l ++ [(conn, infoHash)])).

Definition onConnectionConnected (conn : ConnRef) (infoHash : string) : Act unit :=
  if connHasPeerConnection world conn then
    emit (TorrentAddIncoming infoHash conn);;
    if addIncomingThrows world conn then log LFailedToAddIncomingPeer
    else log (LAddedIncomingPeer infoHash)
  else ret tt.

Definition findTask (k : TaskId) (s : State) : option Task :=
  option_map snd (find (fun e => Nat.eqb (fst e) k) (tasks (runtime s))).

Definition dropTask (k : TaskId) : State -> State :=
  upd_runtime (fun r => set_tasks (filter (fun e => negb (Nat.eqb (fst e) k)) (tasks r)) r).

(** One turn of the event loop.  An exception that leaves a listener or
    [destroy] ends the turn. *)
Definition step (ev : Event) : Act unit :=
  match ev with
  | EvInitSettled r =>
      pending <- gets (fun s => initPending (runtime s));;
      match pending, initialize_resume r with
      | true, Some k => modify (upd_runtime (set_initPending false));; k
      | _, _ => ret tt
      end
  | EvClientAdd infoHash =>
      modify (upd_clientTorrents (fun l => l ++ [infoHash]))
  | EvTorrent infoHash =>
      attached <- gets (fun s => torrentListener (host s));;
      if attached then handleTorrentAdded infoHash else ret tt
  | EvDestroyed infoHash =>
      closures <- gets (fun s => filter (String.eqb infoHash) (destroyedOnce (host s)));;
      modify (upd_clientTorrents (filter (fun t => negb (String.eqb infoHash t))));;
      modify (upd_destroyedOnce (filter (fun t => negb (String.eqb infoHash t))));;
      forEachOk closures cleanup;;
      ret tt
  | EvTick timer =>
      live <- gets (fun s => find (fun e => Nat.eqb (fst e) timer) (intervals (host s)));;
      match live with
      | Some (_, infoHash) => discoverPeersForTorrent infoHash NoAwaiter
      | None => ret tt
      end
  | EvSettle k r =>
      t <- gets (findTask k);;
      match t with
      | Some t =>
          match resume t r with
          | Some go => modify (dropTask k);; go
          | None => ret tt
          end
      | None => ret tt
      end
  | EvPeer peer e =>
      hs <- gets (fun s => filter (fun h => Nat.eqb (fst h) peer) (peerHandlers (host s)));;
      forEach hs (fun h => onPeerEvent peer (snd h) e)
  | EvConnectionOpened conn =>
      ls <- gets (fun s => connectionListeners (host s));;
      forEach ls (onConnectionOpened conn)
  | EvConnectionConnected conn =>
      hs <- gets (fun s => filter (fun h => Nat.eqb (fst h) conn) (connectionHandlers (host s)));;
      forEach hs (fun h => onConnectionConnected conn (snd h))
  | EvDiscoverPeers infoHash => discoverPeers infoHash
  | EvDestroy => destroy;; ret tt
  end.

Fixpoint run (evs : list Event) : Act unit :=
  match evs with
  | [] => ret tt
  | ev :: evs' => step ev;; run evs'
  end.

(** [getStats] (lines 821-833). *)
Record Stats := {
  activeTorrents : nat;
  st_username : option string;
  st_rondevuServer : string;
  st_torrents : list (string * Z)
}.

Definition getStats (s : State) : Stats :=
  {| activeTorrents := length (clientTorrents (host s));
     st_username := rondevu (fields s);
     st_rondevuServer := orDefault (rondevuServer options) "https://api.ronde.vu";
     st_torrents := map (fun e => (fst e, JsSet.size (snd e))) (torrentPeers (fields s)) |}.

End Manager.

Definition newState (torrents : list string) : State :=
  {| fields := {| rondevu := None; torrentOfferHandles := JsMap.empty;
                  torrentPeers := JsMap.empty;
                  torrentCleanupHandlers := JsMap.empty;
                  refreshTimers := JsMap.empty |};
     host := {| clientTorrents := torrents; torrentListener := false;
                destroyedOnce := []; intervals := []; peerHandlers := [];
                connectionListeners := []; connectionHandlers := [] |};
     runtime := {| initPending := false; tasks := []; nextTimer := 0;
                   nextTask := 0 |} |}.

(** The constructor (lines 557-573). *)
Definition construct (o : ManagerOptions) (torrents : list string)
  : unit * State * list Effect :=
  initialize (resolveOptions o) (newState torrents).

(** ** Notions used to state the properties *)

Definition timerOf (infoHash : string) (s : State) : list TimerId :=
  match JsMap.get infoHash (refreshTimers (fields s)) with
  | Some tm => [tm]
  | None => []
  end.

Definition handleOf (infoHash : string) (s : State) : list HandleRef :=
  match JsMap.get infoHash (torrentOfferHandles (fields s)) with
  | Some h => [h]
  | None => []
  end.

Definition peersOf (infoHash : string) (s : State) : JsSet.t :=
  match JsMap.get infoHash (torrentPeers (fields s)) with
  | Some ps => ps
  | None => []
  end.

Definition liveTimers (infoHash : string) (s : State) : list TimerId :=
  map fst (filter (fun e => String.eqb infoHash (snd e)) (intervals (host s))).

Definition closeTrace (w : World) (p : PeerRef) : list Effect :=
  PeerClose p :: (if closeThrows w p then [Log LErrorClosingPeer] else []).

(** The calls [cleanup] makes when [offerHandle.cancel()] returns. *)
Definition cleanupTrace (w : World) (infoHash : string) (s : State)
  : list Effect :=
  Log (LCleaningUp infoHash)
    :: map ClearInterval (timerOf infoHash s)
    ++ map OfferCancel (handleOf infoHash s)
    ++ flat_map (closeTrace w) (peersOf infoHash s).

Definition forget (infoHash : string) (f : Fields) : Fields :=
  {| rondevu := rondevu f;
     torrentOfferHandles := JsMap.delete infoHash (torrentOfferHandles f);
     torrentPeers := JsMap.delete infoHash (torrentPeers f);
     torrentCleanupHandlers := JsMap.delete infoHash (torrentCleanupHandlers f);
     refreshTimers := JsMap.delete infoHash (refreshTimers f) |}.

Definition noFields : Fields :=
  {| rondevu := None; torrentOfferHandles := JsMap.empty;
     torrentPeers := JsMap.empty; torrentCleanupHandlers := JsMap.empty;
     refreshTimers := JsMap.empty |}.

(** The teardown step a call belongs to: timer, peers, offers. *)
Definition phase (e : Effect) : list nat :=
  match e with
  | ClearInterval _ => [0]
  | PeerClose _ => [1]
  | OfferCancel _ => [2]
  | _ => []
  end.

(** A manager whose initialisation failed: [rondevu] is [null], there is
    no listener, no timer, no per-torrent entry and nothing parked. *)
Definition inert (s : State) : Prop :=
  fields s = noFields /\
  torrentListener (host s) = false /\
  destroyedOnce (host s) = [] /\
  intervals (host s) = [] /\
  initPending (runtime s) = false /\
  tasks (runtime s) = [].

Definition quiet (e : Effect) : Prop :=
  match e with
  | CallConnect _ _ | ClientOnTorrent | SetInterval _ _ _
  | CallOffer _ _ _ | CallDiscover _ _ | CallPeer _ _ => False
  | _ => True
  end.

(** Events that drop or replace a torrent's whole peer set: the torrent is
    added or destroyed, [destroy] is called, or [Rondevu.connect] settles
    (which adds every torrent of the client). *)
Definition lifecycle (infoHash : string) (ev : Event) : bool :=
  match ev with
  | EvInitSettled _ | EvDestroy => true
  | EvTorrent t | EvDestroyed t => String.eqb infoHash t
  | _ => false
  end.

(** A peer's ['close'] or ['error'] event. *)
Definition closesPeer (p : PeerRef) (ev : Event) : bool :=
  match ev with
  | EvPeer q Close | EvPeer q Error => Nat.eqb p q
  | _ => false
  end.

(** A property of the peer sets alone, and of a torrent's set holding a
    peer. *)
Definition onPeers (P : JsMap.t JsSet.t -> Prop) (s : State) : Prop :=
  P (torrentPeers (fields s)).

Definition hasPeer (p : PeerRef) (infoHash : string) (m : JsMap.t JsSet.t) : Prop :=
  In p (match JsMap.get infoHash m with Some ps => ps | None => [] end).

Definition anyCall (e : Effect) : Prop := True.

(** No private map holds two entries for one infoHash. *)
Definition oneEntryPerTopic (s : State) : Prop :=
  NoDup (JsMap.keys (torrentOfferHandles (fields s))) /\
  NoDup (JsMap.keys (torrentPeers (fields s))) /\
  NoDup (JsMap.keys (torrentCleanupHandlers (fields s))) /\
  NoDup (JsMap.keys (refreshTimers (fields s))).

(** [log] (lines 800-804) prints in debug mode only. *)
Definition console (o : Options) (trace : list Effect) : list LogMsg :=
  if debug o
  then flat_map (fun e => match e with Log m => [m] | _ => [] end) trace
  else [].

(** [rondevu.peer] calls made for one remote identity. *)
Definition callsPeer (username : string) (e : Effect) : bool :=
  match e with
  | CallPeer _ u => String.eqb username u
  | _ => false
  end.

Definition constructed (o : ManagerOptions) (torrents : list string) : State :=
  snd (fst (construct o torrents)).

(** ** Sample runs *)

Definition calm : World :=
  {| closeThrows := fun _ => false; cancelThrows := fun _ => false;
     addPeerThrows := fun _ => false; hasPeerConnection := fun _ => true;
     connHasPeerConnection := fun _ => true;
     addIncomingThrows := fun _ => false |}.

Definition sampleOptions (cap : Z) : ManagerOptions :=
  {| o_rondevuServer := None; o_maxPeersPerTorrent := Some cap;
     o_debug := None; o_refreshInterval := None; o_credential := None |}.

Definition bob : RemoteOffer := {| ro_username := "bob" |}.

(** The client connects as "me"; torrent T is added; the first pass gets
    offer handle 7, discovers bob and is handed peer 1 for him. *)
Definition firstPass : list Event :=
  [EvInitSettled (ConnectedAs "me"); EvClientAdd "T"; EvTorrent "T";
   EvSettle 0 (OfferHandleReady 7); EvSettle 1 (Discovered [bob]);
   EvSettle 2 (PeerReady 1)].

(** The refresh timer fires and the service returns bob once more. *)
Definition secondPass : list Event :=
  firstPass ++ [EvTick 0; EvSettle 3 (Discovered [bob]); EvSettle 4 (PeerReady 2)].

Definition carol : RemoteOffer := {| ro_username := "carol" |}.

(** While the first pass of T waits for its discovery query, the host
    calls [discoverPeers]; both passes read a peer count of 0, each query
    returns one advertisement and each connection attempt resolves. *)
Definition overlappingPasses : list Event :=
  [EvInitSettled (ConnectedAs "me"); EvClientAdd "T"; EvTorrent "T";
   EvSettle 0 (OfferHandleReady 7); EvDiscoverPeers "T";
   EvSettle 1 (Discovered [bob]); EvSettle 2 (Discovered [carol]);
   EvSettle 3 (PeerReady 1); EvSettle 4 (PeerReady 2)].

(** The host adds torrent T before [Rondevu.connect] has settled, as the
    example in [index.ts] does: [initialize] adds T from [client.torrents]. *)
Definition addedAtInit : list Event :=
  [EvClientAdd "T"; EvInitSettled (ConnectedAs "me");
   EvSettle 0 (OfferHandleReady 7); EvSettle 1 (Discovered [bob]);
   EvSettle 2 (PeerReady 1)].

(** Then T becomes ready and the client emits ['torrent'] for it. *)
Definition addedAgain : list Event :=
  addedAtInit ++ [EvTorrent "T"; EvSettle 3 (Discovered [])].

Definition after (cap : Z) (evs : list Event) : State :=
  exec (run (resolveOptions (sampleOptions cap)) calm evs)
       (constructed (sampleOptions cap) []).

Definition traceOf (cap : Z) (evs : list Event) : list Effect :=
  effects (run (resolveOptions (sampleOptions cap)) calm evs)
          (constructed (sampleOptions cap) []).

(** ** Notions for further properties *)

Definition tearsDown (ev : Event) : bool :=
  match ev with
  | EvDestroyed _ | EvDestroy => true
  | _ => false
  end.

(** What events leave in place between [s] and [s']: every
    ['connection:opened'] listener and every peer listener; with
    [identity], no [initialize] is parked and the client and the
    ['torrent'] listener are as they were; with [timers], every live
    interval timer is still live. *)
Definition keeps (identity timers : bool) (s s' : State) : Prop :=
  (identity = true ->
     initPending (runtime s') = false /\
     rondevu (fields s') = rondevu (fields s) /\
     torrentListener (host s') = torrentListener (host s)) /\
  incl (connectionListeners (host s)) (connectionListeners (host s')) /\
  incl (peerHandlers (host s)) (peerHandlers (host s')) /\
  (timers = true -> incl (intervals (host s)) (intervals (host s'))).

(** The advertisements the connect loop connects to: all but the
    manager's own. *)
Definition eligible (name : string) (offers : list RemoteOffer) : list RemoteOffer :=
  filter (fun ro => negb (String.eqb (ro_username ro) name)) offers.

(** The identities handed to [rondevu.peer] in a trace, in order. *)
Definition attempts (trace : list Effect) : list string :=
  flat_map (fun e => match e with CallPeer _ u => [u] | _ => [] end) trace.

(** The torrents an inbound connection is handed to in a trace. *)
Definition incoming (conn : ConnRef) (trace : list Effect) : list string :=
  flat_map (fun e => match e with
                     | TorrentAddIncoming t c => if Nat.eqb c conn then [t] else []
                     | _ => []
                     end) trace.

Definition freshTasks (s : State) : Prop :=
  Forall (fun kt => fst kt < nextTask (runtime s)) (tasks (runtime s)).

(** The promise awaited last settles. *)
Definition settleLatest (o : Options) (w : World) (r : Settled) : Act unit :=
  bind (gets (fun s => pred (nextTask (runtime s))))
       (fun k => step o w (EvSettle k r)).

(** How [rondevu.peer] can settle. *)
Definition attemptOutcome (r : Settled) : bool :=
  match r with
  | PeerReady _ | Rejected => true
  | _ => false
  end.

(** The calls of a discovery pass. *)
Definition discovers (e : Effect) : bool :=
  match e with
  | CallOffer _ _ _ | CallDiscover _ _ | CallPeer _ _ => true
  | _ => false
  end.

(** Every tracked peer carries the ['open'], ['close'] and ['error']
    listeners for its torrent. *)
Definition heard (s : State) : Prop :=
  forall infoHash p,
    In p (peersOf infoHash s) -> In (p, infoHash) (peerHandlers (host s)).

End Pooled.

(** * [SimplePeerWrapper] (pooled revision, lines 414-495)

    The wrapper handed to [torrent.addPeer]: an event emitter around a peer
    connection and its data channel.  The handlers it puts on the connection
    and on a channel run when the event loop delivers the matching [Event];
    [send] and [destroy] are its methods.  [emit('error', ..)] on an
    emitter without an ['error'] listener throws, as a [World] says. *)
Module Wrapper.

Definition ChanRef := nat.

(** [pc.iceConnectionState] *)
Inductive IceState :=
| IceNew | IceChecking | IceConnected | IceCompleted
| IceDisconnected | IceFailed | IceClosed.

(** [channel.readyState] *)
Inductive ReadyState := Connecting | ChannelOpen | Closing | Closed.

(** What the wrapper emits. *)
Inductive Emitted :=
| Connect
| Close
| Error (err : string)
| Data (d : string).

Inductive Effect :=
| Emit (e : Emitted)
| ChannelSend (c : ChanRef) (d : string)   (* channel.send(data) *)
| ChannelClose (c : ChanRef)               (* channel.close() *)
| PcClose.                                 (* pc.close() *)

Record World := {
  readyState : ChanRef -> ReadyState;
  errorListener : bool        (* an 'error' listener is on the wrapper *)
}.

Record State := {
  channel : option ChanRef;   (* this._channel *)
  connected : bool;
  destroyed : bool;
  wired : list ChanRef        (* channels that carry the wrapper's handlers *)
}.

Inductive Event :=
| IceChange (st : IceState)        (* pc.oniceconnectionstatechange *)
| DataChannel (c : ChanRef)        (* pc.ondatachannel *)
| ChanOpen (c : ChanRef)
| ChanClose (c : ChanRef)
| ChanError (c : ChanRef) (err : string)
| ChanMessage (c : ChanRef) (d : string)
| Send (d : string)                (* wrapper.send(data) *)
| Destroy (err : option string).   (* wrapper.destroy(err) *)

Definition Act := M State Effect.

Definition set_connected (v : bool) (s : State) : State :=
  {| channel := channel s; connected := v; destroyed := destroyed s;
     wired := wired s |}.

Definition set_destroyed (v : bool) (s : State) : State :=
  {| channel := channel s; connected := connected s; destroyed := v;
     wired := wired s |}.

Section Methods.
Variable world : World.
Local Open Scope act_scope.

(** [this.emit('error', err)]: [false] when it throws for want of a
    listener. *)
Definition emitError (err : string) : Act bool :=
  if errorListener world then emit (Emit (Error err));; ret true
  else ret false.

(** [setupDataChannel] (lines 450-469) *)
Definition setupDataChannel (c : ChanRef) : Act unit :=
  modify (fun s =>
    {| channel := Some c; connected := connected s; destroyed := destroyed s;
       wired := if existsb (Nat.eqb c) (wired s) then wired s else wired s ++ [c] |}).

(** The handler [setupPeerConnection] (lines 433-448) puts on
    [oniceconnectionstatechange]. *)
Definition onIceChange (st : IceState) : Act unit :=
  match st with
  | IceConnected | IceCompleted =>
      modify (set_connected true);; emit (Emit Connect)
  | IceDisconnected | IceFailed | IceClosed =>
      modify (set_connected false);; emit (Emit Close)
  | _ => ret tt
  end.

(** [send] (lines 471-475) *)
Definition send (d : string) : Act unit :=
  ch <- gets channel;;
  match ch with
  | Some c =>
      match readyState world c with
      | ChannelOpen => emit (ChannelSend c d)
      | _ => ret tt
      end
  | None => ret tt
  end.

(** [destroy] (lines 477-491); [false] when [emit('error', err)] threw.
    The two [close] calls sit in [try] blocks with empty handlers. *)
Definition destroy (err : option string) : Act bool :=
  d <- gets destroyed;;
  if d then ret true
  else
    modify (set_destroyed true);;
    modify (set_connected false);;
    ch <- gets channel;;
    match ch with
    | Some c => emit (ChannelClose c)
    | None => ret tt
    end;;
    emit PcClose;;
    match err with
    | Some e =>
        ok <- emitError e;;
        if ok then emit (Emit Close);; ret true else ret false
    | None => emit (Emit Close);; ret true
    end.

(** One turn: a handler of the connection or of a wired channel runs, or a
    method is called. *)
Definition step (ev : Event) : Act unit :=
  match ev with
  | IceChange st => onIceChange st
  | DataChannel c => setupDataChannel c
  | ChanOpen c =>
      w <- gets (fun s => existsb (Nat.eqb c) (wired s));;
      if w then modify (set_connected true);; emit (Emit Connect) else ret tt
  | ChanClose c =>
      w <- gets (fun s => existsb (Nat.eqb c) (wired s));;
      if w then emit (Emit Close) else ret tt
  | ChanError c err =>
      w <- gets (fun s => existsb (Nat.eqb c) (wired s));;
      if w then emitError err;; ret tt else ret tt
  | ChanMessage c d =>
      w <- gets (fun s => existsb (Nat.eqb c) (wired s));;
      if w then emit (Emit (Data d)) else ret tt
  | Send d => send d
  | Destroy err => destroy err;; ret tt
  end.

Fixpoint run (evs : list Event) : Act unit :=
  match evs with
  | [] => ret tt
  | ev :: evs' => step ev;; run evs'
  end.

End Methods.

(** The constructor (lines 422-431). *)
Definition construct (ch : option ChanRef) : State :=
  {| channel := ch; connected := false; destroyed := false;
     wired := match ch with Some c => [c] | None => [] end |}.

(** ** Notions for the properties *)

Definition isPcClose (e : Effect) : bool :=
  match e with PcClose => true | _ => false end.

Definition isChannelClose (e : Effect) : bool :=
  match e with ChannelClose _ => true | _ => false end.

Definition isDestroy (ev : Event) : bool :=
  match ev with Destroy _ => true | _ => false end.

End Wrapper.

(** ** The order of teardown as the specification words it

    "cancel timer, close peers, cancel offers": in the trace of a teardown
    no call of a later step comes before a call of an earlier one. *)
Fixpoint ascending (l : list nat) : bool :=
  match l with
  | a :: l' =>
      match l' with
      | b :: _ => Nat.leb a b && ascending l'
      | [] => true
      end
  | [] => true
  end.

Definition claimedTeardownOrder {E} (phase : E -> list nat) (trace : list E) : bool :=
  ascending (flat_map phase trace).

(** An action keeps a property of the state and only makes calls of a
    given kind. *)
Definition preserves {S E A} (I : S -> Prop) (ok : E -> Prop) (m : M S E A) : Prop :=
  forall s, I s -> I (exec m s) /\ Forall ok (effects m s).

(** The peer set a map holds for a torrent, empty when it holds none. *)
Definition peersAt (infoHash : string) (m : JsMap.t JsSet.t) : JsSet.t :=
  match JsMap.get infoHash m with
  | Some ps => ps
  | None => []
  end.

(** * Proofs *)

(** ** Facts about [JsMap] and [JsSet] *)
Section JsMapFacts.
Context {V : Type}.
Implicit Types (m : JsMap.t V) (k : string) (v : V).

Lemma get_set_same k v m : JsMap.get k (JsMap.set k v m) = Some v.
Proof.
  induction m as [|[k' v'] m IH]; simpl.
  - now rewrite String.eqb_refl.
  - destruct (String.eqb k k') eqn:E; simpl; rewrite ?String.eqb_refl, ?E; auto.
Qed.

Lemma get_set_other k k' v m : k <> k' -> JsMap.get k (JsMap.set k' v m) = JsMap.get k m.
Proof.
  intros N. induction m as [|[k2 v2] m IH]; simpl.
  - apply String.eqb_neq in N. now rewrite N.
  - destruct (String.eqb k' k2) eqn:E; simpl.
    + apply String.eqb_eq in E. subst k2.
      apply String.eqb_neq in N. now rewrite N.
    + now rewrite IH.
Qed.

Lemma get_delete_same k m : JsMap.get k (JsMap.delete k m) = None.
Proof.
  induction m as [|[k' v'] m IH]; simpl; auto.
  destruct (String.eqb k k') eqn:E; simpl; auto. now rewrite E.
Qed.

Lemma get_delete_other k k' m : k <> k' -> JsMap.get k (JsMap.delete k' m) = JsMap.get k m.
Proof.
  intros N. induction m as [|[k2 v2] m IH]; simpl; auto.
  destruct (String.eqb k' k2) eqn:E; simpl.
  - apply String.eqb_eq in E. subst k2. apply String.eqb_neq in N. now rewrite N.
  - now rewrite IH.
Qed.

Lemma delete_absent k m : JsMap.get k m = None -> JsMap.delete k m = m.
Proof.
  induction m as [|[k' v'] m IH]; simpl; auto.
  destruct (String.eqb k k') eqn:E; simpl; [discriminate|].
  intros H. now rewrite (IH H).
Qed.

End JsMapFacts.

(** ** Rules for [preserves] *)
Section PreservesRules.
Context {S E : Type} (I : S -> Prop) (ok : E -> Prop).

Lemma preserves_ret {A} (a : A) : preserves I ok (@ret S E A a).
Proof. intros s H. split; [exact H | constructor]. Qed.

Lemma preserves_bind {A B} (m : M S E A) (f : A -> M S E B) :
  preserves I ok m -> (forall a, preserves I ok (f a)) ->
  preserves I ok (bind m f).
Proof.
  intros Hm Hf s H. specialize (Hm s H). unfold exec, effects, bind in *.
  destruct (m s) as [[a s1] e1]. simpl in Hm. destruct Hm as [H1 F1].
  specialize (Hf a s1 H1). unfold exec, effects in Hf.
  destruct (f a s1) as [[b s2] e2]. simpl in *. destruct Hf as [H2 F2].
  split; [exact H2 | apply Forall_app; now split].
Qed.

Lemma preserves_emit (e : E) : ok e -> preserves I ok (emit e).
Proof. intros He s H. split; [exact H | repeat constructor; exact He]. Qed.

Lemma preserves_gets {A} (f : S -> A) : preserves I ok (gets f).
Proof. intros s H. split; [exact H | constructor]. Qed.

Lemma preserves_modify (f : S -> S) :
  (forall s, I s -> I (f s)) -> preserves I ok (modify f).
Proof. intros Hf s H. split; [apply Hf, H | constructor]. Qed.

(** Reading the state first: what is read may be used with the property. *)
Lemma preserves_gets_bind {A B} (f : S -> A) (k : A -> M S E B) :
  (forall s, I s -> I (exec (k (f s)) s) /\ Forall ok (effects (k (f s)) s)) ->
  preserves I ok (bind (gets f) k).
Proof.
  intros Hk s H. specialize (Hk s H). unfold exec, effects, bind, gets in *.
  destruct (k (f s) s) as [[b s2] e2]. exact Hk.
Qed.

Lemma preserves_forEach {A} (xs : list A) (f : A -> M S E unit) :
  (forall x, In x xs -> preserves I ok (f x)) -> preserves I ok (forEach xs f).
Proof.
  induction xs as [|x xs IH]; intros Hf; simpl.
  - apply preserves_ret.
  - apply preserves_bind; [apply Hf; now left|].
    intros _. apply IH. intros y Hy. apply Hf. now right.
Qed.

Lemma preserves_forEachOk {A} (xs : list A) (f : A -> M S E bool) :
  (forall x, In x xs -> preserves I ok (f x)) -> preserves I ok (forEachOk xs f).
Proof.
  induction xs as [|x xs IH]; intros Hf; simpl.
  - apply preserves_ret.
  - apply preserves_bind; [apply Hf; now left|].
    intros [|]; [|apply preserves_ret].
    apply IH. intros y Hy. apply Hf. now right.
Qed.
End PreservesRules.

Lemma ascending_repeat_app a n l :
  Forall (fun x => a <= x) l -> ascending l = true -> ascending (repeat a n ++ l) = true.
Proof.
  intros F A. induction n as [|n IH]; simpl; [exact A|].
  destruct (repeat a n ++ l) as [|b l'] eqn:E; [reflexivity|].
  rewrite IH, andb_true_r. apply Nat.leb_le.
  destruct n; simpl in E.
  - subst l. now inversion F.
  - inversion E. lia.
Qed.

(** ** Teardown in the bloom-filter revision *)
Section BloomCleanup.
Import Bloom.
Variable w : World.

Lemma forEach_closePeer ps s :
  forEach ps (closePeer w) s = (tt, s, flat_map (closeTrace w) ps).
Proof.
  revert s. induction ps as [|p ps IH]; intros s; [reflexivity|].
  cbn [forEach flat_map]. unfold bind at 1. unfold closePeer at 1, closeTrace at 1.
  unfold log, bind, emit, ret.
  destruct (closeThrows w p); cbv beta iota; rewrite IH; reflexivity.
Qed.

Lemma forEach_deleteOffer ids s :
  forEach ids deleteOffer s = (tt, parkAll ids s, map OffersDelete ids).
Proof.
  revert s. induction ids as [|i ids IH]; intros s; [reflexivity|].
  cbn [forEach map fold_left]. unfold bind at 1. unfold deleteOffer at 1.
  unfold park, bind, emit, gets, modify. cbv beta iota.
  rewrite IH. reflexivity.
Qed.

Lemma parkAll_fields ids s : fields (parkAll ids s) = fields s.
Proof. revert s. induction ids; intros; simpl; auto. rewrite IHids. reflexivity. Qed.

Lemma parkAll_host ids s : host (parkAll ids s) = host s.
Proof. revert s. induction ids; intros; simpl; auto. rewrite IHids. reflexivity. Qed.

Lemma cleanup_effects T s : effects (cleanup w T) s = cleanupTrace w T s.
Proof.
  unfold effects, cleanup, cleanupTrace, timerOf, peersOf, offersOf.
  unfold bind, gets, modify, emit, log, ret. simpl.
  destruct (JsMap.get T (refreshTimers (fields s))) as [tm|]; simpl;
  destruct (JsMap.get T (torrentPeers (fields s))) as [ps|]; simpl;
  rewrite ?forEach_closePeer; simpl;
  destruct (JsMap.get T (torrentOffers (fields s))) as [ids|]; simpl;
  rewrite ?forEach_deleteOffer; simpl; rewrite ?app_nil_r; reflexivity.
Qed.

Lemma cleanup_fields T s : fields (exec (cleanup w T) s) = forget T (fields s).
Proof.
  unfold exec, cleanup, forget.
  unfold bind, gets, modify, emit, log, ret. simpl.
  destruct (JsMap.get T (refreshTimers (fields s))) as [tm|] eqn:E1; simpl;
  destruct (JsMap.get T (torrentPeers (fields s))) as [ps|] eqn:E2; simpl;
  rewrite ?forEach_closePeer; simpl;
  destruct (JsMap.get T (torrentOffers (fields s))) as [ids|] eqn:E3; simpl;
  rewrite ?forEach_deleteOffer; simpl; rewrite ?parkAll_fields; simpl;
  rewrite ?(delete_absent _ _ E1), ?(delete_absent _ _ E2), ?(delete_absent _ _ E3);
  reflexivity.
Qed.




Lemma phases_closeTrace ps :
  flat_map phase (flat_map (closeTrace w) ps) = repeat 1 (length ps).
Proof.
  induction ps as [|p ps IH]; simpl; auto.
  destruct (closeThrows w p); simpl; now rewrite IH.
Qed.

Lemma phases_offersDelete ids :
  flat_map phase (map OffersDelete ids) = repeat 2 (length ids).
Proof. induction ids; simpl; auto. now rewrite IHids. Qed.

Lemma cleanup_order T s :
  claimedTeardownOrder phase (effects (cleanup w T) s) = true.
Proof.
  rewrite cleanup_effects. unfold claimedTeardownOrder, cleanupTrace.
  cbn [flat_map phase app]. rewrite !flat_map_app, phases_closeTrace, phases_offersDelete.
  assert (A2 : forall n, ascending (repeat 2 n) = true).
  { intros n. rewrite <- (app_nil_r (repeat 2 n)). now apply ascending_repeat_app. }
  assert (A1 : ascending (repeat 1 (length (peersOf T s)) ++ repeat 2 (length (offersOf T s))) = true).
  { apply ascending_repeat_app; [|apply A2].
    apply Forall_forall. intros x Hx. apply repeat_spec in Hx. lia. }
  unfold timerOf. destruct (JsMap.get T (refreshTimers (fields s))); simpl; [|exact A1].
  change (ascending (repeat 0 1 ++ (repeat 1 (length (peersOf T s)) ++ repeat 2 (length (offersOf T s)))) = true).
  apply ascending_repeat_app; [|exact A1].
  apply Forall_forall. intros x Hx. lia.
Qed.
End BloomCleanup.

(** ** Teardown in the pooled revision; the teardown theorems *)

Section PooledCleanup.
Import Pooled.
Variable w : World.

Lemma pooled_forEach_closePeer ps s :
  forEach ps (closePeer w) s = (tt, s, flat_map (closeTrace w) ps).
Proof.
  revert s. induction ps as [|p ps IH]; intros s; [reflexivity|].
  cbn [forEach flat_map]. unfold bind at 1. unfold closePeer at 1, closeTrace at 1.
  unfold log. unfold bind, emit, ret.
  destruct (closeThrows w p); cbv beta iota; rewrite IH; reflexivity.
Qed.

Lemma pooled_cleanup_returns T s :
  (forall h, In h (handleOf T s) -> cancelThrows w h = false) ->
  cleanup w T s = (true, exec (cleanup w T) s, cleanupTrace w T s)
  /\ fields (exec (cleanup w T) s) = forget T (fields s).
Proof.
  unfold handleOf. intros H.
  unfold exec, cleanup, cleanup_peers, cleanupTrace, forget, timerOf, handleOf, peersOf.
  unfold log. unfold bind, gets, modify, emit, ret. cbv beta iota.
  destruct (JsMap.get T (refreshTimers (fields s))) as [tm|] eqn:E1; simpl;
  destruct (JsMap.get T (torrentOfferHandles (fields s))) as [h|] eqn:E2; simpl;
  rewrite ?(H _ (or_introl eq_refl)); simpl;
  destruct (JsMap.get T (torrentPeers (fields s))) as [ps|] eqn:E3; simpl;
  rewrite ?pooled_forEach_closePeer; simpl; rewrite ?app_nil_r;
  rewrite ?(delete_absent _ _ E1), ?(delete_absent _ _ E2), ?(delete_absent _ _ E3);
  split; reflexivity.
Qed.




End PooledCleanup.

(** C4 (amended).  In the bloom-filter revision teardown calls, in this
    order: [clearInterval] on the torrent's timer, [close] on every tracked
    peer, [offers.delete] on every tracked offer; a [close] that throws is
    logged and the later calls are still made; afterwards no private map
    holds an entry for the torrent.  In the pooled revision the order is:
    [clearInterval], [cancel] on the offer handle, [close] on every tracked
    peer; this is stated for a [cancel] that returns. *)
Theorem teardown_order_by_revision :
  (forall w infoHash s,
     effects (Bloom.cleanup w infoHash) s = Bloom.cleanupTrace w infoHash s
     /\ claimedTeardownOrder Bloom.phase (effects (Bloom.cleanup w infoHash) s) = true
     /\ Bloom.fields (exec (Bloom.cleanup w infoHash) s)
        = Bloom.forget infoHash (Bloom.fields s))
  /\
  (forall w infoHash s,
     (forall h, In h (Pooled.handleOf infoHash s) -> Pooled.cancelThrows w h = false) ->
     Pooled.cleanup w infoHash s
     = (true, exec (Pooled.cleanup w infoHash) s, Pooled.cleanupTrace w infoHash s)
     /\ Pooled.fields (exec (Pooled.cleanup w infoHash) s)
        = Pooled.forget infoHash (Pooled.fields s)).
Proof.
  split.
  - intros w T s. split; [apply cleanup_effects|].
    split; [apply cleanup_order | apply cleanup_fields].
  - intros w T s H. now apply pooled_cleanup_returns.
Qed.


(** ** A pass that starts at the cap; advertisements passed over *)

Lemma bloom_pass_at_cap o T aw s :
  (Bloom.maxPeersPerTorrent o - Bloom.peerCount T s <= 0)%Z ->
  Bloom.discoverPeersForTorrent o T aw s
  = bind (Bloom.log (Bloom.LMaxPeersReached T)) (fun _ => Bloom.passReturns o aw T) s.
Proof.
  intros H. unfold Bloom.discoverPeersForTorrent.
  unfold bind at 1. unfold gets at 1.
  assert (L : (Bloom.maxPeersPerTorrent o <=? Bloom.peerCount T s)%Z = true)
    by (apply Z.leb_le; lia).
  rewrite L. destruct (bind _ _ s) as [[u s'] e]. now rewrite app_nil_l.
Qed.

Lemma pooled_pass_at_cap o T aw s name :
  Pooled.rondevu (Pooled.fields s) = Some name ->
  (Pooled.maxPeersPerTorrent o - Pooled.peerCount T s <= 0)%Z ->
  Pooled.discoverPeersForTorrent o T aw s
  = bind (Pooled.log (Pooled.LMaxPeersReached T)) (fun _ => Pooled.passReturns o aw T) s.
Proof.
  intros R H. unfold Pooled.discoverPeersForTorrent.
  unfold bind at 1. unfold gets at 1. rewrite R.
  unfold bind at 1. unfold gets at 1.
  assert (L : (Pooled.maxPeersPerTorrent o <=? Pooled.peerCount T s)%Z = true)
    by (apply Z.leb_le; lia).
  rewrite L. destruct (bind _ _ s) as [[u s'] e]. now rewrite !app_nil_l.
Qed.

(** C7.  A discovery pass that starts with
    [maxPeersPerTorrent - currentPeerCount <= 0] logs "Max peers reached"
    and returns to whoever awaits it; started by the refresh timer or by
    [discoverPeers] it makes no other call, parks nothing and leaves the
    state, hence what [getStats] reports, as it was.  (Pooled revision:
    for a manager whose [rondevu] client is set; before that a pass
    returns at once without the log line.) *)
Theorem pass_at_cap_returns_early :
  (forall o w infoHash s,
     (Bloom.maxPeersPerTorrent o - Bloom.peerCount infoHash s <= 0)%Z ->
     (forall aw,
        Bloom.discoverPeersForTorrent o infoHash aw s
        = bind (Bloom.log (Bloom.LMaxPeersReached infoHash))
               (fun _ => Bloom.passReturns o aw infoHash) s)
     /\ (forall timer live,
           find (fun e => Nat.eqb (fst e) timer) (Bloom.intervals (Bloom.host s))
             = Some (live, infoHash) ->
           Bloom.step o w (Bloom.EvTick timer) s
           = (tt, s, [Bloom.Log (Bloom.LMaxPeersReached infoHash)]))
     /\ (existsb (String.eqb infoHash) (Bloom.clientTorrents (Bloom.host s)) = true ->
         Bloom.step o w (Bloom.EvDiscoverPeers infoHash) s
         = (tt, s, [Bloom.Log (Bloom.LMaxPeersReached infoHash)]))
     /\ Bloom.getStats o (exec (Bloom.discoverPeersForTorrent o infoHash Bloom.NoAwaiter) s)
        = Bloom.getStats o s)
  /\
  (forall o w infoHash s name,
     Pooled.rondevu (Pooled.fields s) = Some name ->
     (Pooled.maxPeersPerTorrent o - Pooled.peerCount infoHash s <= 0)%Z ->
     (forall aw,
        Pooled.discoverPeersForTorrent o infoHash aw s
        = bind (Pooled.log (Pooled.LMaxPeersReached infoHash))
               (fun _ => Pooled.passReturns o aw infoHash) s)
     /\ (forall timer live,
           find (fun e => Nat.eqb (fst e) timer) (Pooled.intervals (Pooled.host s))
             = Some (live, infoHash) ->
           Pooled.step o w (Pooled.EvTick timer) s
           = (tt, s, [Pooled.Log (Pooled.LMaxPeersReached infoHash)]))
     /\ (existsb (String.eqb infoHash) (Pooled.clientTorrents (Pooled.host s)) = true ->
         Pooled.step o w (Pooled.EvDiscoverPeers infoHash) s
         = (tt, s, [Pooled.Log (Pooled.LMaxPeersReached infoHash)]))
     /\ Pooled.getStats o (exec (Pooled.discoverPeersForTorrent o infoHash Pooled.NoAwaiter) s)
        = Pooled.getStats o s).
Proof.
  split.
  - intros o w T s H. repeat split.
    + intros aw. now apply bloom_pass_at_cap.
    + intros timer live F. unfold Bloom.step.
      unfold bind at 1. unfold gets at 1. rewrite F.
      now rewrite (bloom_pass_at_cap o T Bloom.NoAwaiter s H).
    + intros F. unfold Bloom.step, Bloom.discoverPeers.
      unfold bind at 1. unfold gets at 1. rewrite F.
      now rewrite (bloom_pass_at_cap o T Bloom.NoAwaiter s H).
    + unfold exec. now rewrite (bloom_pass_at_cap o T Bloom.NoAwaiter s H).
  - intros o w T s name R H. repeat split.
    + intros aw. now apply (pooled_pass_at_cap o T aw s name).
    + intros timer live F. unfold Pooled.step.
      unfold bind at 1. unfold gets at 1. rewrite F.
      now rewrite (pooled_pass_at_cap o T Pooled.NoAwaiter s name R H).
    + intros F. unfold Pooled.step, Pooled.discoverPeers.
      unfold bind at 1. unfold gets at 1. rewrite F.
      now rewrite (pooled_pass_at_cap o T Pooled.NoAwaiter s name R H).
    + unfold exec. now rewrite (pooled_pass_at_cap o T Pooled.NoAwaiter s name R H).
Qed.

Lemma bloom_loop_skips_answered o T bf ro rest aw s :
  truthy (Bloom.ro_answererPeerId ro) = true ->
  Bloom.connectLoop o T bf (ro :: rest) aw s = Bloom.connectLoop o T bf rest aw s.
Proof.
  intros H. cbn [Bloom.connectLoop]. unfold bind at 1. unfold gets at 1.
  rewrite H. destruct (Bloom.isOwn ro s);
    destruct (Bloom.connectLoop o T bf rest aw s) as [[u s'] e]; reflexivity.
Qed.

(** C10.  In the bloom-filter revision the connect loop passes over an
    advertisement whose [answererPeerId] is set: the loop behaves exactly
    as on the remaining advertisements, so no peer is created, [answer]
    is not called and nothing is added to the bloom filter for it; when
    all advertisements are such, the state is left unchanged. *)
Theorem bloom_skips_answered_offer :
  forall o infoHash bloomFilter remoteOffer rest aw s,
    truthy (Bloom.ro_answererPeerId remoteOffer) = true ->
    Bloom.connectLoop o infoHash bloomFilter (remoteOffer :: rest) aw s
    = Bloom.connectLoop o infoHash bloomFilter rest aw s
    /\ (forallb (fun ro => truthy (Bloom.ro_answererPeerId ro)) rest = true ->
        Bloom.connectLoop o infoHash bloomFilter (remoteOffer :: rest) Bloom.NoAwaiter s
        = (tt, s, [])).
Proof.
  intros o T bf ro rest aw s H. split; [now apply bloom_loop_skips_answered|].
  intros A. rewrite bloom_loop_skips_answered by exact H.
  induction rest as [|r rest IH]; [reflexivity|].
  simpl in A. apply andb_true_iff in A. destruct A as [A1 A2].
  rewrite bloom_loop_skips_answered by exact A1. now apply IH.
Qed.

(** ** The pooled revision: what touches the peer sets *)

Section OnEntryFacts.
Context {V : Type}.
Implicit Types (m : JsMap.t V) (k : string).

Lemma get_onEntry_same k g m :
  JsMap.get k (JsMap.onEntry k g m) = option_map g (JsMap.get k m).
Proof.
  unfold JsMap.onEntry. destruct (JsMap.get k m) eqn:E; simpl.
  - apply get_set_same.
  - exact E.
Qed.

Lemma get_onEntry_other k k' g m :
  k <> k' -> JsMap.get k (JsMap.onEntry k' g m) = JsMap.get k m.
Proof.
  intros N. unfold JsMap.onEntry. destruct (JsMap.get k' m); auto.
  now apply get_set_other.
Qed.
End OnEntryFacts.

Lemma JsSet_add_In x y s : In x s -> In x (JsSet.add y s).
Proof.
  unfold JsSet.add. destruct (JsSet.mem y s); auto. intros. apply in_or_app. now left.
Qed.

Lemma JsSet_add_self x s : In x (JsSet.add x s).
Proof.
  unfold JsSet.add, JsSet.mem. destruct (existsb (Nat.eqb x) s) eqn:E.
  - apply existsb_exists in E. destruct E as [y [Hy E]]. apply Nat.eqb_eq in E. now subst.
  - apply in_or_app. right. now left.
Qed.

Lemma JsSet_delete_In x y s : x <> y -> In x s -> In x (JsSet.delete y s).
Proof.
  intros N H. unfold JsSet.delete. apply filter_In. split; auto.
  apply negb_true_iff, Nat.eqb_neq. congruence.
Qed.

Lemma JsSet_delete_self x s : ~ In x (JsSet.delete x s).
Proof.
  unfold JsSet.delete. intros H. apply filter_In in H. destruct H as [_ H].
  now rewrite Nat.eqb_refl in H.
Qed.

Lemma JsSet_delete_subset x y s : In x (JsSet.delete y s) -> In x s.
Proof. unfold JsSet.delete. intros H. now apply filter_In in H. Qed.

Section PooledPeers.
Import Pooled.
Variable o : Options.
Variable w : World.
Variable P : JsMap.t JsSet.t -> Prop.

Lemma any_calls (es : list Effect) : Forall anyCall es.
Proof. apply Forall_forall. intros; exact I. Qed.

Lemma keeps_peers_same {A} (m : Act A) :
  (forall s, torrentPeers (fields (exec m s)) = torrentPeers (fields s)) ->
  preserves (onPeers P) anyCall m.
Proof.
  intros H s Hs. split; [|apply any_calls]. unfold onPeers. now rewrite H.
Qed.

Lemma park_peers t : preserves (onPeers P) anyCall (park t).
Proof. apply keeps_peers_same. reflexivity. Qed.

Lemma added_resume_peers T : preserves (onPeers P) anyCall (handleTorrentAdded_resume o T).
Proof. apply keeps_peers_same. reflexivity. Qed.

Lemma passReturns_peers aw T : preserves (onPeers P) anyCall (passReturns o aw T).
Proof. destruct aw; [apply added_resume_peers | apply preserves_ret]. Qed.

Lemma log_peers m : preserves (onPeers P) anyCall (log m).
Proof. now apply preserves_emit. Qed.

Lemma connectLoop_peers T offers aw : preserves (onPeers P) anyCall (connectLoop o T offers aw).
Proof.
  induction offers as [|ro rest IH]; cbn [connectLoop].
  - apply passReturns_peers.
  - apply preserves_bind; [apply preserves_gets|]. intros [name|].
    + destruct (String.eqb (ro_username ro) name); [exact IH|].
      repeat (apply preserves_bind; [|intros _]);
        try apply log_peers; try apply park_peers; now apply preserves_emit.
    + apply preserves_bind; [apply log_peers | intros _; apply passReturns_peers].
Qed.

Lemma discover_peers T cur aw : preserves (onPeers P) anyCall (discover o T cur aw).
Proof.
  unfold discover.
  repeat (apply preserves_bind; [|intros _]);
    try apply log_peers; try apply park_peers; now apply preserves_emit.
Qed.

Lemma pass_peers T aw : preserves (onPeers P) anyCall (discoverPeersForTorrent o T aw).
Proof.
  unfold discoverPeersForTorrent.
  apply preserves_bind; [apply preserves_gets|]. intros [name|]; [|apply passReturns_peers].
  apply preserves_bind; [apply preserves_gets|]. intros cur.
  destruct (maxPeersPerTorrent o <=? cur)%Z.
  - apply preserves_bind; [apply log_peers | intros _; apply passReturns_peers].
  - apply preserves_bind; [apply preserves_gets|]. intros [|]; [apply discover_peers|].
    repeat (apply preserves_bind; [|intros _]);
      try apply log_peers; try apply park_peers; now apply preserves_emit.
Qed.

Lemma open_peers p T : preserves (onPeers P) anyCall (onPeerEvent w p T Open).
Proof.
  cbn [onPeerEvent]. apply preserves_bind; [apply log_peers | intros _].
  destruct (hasPeerConnection w p); [|apply preserves_ret].
  apply preserves_bind; [now apply preserves_emit | intros _].
  destruct (addPeerThrows w p); [apply log_peers | apply preserves_ret].
Qed.

Lemma connection_opened_peers c T : preserves (onPeers P) anyCall (onConnectionOpened c T).
Proof.
  unfold onConnectionOpened. apply preserves_bind; [apply log_peers | intros _].
  apply preserves_modify. intros s H. exact H.
Qed.

Lemma connection_connected_peers c T : preserves (onPeers P) anyCall (onConnectionConnected w c T).
Proof.
  unfold onConnectionConnected. destruct (connHasPeerConnection w c); [|apply preserves_ret].
  apply preserves_bind; [now apply preserves_emit | intros _].
  destruct (addIncomingThrows w c); apply log_peers.
Qed.
End PooledPeers.

(** ** Peers from promise to close *)

Lemma exec_bind {S E A B} (m : M S E A) (f : A -> M S E B) s :
  exec (bind m f) s = exec (f (fst (fst (m s)))) (exec m s).
Proof.
  unfold exec, bind. destruct (m s) as [[a s1] e1]. simpl.
  destruct (f a s1) as [[b s2] e2]. reflexivity.
Qed.

Lemma effects_bind {S E A B} (m : M S E A) (f : A -> M S E B) s :
  effects (bind m f) s = effects m s ++ effects (f (fst (fst (m s)))) (exec m s).
Proof.
  unfold effects, exec, bind. destruct (m s) as [[a s1] e1]. simpl.
  destruct (f a s1) as [[b s2] e2]. reflexivity.
Qed.

Lemma get_In {V} k (v : V) m : JsMap.get k m = Some v -> In (k, v) m.
Proof.
  induction m as [|[k' v'] m IH]; simpl; [discriminate|].
  destruct (String.eqb k k') eqn:E.
  - apply String.eqb_eq in E. subst. intros [= ->]. now left.
  - intros H. right. now apply IH.
Qed.

Section PooledPeerLifecycle.
Import Pooled.
Variable o : Options.
Variable w : World.

Lemma hasPeer_add p T q T' m : hasPeer p T m -> hasPeer p T (JsMap.onEntry T' (JsSet.add q) m).
Proof.
  unfold hasPeer. intros H. destruct (String.eqb T T') eqn:E.
  - apply String.eqb_eq in E. subst T'. rewrite get_onEntry_same.
    destruct (JsMap.get T m); simpl in *; [now apply JsSet_add_In | exact H].
  - apply String.eqb_neq in E. now rewrite get_onEntry_other.
Qed.

Lemma hasPeer_delete p T q T' m :
  p <> q -> hasPeer p T m -> hasPeer p T (JsMap.onEntry T' (JsSet.delete q) m).
Proof.
  unfold hasPeer. intros N H. destruct (String.eqb T T') eqn:E.
  - apply String.eqb_eq in E. subst T'. rewrite get_onEntry_same.
    destruct (JsMap.get T m); simpl in *; [now apply JsSet_delete_In | exact H].
  - apply String.eqb_neq in E. now rewrite get_onEntry_other.
Qed.

Lemma hasPeer_set_other p T T' v m :
  T <> T' -> hasPeer p T m -> hasPeer p T (JsMap.set T' v m).
Proof. unfold hasPeer. intros N H. now rewrite get_set_other. Qed.

Lemma hasPeer_delete_other p T T' m :
  T <> T' -> hasPeer p T m -> hasPeer p T (JsMap.delete T' m).
Proof. unfold hasPeer. intros N H. now rewrite get_delete_other. Qed.

Lemma lacksPeer_delete p T q T' m :
  ~ hasPeer p T m -> ~ hasPeer p T (JsMap.onEntry T' (JsSet.delete q) m).
Proof.
  unfold hasPeer. intros H. destruct (String.eqb T T') eqn:E.
  - apply String.eqb_eq in E. subst T'. rewrite get_onEntry_same.
    destruct (JsMap.get T m); simpl in *; [|exact H].
    intros C. apply H. eapply JsSet_delete_subset, C.
  - apply String.eqb_neq in E. now rewrite get_onEntry_other.
Qed.

Lemma lacksPeer_delete_self p T m :
  ~ hasPeer p T (JsMap.onEntry T (JsSet.delete p) m).
Proof.
  unfold hasPeer. rewrite get_onEntry_same.
  destruct (JsMap.get T m); simpl; [apply JsSet_delete_self | tauto].
Qed.

Lemma peer_ready_tracked T ro rest aw p s ps :
  JsMap.get T (torrentPeers (fields s)) = Some ps ->
  exists k, resume o (AwaitPeer T ro rest aw) (PeerReady p) = Some k
    /\ JsMap.get T (torrentPeers (fields (exec k s))) = Some (JsSet.add p ps).
Proof.
  intros G. eexists. split; [reflexivity|].
  rewrite !exec_bind.
  match goal with |- context [exec (connectLoop o T rest aw) ?s2] =>
    destruct (connectLoop_peers o (eq (torrentPeers (fields s2))) T rest aw s2 eq_refl) as [K _]
  end.
  unfold Pooled.onPeers in K. rewrite <- K. unfold exec, modify. simpl.
  rewrite get_onEntry_same, G. reflexivity.
Qed.

Lemma close_keeps_absent p T T' e s :
  e = Close \/ e = Error ->
  ~ In p (peersOf T s) -> ~ In p (peersOf T (exec (onPeerEvent w p T' e) s)).
Proof.
  intros [->| ->] H; cbn [onPeerEvent]; rewrite exec_bind; unfold exec, modify, log, emit; simpl;
    apply (lacksPeer_delete p T p T' _ H).
Qed.

Lemma close_removes_here p T e s :
  e = Close \/ e = Error ->
  ~ In p (peersOf T (exec (onPeerEvent w p T e) s)).
Proof.
  intros [->| ->]; cbn [onPeerEvent]; rewrite exec_bind; unfold exec, modify, log, emit; simpl;
    apply (lacksPeer_delete_self p T).
Qed.

Lemma close_removes p T e hs :
  e = Close \/ e = Error ->
  In (p, T) hs ->
  forall s, ~ In p (peersOf T (exec (forEach hs (fun h => onPeerEvent w p (snd h) e)) s)).
Proof.
  intros He. induction hs as [|h hs IH]; intros Hin s; [destruct Hin|].
  cbn [forEach]. rewrite exec_bind. destruct Hin as [->|Hin].
  - simpl snd.
    assert (K : preserves (fun s => ~ In p (peersOf T s)) (anyCall)
                  (forEach hs (fun h => onPeerEvent w p (snd h) e))).
    { apply preserves_forEach. intros x _ s0 H0. split; [|apply any_calls].
      now apply close_keeps_absent. }
    apply K. now apply close_removes_here.
  - now apply IH.
Qed.
End PooledPeerLifecycle.

Section PooledPeerEvents.
Import Pooled.
Variable o : Options.
Variable w : World.

Lemma resume_keeps_peer p T t r k :
  resume o t r = Some k -> preserves (onPeers (hasPeer p T)) anyCall k.
Proof.
  destruct t as [T' cur aw|T' aw|T' ro rest aw]; destruct r; try discriminate;
    intros [= <-].
  - apply preserves_bind; [apply log_peers | intros _; apply passReturns_peers].
  - apply preserves_bind; [apply preserves_modify; intros s H; exact H | intros _].
    apply preserves_bind; [apply preserves_modify; intros s H; exact H | intros _].
    apply discover_peers.
  - apply preserves_bind; [apply log_peers | intros _; apply passReturns_peers].
  - apply preserves_bind; [apply log_peers | intros _; apply connectLoop_peers].
  - apply preserves_bind; [apply log_peers | intros _; apply connectLoop_peers].
  - apply preserves_bind; [apply preserves_modify | intros _].
    { intros s H. apply (hasPeer_add p T _ T' _ H). }
    apply preserves_bind; [apply preserves_modify; intros s H; exact H | intros _].
    apply connectLoop_peers.
Qed.

Lemma peer_event_keeps_peer p T q T' e :
  closesPeer p (EvPeer q e) = false ->
  preserves (onPeers (hasPeer p T)) anyCall (onPeerEvent w q T' e).
Proof.
  intros C. destruct e; [apply open_peers| |]; simpl in C;
    apply Nat.eqb_neq in C;
    (apply preserves_bind; [apply log_peers | intros _]);
    apply preserves_modify; intros s H; apply (hasPeer_delete p T q T' _ C H).
Qed.

Lemma added_keeps_peer p T T' :
  T <> T' -> preserves (onPeers (hasPeer p T)) anyCall (handleTorrentAdded o T').
Proof.
  intros N. unfold handleTorrentAdded.
  apply preserves_bind; [apply preserves_gets|]. intros [name|]; [|apply log_peers].
  apply preserves_bind; [apply log_peers | intros _].
  apply preserves_bind; [apply preserves_modify | intros _; apply pass_peers].
  intros s H. now apply hasPeer_set_other.
Qed.

Lemma cleanup_peers_keeps_peer p T T' :
  T <> T' -> preserves (onPeers (hasPeer p T)) anyCall (cleanup_peers w T').
Proof.
  intros N. unfold cleanup_peers.
  apply preserves_bind; [apply preserves_gets|]. intros peers.
  apply preserves_bind; [|intros _].
  - destruct peers as [ps|]; [|apply preserves_ret].
    apply preserves_bind; [|intros _].
    + apply preserves_forEach. intros q _. unfold closePeer.
      apply preserves_bind; [now apply preserves_emit | intros _].
      destruct (closeThrows w q); [apply log_peers | apply preserves_ret].
    + apply preserves_modify. intros s H. now apply hasPeer_delete_other.
  - apply preserves_bind; [apply preserves_modify; intros s H; exact H | intros _].
    apply preserves_ret.
Qed.

Lemma cleanup_keeps_peer p T T' :
  T <> T' -> preserves (onPeers (hasPeer p T)) anyCall (cleanup w T').
Proof.
  intros N. unfold cleanup.
  apply preserves_bind; [apply log_peers | intros _].
  apply preserves_bind; [apply preserves_gets|]. intros timer.
  apply preserves_bind; [|intros _].
  - destruct timer as [tm|]; [|apply preserves_ret].
    apply preserves_bind; [now apply preserves_emit | intros _].
    apply preserves_bind; apply preserves_modify || intros _;
      try (intros s H; exact H).
    apply preserves_modify. intros s H. exact H.
  - apply preserves_bind; [apply preserves_gets|]. intros [h|];
      [|now apply cleanup_peers_keeps_peer].
    apply preserves_bind; [now apply preserves_emit | intros _].
    destruct (cancelThrows w h); [apply preserves_ret|].
    apply preserves_bind; [apply preserves_modify; intros s H; exact H | intros _].
    now apply cleanup_peers_keeps_peer.
Qed.

Lemma step_keeps_peer p T ev :
  lifecycle T ev = false -> closesPeer p ev = false ->
  preserves (onPeers (hasPeer p T)) anyCall (step o w ev).
Proof.
  intros L C. destruct ev as [r|t|t|t|tm|k r|q e|c|c|t|]; try discriminate L; cbn [step].
  - apply preserves_modify. intros s H. exact H.
  - simpl in L. apply String.eqb_neq in L.
    apply preserves_bind; [apply preserves_gets|]. intros [|];
      [now apply added_keeps_peer | apply preserves_ret].
  - simpl in L. apply String.eqb_neq in L.
    apply preserves_gets_bind. intros s H.
    match goal with |- onPeers _ (exec ?m s) /\ _ =>
      assert (K : preserves (onPeers (hasPeer p T)) anyCall m) end.
    { apply preserves_bind; [apply preserves_modify; intros s' H'; exact H' | intros _].
      apply preserves_bind; [apply preserves_modify; intros s' H'; exact H' | intros _].
      apply preserves_bind; [|intros _; apply preserves_ret].
      apply preserves_forEachOk. intros T' Hin.
      apply filter_In in Hin. destruct Hin as [_ E].
      apply String.eqb_eq in E. subst T'. now apply cleanup_keeps_peer. }
    apply K, H.
  - apply preserves_bind; [apply preserves_gets|]. intros [[tm' T']|];
      [apply pass_peers | apply preserves_ret].
  - apply preserves_bind; [apply preserves_gets|]. intros [t|]; [|apply preserves_ret].
    destruct (resume o t r) as [go|] eqn:R; [|apply preserves_ret].
    apply preserves_bind; [apply preserves_modify; intros s H; exact H | intros _].
    eapply resume_keeps_peer, R.
  - apply preserves_bind; [apply preserves_gets|]. intros hs.
    apply preserves_forEach. intros h _. now apply peer_event_keeps_peer.
  - apply preserves_bind; [apply preserves_gets|]. intros ls.
    apply preserves_forEach. intros h _. apply connection_opened_peers.
  - apply preserves_bind; [apply preserves_gets|]. intros hs.
    apply preserves_forEach. intros h _. apply connection_connected_peers.
  - unfold discoverPeers. apply preserves_bind; [apply preserves_gets|].
    intros [|]; [apply pass_peers | apply log_peers].
Qed.
End PooledPeerEvents.

(** C9 (amended).  In the pooled revision a peer is put into the
    torrent's peer set in the turn in which [rondevu.peer] resolves; the
    set's size is what the capacity check reads and what [getStats]
    reports; an ['open'] event changes no peer set; a ['close'] or
    ['error'] event on the peer removes it; and no other event takes it
    out, apart from those that drop or replace the torrent's whole set
    (that torrent added or destroyed, [destroy], the settlement of
    [Rondevu.connect]). *)
Theorem pooled_peer_counted_while_connecting :
  forall o w infoHash,
    (forall remoteOffer rest aw peer s ps,
       JsMap.get infoHash (Pooled.torrentPeers (Pooled.fields s)) = Some ps ->
       exists k,
         Pooled.resume o (Pooled.AwaitPeer infoHash remoteOffer rest aw)
           (Pooled.PeerReady peer) = Some k
         /\ JsMap.get infoHash (Pooled.torrentPeers (Pooled.fields (exec k s)))
            = Some (JsSet.add peer ps))
    /\ (forall s ps,
          JsMap.get infoHash (Pooled.torrentPeers (Pooled.fields s)) = Some ps ->
          Pooled.peerCount infoHash s = JsSet.size ps
          /\ In (infoHash, JsSet.size ps) (Pooled.st_torrents (Pooled.getStats o s)))
    /\ (forall peer s,
          Pooled.torrentPeers (Pooled.fields (exec (Pooled.step o w (Pooled.EvPeer peer Pooled.Open)) s))
          = Pooled.torrentPeers (Pooled.fields s))
    /\ (forall peer e s,
          e = Pooled.Close \/ e = Pooled.Error ->
          In (peer, infoHash) (Pooled.peerHandlers (Pooled.host s)) ->
          ~ In peer (Pooled.peersOf infoHash (exec (Pooled.step o w (Pooled.EvPeer peer e)) s)))
    /\ (forall peer ev s,
          Pooled.lifecycle infoHash ev = false ->
          Pooled.closesPeer peer ev = false ->
          In peer (Pooled.peersOf infoHash s) ->
          In peer (Pooled.peersOf infoHash (exec (Pooled.step o w ev) s))).
Proof.
  intros o w T. repeat split.
  - intros. now apply peer_ready_tracked.
  - unfold Pooled.peerCount. now rewrite H.
  - unfold Pooled.getStats. cbn [Pooled.st_torrents].
    apply get_In in H.
    apply (in_map (fun e => (fst e, JsSet.size (snd e))) _ _ H).
  - intros p s. cbn [Pooled.step].
    assert (K : preserves (Pooled.onPeers (eq (Pooled.torrentPeers (Pooled.fields s)))) Pooled.anyCall
                  (Pooled.step o w (Pooled.EvPeer p Pooled.Open))).
    { cbn [Pooled.step]. apply preserves_bind; [apply preserves_gets|]. intros hs.
      apply preserves_forEach. intros h _. apply open_peers. }
    symmetry. apply (K s). reflexivity.
  - intros p e s He Hin. cbn [Pooled.step]. rewrite exec_bind.
    unfold gets at 2. cbn [fst]. unfold exec at 2, gets. cbn [fst snd].
    apply close_removes; [exact He|].
    apply filter_In. split; [exact Hin|]. apply Nat.eqb_refl.
  - intros p ev s L C H. apply (step_keeps_peer o w p T ev L C s H).
Qed.

(** ** The connect loop and the added handler *)

Lemma nth_error_updateNth {A} n (g : A -> A) l :
  nth_error (Bloom.updateNth n g l) n = option_map g (nth_error l n).
Proof.
  revert n. induction l as [|x l IH]; intros [|n]; simpl; auto.
Qed.

Lemma keys_set {V} k (v : V) m :
  JsMap.keys (JsMap.set k v m)
  = if JsMap.has k m then JsMap.keys m else JsMap.keys m ++ [k].
Proof.
  unfold JsMap.has. induction m as [|[k' v'] m IH]; simpl; auto.
  destruct (String.eqb k k') eqn:E; simpl.
  - apply String.eqb_eq in E. now subst.
  - rewrite IH. now destruct (JsMap.get k m).
Qed.

Section BloomLoop.
Import Bloom.
Variable o : Options.

Lemma bloom_loop_cons T bf ro rest aw s :
  connectLoop o T bf (ro :: rest) aw s
  = if isOwn ro s || truthy (ro_answererPeerId ro)
    then connectLoop o T bf rest aw s
    else
      let p := nextPeer (runtime s) in
      (tt,
       exec (park (AwaitAnswer T bf p ro rest aw))
         (upd_runtime (set_nextPeer (S p)) (exec (filterAdd bf (ro_peerId ro)) s)),
       [CreatePeer p; Log (LAnswering (ro_id ro) T); Answer p ro T]).
Proof.
  cbn [connectLoop]. unfold bind at 1. unfold gets at 1.
  destruct (isOwn ro s); cbn [orb].
  - destruct (connectLoop o T bf rest aw s) as [[u s'] e]. reflexivity.
  - destruct (truthy (ro_answererPeerId ro)).
    + destruct (connectLoop o T bf rest aw s) as [[u s'] e]. reflexivity.
    + destruct bf; reflexivity.
Qed.

Lemma passReturns_no_answer aw T s p ro tp :
  ~ In (Answer p ro tp) (effects (passReturns o aw T) s).
Proof.
  destruct aw; unfold effects; simpl; intros H; [|exact H].
  destruct H as [H|[]]. discriminate.
Qed.

Lemma bloom_answer_recorded T f offers aw s p ro tp :
  f < length (filters (runtime s)) ->
  In (Answer p ro tp) (effects (connectLoop o T (Some f) offers aw) s) ->
  In (ro_peerId ro) (filterItems f (exec (connectLoop o T (Some f) offers aw) s)).
Proof.
  revert s. induction offers as [|r rest IH]; intros s L H.
  - exfalso. eapply passReturns_no_answer, H.
  - unfold effects, exec in *. rewrite bloom_loop_cons in *.
    destruct (isOwn r s || truthy (ro_answererPeerId r)); [now apply IH|].
    cbn [snd fst] in *.
    destruct H as [H|[H|[H|[]]]]; try discriminate. inversion H; subst.
    unfold filterItems, exec. simpl.
    rewrite nth_error_updateNth.
    destruct (nth_error (filters (runtime s)) f) eqn:E.
    + simpl. apply in_or_app. right. now left.
    + apply nth_error_None in E. lia.
Qed.

Lemma bloom_offer_created T cur peer aw offerId s :
  exists k,
    resume o (AwaitCreateOffer T cur peer aw) (OfferCreated offerId) = Some k
    /\ effects k s
       = [Log (LDiscovering T);
          FindByTopic T (maxPeersPerTorrent o - cur)%Z
            (filterBytes (JsMap.get T (torrentBloomFilters (fields s))) s)]
    /\ torrentOffers (fields (exec k s))
       = JsMap.onEntry T (fun ids => ids ++ [offerId]) (torrentOffers (fields s))
    /\ torrentPeers (fields (exec k s)) = torrentPeers (fields s).
Proof.
  eexists. split; [reflexivity|]. repeat split.
Qed.
End BloomLoop.

(** C2 (amended).  In the bloom-filter revision an identity whose
    advertisement is answered is in the torrent's bloom filter by the end
    of that turn; the discovery query carries the serialised filter; and
    the connect loop answers every advertisement that is neither the
    manager's own nor already answered, whatever the filter holds. *)
Theorem bloom_answered_identity_recorded :
  forall o infoHash,
    (forall f offers aw s peer remoteOffer topic,
       f < length (Bloom.filters (Bloom.runtime s)) ->
       In (Bloom.Answer peer remoteOffer topic)
          (effects (Bloom.connectLoop o infoHash (Some f) offers aw) s) ->
       In (Bloom.ro_peerId remoteOffer)
          (Bloom.filterItems f (exec (Bloom.connectLoop o infoHash (Some f) offers aw) s)))
    /\ (forall cur peer aw offerId s,
          exists k,
            Bloom.resume o (Bloom.AwaitCreateOffer infoHash cur peer aw)
              (Bloom.OfferCreated offerId) = Some k
            /\ effects k s
               = [Bloom.Log (Bloom.LDiscovering infoHash);
                  Bloom.FindByTopic infoHash (Bloom.maxPeersPerTorrent o - cur)%Z
                    (Bloom.filterBytes
                       (JsMap.get infoHash (Bloom.torrentBloomFilters (Bloom.fields s))) s)])
    /\ (forall bloomFilter remoteOffer rest aw s,
          Bloom.isOwn remoteOffer s = false ->
          truthy (Bloom.ro_answererPeerId remoteOffer) = false ->
          effects (Bloom.connectLoop o infoHash bloomFilter (remoteOffer :: rest) aw) s
          = [Bloom.CreatePeer (Bloom.nextPeer (Bloom.runtime s));
             Bloom.Log (Bloom.LAnswering (Bloom.ro_id remoteOffer) infoHash);
             Bloom.Answer (Bloom.nextPeer (Bloom.runtime s)) remoteOffer infoHash]).
Proof.
  intros o T. repeat split.
  - intros. now apply bloom_answer_recorded with (p := peer) (tp := topic).
  - intros. destruct (bloom_offer_created o T cur peer aw offerId s) as [k [R [E _]]].
    exists k. now split.
  - intros bf ro rest aw s O A. unfold effects. rewrite bloom_loop_cons, O, A. reflexivity.
Qed.

Lemma exec_gets_bind {S E A B} (f : S -> A) (k : A -> M S E B) s :
  exec (bind (gets f) k) s = exec (k (f s)) s.
Proof. unfold exec, bind, gets. destruct (k (f s) s) as [[b s2] e2]. reflexivity. Qed.

Lemma effects_gets_bind {S E A B} (f : S -> A) (k : A -> M S E B) s :
  effects (bind (gets f) k) s = effects (k (f s)) s.
Proof. unfold effects, bind, gets. destruct (k (f s) s) as [[b s2] e2]. reflexivity. Qed.

Section AddedHandler.
Lemma bloom_added_resume o T s :
  effects (Bloom.handleTorrentAdded_resume o T) s
  = [Bloom.SetInterval (Bloom.nextTimer (Bloom.runtime s)) T (Bloom.refreshInterval o)]
  /\ Bloom.liveTimers T (exec (Bloom.handleTorrentAdded_resume o T) s)
     = Bloom.liveTimers T s ++ [Bloom.nextTimer (Bloom.runtime s)]
  /\ Bloom.timerOf T (exec (Bloom.handleTorrentAdded_resume o T) s)
     = [Bloom.nextTimer (Bloom.runtime s)].
Proof.
  repeat split.
  - unfold Bloom.liveTimers, exec. simpl. rewrite filter_app, map_app. simpl.
    now rewrite String.eqb_refl.
  - unfold Bloom.timerOf, exec. simpl. now rewrite get_set_same.
Qed.

Lemma pooled_added_resume o T s :
  effects (Pooled.handleTorrentAdded_resume o T) s
  = [Pooled.SetInterval (Pooled.nextTimer (Pooled.runtime s)) T (Pooled.refreshInterval o)]
  /\ Pooled.liveTimers T (exec (Pooled.handleTorrentAdded_resume o T) s)
     = Pooled.liveTimers T s ++ [Pooled.nextTimer (Pooled.runtime s)]
  /\ Pooled.timerOf T (exec (Pooled.handleTorrentAdded_resume o T) s)
     = [Pooled.nextTimer (Pooled.runtime s)].
Proof.
  repeat split.
  - unfold Pooled.liveTimers, exec. simpl. rewrite filter_app, map_app. simpl.
    now rewrite String.eqb_refl.
  - unfold Pooled.timerOf, exec. simpl. now rewrite get_set_same.
Qed.

Lemma bloom_added_peers o T s :
  Bloom.torrentPeers (Bloom.fields (exec (Bloom.handleTorrentAdded o T) s))
  = JsMap.set T [] (Bloom.torrentPeers (Bloom.fields s)).
Proof.
  unfold Bloom.handleTorrentAdded, Bloom.discoverPeersForTorrent, exec.
  unfold Bloom.newFilter, Bloom.createPeer, Bloom.park, Bloom.log.
  unfold bind, gets, modify, emit, ret. cbv beta iota. simpl.
  match goal with |- context [(?a <=? ?b)%Z] => destruct (a <=? b)%Z end;
    simpl; [destruct o; simpl|]; reflexivity.
Qed.

Lemma pooled_added_peers o T s name :
  Pooled.rondevu (Pooled.fields s) = Some name ->
  Pooled.torrentPeers (Pooled.fields (exec (Pooled.handleTorrentAdded o T) s))
  = JsMap.set T [] (Pooled.torrentPeers (Pooled.fields s)).
Proof.
  intros R. unfold Pooled.handleTorrentAdded. rewrite exec_gets_bind, R.
  rewrite !exec_bind.
  match goal with |- context [exec (Pooled.discoverPeersForTorrent o T ?aw) ?s2] =>
    destruct (pass_peers o (eq (Pooled.torrentPeers (Pooled.fields s2))) T aw s2 eq_refl) as [K _]
  end.
  unfold Pooled.onPeers in K. rewrite <- K. reflexivity.
Qed.
End AddedHandler.

Lemma get_None_keys {V} k (m : JsMap.t V) :
  JsMap.get k m = None -> ~ In k (JsMap.keys m).
Proof.
  induction m as [|[k' v'] m IH]; simpl; [tauto|].
  destruct (String.eqb k k') eqn:E; [discriminate|].
  apply String.eqb_neq in E. intros H [C|C]; [congruence | now apply IH].
Qed.

Lemma NoDup_snoc {A} (x : A) l : NoDup l -> ~ In x l -> NoDup (l ++ [x]).
Proof.
  induction 1 as [|y l Hy Hl IH]; simpl; intros N.
  - constructor; [tauto | constructor].
  - constructor.
    + intros C. apply in_app_or in C. destruct C as [C|[C|[]]]; [tauto|].
      apply N. now left.
    + apply IH. tauto.
Qed.

Lemma NoDup_keys_set {V} k (v : V) m :
  NoDup (JsMap.keys m) -> NoDup (JsMap.keys (JsMap.set k v m)).
Proof.
  intros H. rewrite keys_set. unfold JsMap.has.
  destruct (JsMap.get k m) eqn:E; [exact H|].
  apply NoDup_snoc; [exact H | now apply get_None_keys].
Qed.

Lemma bloom_added_one_entry o T s :
  Bloom.oneEntryPerTopic s ->
  Bloom.oneEntryPerTopic (exec (Bloom.handleTorrentAdded o T) s)
  /\ Bloom.oneEntryPerTopic (exec (Bloom.handleTorrentAdded_resume o T) s).
Proof.
  intros (H1 & H2 & H3 & H4 & H5). split.
  - unfold Bloom.oneEntryPerTopic, Bloom.handleTorrentAdded, Bloom.discoverPeersForTorrent, exec.
    unfold Bloom.newFilter, Bloom.createPeer, Bloom.park, Bloom.log.
    unfold bind, gets, modify, emit, ret. cbv beta iota. simpl.
    match goal with |- context [(?a <=? ?b)%Z] => destruct (a <=? b)%Z end;
      simpl; repeat split; auto using NoDup_keys_set.
  - unfold Bloom.oneEntryPerTopic, exec. simpl.
    repeat split; auto using NoDup_keys_set.
Qed.

Lemma pooled_added_one_entry o T s :
  Pooled.oneEntryPerTopic s ->
  Pooled.oneEntryPerTopic (exec (Pooled.handleTorrentAdded o T) s)
  /\ Pooled.oneEntryPerTopic (exec (Pooled.handleTorrentAdded_resume o T) s).
Proof.
  intros (H1 & H2 & H3 & H4). split.
  - unfold Pooled.oneEntryPerTopic, Pooled.handleTorrentAdded,
      Pooled.discoverPeersForTorrent, Pooled.discover, exec.
    unfold Pooled.park, Pooled.log.
    unfold bind, gets, modify, emit, ret. cbv beta iota.
    destruct (Pooled.rondevu (Pooled.fields s)) as [name|] eqn:R; simpl; [|now repeat split].
    rewrite R. simpl.
    match goal with |- context [(?a <=? ?b)%Z] => destruct (a <=? b)%Z end; simpl;
      [|destruct (JsMap.has T (Pooled.torrentOfferHandles (Pooled.fields s)))]; simpl;
      repeat split; auto using NoDup_keys_set.
  - unfold Pooled.oneEntryPerTopic, exec. simpl.
    repeat split; auto using NoDup_keys_set.
Qed.

(** C3 (amended).  The private maps are keyed by infoHash and
    [handleTorrentAdded] stores under the key, so no map ever holds two
    entries for one torrent.  Adding a torrent that is not tracked puts one
    empty peer set under its infoHash; when the first pass has returned,
    one interval timer is started and recorded under the infoHash, and if
    none was live for the torrent it is the only one live.  (Pooled
    revision: for a manager whose [rondevu] client is set.) *)
Theorem added_once_one_entry_one_timer :
  (forall o infoHash s,
     let s1 := exec (Bloom.handleTorrentAdded o infoHash) s in
     let s2 := exec (Bloom.handleTorrentAdded_resume o infoHash) s in
     let timer := Bloom.nextTimer (Bloom.runtime s) in
     (Bloom.oneEntryPerTopic s ->
      Bloom.oneEntryPerTopic s1 /\ Bloom.oneEntryPerTopic s2)
     /\ (JsMap.has infoHash (Bloom.torrentPeers (Bloom.fields s)) = false ->
         Bloom.peersOf infoHash s1 = []
         /\ JsMap.keys (Bloom.torrentPeers (Bloom.fields s1))
            = JsMap.keys (Bloom.torrentPeers (Bloom.fields s)) ++ [infoHash])
     /\ (Bloom.liveTimers infoHash s = [] ->
         effects (Bloom.handleTorrentAdded_resume o infoHash) s
           = [Bloom.SetInterval timer infoHash (Bloom.refreshInterval o)]
         /\ Bloom.liveTimers infoHash s2 = [timer]
         /\ Bloom.timerOf infoHash s2 = [timer]))
  /\
  (forall o infoHash s name,
     Pooled.rondevu (Pooled.fields s) = Some name ->
     let s1 := exec (Pooled.handleTorrentAdded o infoHash) s in
     let s2 := exec (Pooled.handleTorrentAdded_resume o infoHash) s in
     let timer := Pooled.nextTimer (Pooled.runtime s) in
     (Pooled.oneEntryPerTopic s ->
      Pooled.oneEntryPerTopic s1 /\ Pooled.oneEntryPerTopic s2)
     /\ (JsMap.has infoHash (Pooled.torrentPeers (Pooled.fields s)) = false ->
         Pooled.peersOf infoHash s1 = []
         /\ JsMap.keys (Pooled.torrentPeers (Pooled.fields s1))
            = JsMap.keys (Pooled.torrentPeers (Pooled.fields s)) ++ [infoHash])
     /\ (Pooled.liveTimers infoHash s = [] ->
         effects (Pooled.handleTorrentAdded_resume o infoHash) s
           = [Pooled.SetInterval timer infoHash (Pooled.refreshInterval o)]
         /\ Pooled.liveTimers infoHash s2 = [timer]
         /\ Pooled.timerOf infoHash s2 = [timer])).
Proof.
  split.
  - intros o T s s1 s2 timer. subst s1 s2 timer.
    destruct (bloom_added_resume o T s) as [E [L Tm]].
    split; [apply bloom_added_one_entry|]. split.
    + intros N. unfold Bloom.peersOf.
      rewrite bloom_added_peers, get_set_same, keys_set, N. now split.
    + intros N. rewrite L, N. now repeat split.
  - intros o T s name R s1 s2 timer. subst s1 s2 timer.
    destruct (pooled_added_resume o T s) as [E [L Tm]].
    split; [apply pooled_added_one_entry|]. split.
    + intros N. unfold Pooled.peersOf.
      rewrite (pooled_added_peers o T s name R), get_set_same, keys_set, N. now split.
    + intros N. rewrite L, N. now repeat split.
Qed.

(** ** Offers and the cap *)

Lemma bloom_pass_below_cap o T aw s :
  (Bloom.peerCount T s < Bloom.maxPeersPerTorrent o)%Z ->
  let p := Bloom.nextPeer (Bloom.runtime s) in
  Bloom.discoverPeersForTorrent o T aw s
  = (tt,
     exec (Bloom.park (Bloom.AwaitCreateOffer T (Bloom.peerCount T s) p aw))
       (Bloom.upd_runtime (Bloom.set_nextPeer (S p)) s),
     [Bloom.CreatePeer p; Bloom.Log (Bloom.LCreatingOffer T);
      Bloom.CreateOffer p T 300000%Z]).
Proof.
  intros H p. unfold Bloom.discoverPeersForTorrent.
  unfold bind at 1. unfold gets at 1.
  assert (L : (Bloom.maxPeersPerTorrent o <=? Bloom.peerCount T s)%Z = false)
    by (apply Z.leb_gt; lia).
  rewrite L. reflexivity.
Qed.

Lemma pooled_discover o T cur aw s :
  Pooled.discover o T cur aw s
  = (tt, exec (Pooled.park (Pooled.AwaitDiscover T aw)) s,
     [Pooled.Log (Pooled.LDiscovering T);
      Pooled.CallDiscover T (Pooled.maxPeersPerTorrent o - cur)%Z]).
Proof. reflexivity. Qed.

Lemma pooled_pass_below_cap o T aw s name :
  Pooled.rondevu (Pooled.fields s) = Some name ->
  (Pooled.peerCount T s < Pooled.maxPeersPerTorrent o)%Z ->
  Pooled.discoverPeersForTorrent o T aw s
  = if JsMap.has T (Pooled.torrentOfferHandles (Pooled.fields s))
    then Pooled.discover o T (Pooled.peerCount T s) aw s
    else (tt, exec (Pooled.park (Pooled.AwaitOffer T (Pooled.peerCount T s) aw)) s,
          [Pooled.Log (Pooled.LCreatingOffers T); Pooled.CallOffer T 3%Z 300000%Z]).
Proof.
  intros R H. unfold Pooled.discoverPeersForTorrent.
  unfold bind at 1. unfold gets at 1. rewrite R.
  unfold bind at 1. unfold gets at 1.
  assert (L : (Pooled.maxPeersPerTorrent o <=? Pooled.peerCount T s)%Z = false)
    by (apply Z.leb_gt; lia).
  rewrite L. unfold bind at 1. unfold gets at 1.
  destruct (JsMap.has T (Pooled.torrentOfferHandles (Pooled.fields s))); reflexivity.
Qed.

Lemma pooled_offer_ready o T cur aw h s :
  exists k,
    Pooled.resume o (Pooled.AwaitOffer T cur aw) (Pooled.OfferHandleReady h) = Some k
    /\ Pooled.handleOf T (exec k s) = [h]
    /\ effects k s
       = [Pooled.Log (Pooled.LDiscovering T);
          Pooled.CallDiscover T (Pooled.maxPeersPerTorrent o - cur)%Z].
Proof.
  eexists. split; [reflexivity|]. split; [|reflexivity].
  unfold Pooled.handleOf, exec. simpl. now rewrite get_set_same.
Qed.

(** C6 (amended).  In the pooled revision a pass below the cap calls
    [rondevu.offer] only when no offer handle is tracked for the torrent,
    otherwise it goes straight to the discovery query and leaves the
    handles as they are; a resolved handle replaces the entry, so one
    handle is tracked per torrent.  In the bloom-filter revision every pass
    below the cap creates a peer and an offer, and the offer id is appended
    to the torrent's list. *)
Theorem offer_creation_by_revision :
  (forall o infoHash aw s name,
     Pooled.rondevu (Pooled.fields s) = Some name ->
     (Pooled.peerCount infoHash s < Pooled.maxPeersPerTorrent o)%Z ->
     (JsMap.has infoHash (Pooled.torrentOfferHandles (Pooled.fields s)) = true ->
      effects (Pooled.discoverPeersForTorrent o infoHash aw) s
      = [Pooled.Log (Pooled.LDiscovering infoHash);
         Pooled.CallDiscover infoHash
           (Pooled.maxPeersPerTorrent o - Pooled.peerCount infoHash s)%Z]
      /\ Pooled.torrentOfferHandles
           (Pooled.fields (exec (Pooled.discoverPeersForTorrent o infoHash aw) s))
         = Pooled.torrentOfferHandles (Pooled.fields s))
     /\ (JsMap.has infoHash (Pooled.torrentOfferHandles (Pooled.fields s)) = false ->
         effects (Pooled.discoverPeersForTorrent o infoHash aw) s
         = [Pooled.Log (Pooled.LCreatingOffers infoHash);
            Pooled.CallOffer infoHash 3%Z 300000%Z]))
  /\ (forall o infoHash cur aw h s,
        exists k,
          Pooled.resume o (Pooled.AwaitOffer infoHash cur aw) (Pooled.OfferHandleReady h)
            = Some k
          /\ Pooled.handleOf infoHash (exec k s) = [h])
  /\ (forall o infoHash aw s,
        (Bloom.peerCount infoHash s < Bloom.maxPeersPerTorrent o)%Z ->
        effects (Bloom.discoverPeersForTorrent o infoHash aw) s
        = [Bloom.CreatePeer (Bloom.nextPeer (Bloom.runtime s));
           Bloom.Log (Bloom.LCreatingOffer infoHash);
           Bloom.CreateOffer (Bloom.nextPeer (Bloom.runtime s)) infoHash 300000%Z])
  /\ (forall o infoHash cur peer aw offerId s ids,
        JsMap.get infoHash (Bloom.torrentOffers (Bloom.fields s)) = Some ids ->
        exists k,
          Bloom.resume o (Bloom.AwaitCreateOffer infoHash cur peer aw)
            (Bloom.OfferCreated offerId) = Some k
          /\ Bloom.offersOf infoHash (exec k s) = ids ++ [offerId]).
Proof.
  repeat split.
  - unfold effects. rewrite (pooled_pass_below_cap o infoHash aw s name H H0), H1.
    reflexivity.
  - unfold exec. rewrite (pooled_pass_below_cap o infoHash aw s name H H0), H1.
    reflexivity.
  - intros F. unfold effects. rewrite (pooled_pass_below_cap o infoHash aw s name H H0), F.
    reflexivity.
  - intros o T cur aw h s. destruct (pooled_offer_ready o T cur aw h s) as [k [R [Hh _]]].
    exists k. now split.
  - intros o T aw s H. unfold effects. now rewrite (bloom_pass_below_cap o T aw s H).
  - intros o T cur peer aw id s ids G.
    destruct (bloom_offer_created o T cur peer aw id s) as [k [R [_ [Ho _]]]].
    exists k. split; [exact R|]. unfold Bloom.offersOf.
    now rewrite Ho, get_onEntry_same, G.
Qed.

Lemma bloom_connected_peers w p T s :
  Bloom.torrentPeers (Bloom.fields (exec (Bloom.onPeerEvent w p T Bloom.Connected) s))
  = JsMap.onEntry T (JsSet.add p) (Bloom.torrentPeers (Bloom.fields s)).
Proof.
  unfold exec. cbn [Bloom.onPeerEvent]. unfold Bloom.log.
  unfold bind, emit, modify, ret. destruct (Bloom.addPeerThrows w p); reflexivity.
Qed.

(** Where the code looks at the cap: when a pass starts and nowhere
    else.  A pass that starts at or above the cap makes no call; a pass
    that starts below it queries with the limit [maxPeersPerTorrent -
    currentPeerCount], the count being the one read at its start; the
    handlers that add a peer to the tracked set (['connected'] in the
    bloom-filter revision, the resolved [rondevu.peer] promise in the
    pooled revision) do not read the set's size. *)
Theorem cap_checked_when_pass_starts :
  (forall o w infoHash,
     (forall s,
        (Bloom.maxPeersPerTorrent o - Bloom.peerCount infoHash s <= 0)%Z ->
        Bloom.discoverPeersForTorrent o infoHash Bloom.NoAwaiter s
        = (tt, s, [Bloom.Log (Bloom.LMaxPeersReached infoHash)]))
     /\ (forall aw s,
           (Bloom.peerCount infoHash s < Bloom.maxPeersPerTorrent o)%Z ->
           Bloom.tasks (Bloom.runtime (exec (Bloom.discoverPeersForTorrent o infoHash aw) s))
           = Bloom.tasks (Bloom.runtime s)
             ++ [(Bloom.nextTask (Bloom.runtime s),
                  Bloom.AwaitCreateOffer infoHash (Bloom.peerCount infoHash s)
                    (Bloom.nextPeer (Bloom.runtime s)) aw)])
     /\ (forall cur peer aw offerId s,
           exists k bytes,
             Bloom.resume o (Bloom.AwaitCreateOffer infoHash cur peer aw)
               (Bloom.OfferCreated offerId) = Some k
             /\ effects k s
                = [Bloom.Log (Bloom.LDiscovering infoHash);
                   Bloom.FindByTopic infoHash (Bloom.maxPeersPerTorrent o - cur)%Z bytes])
     /\ (forall peer s ps,
           JsMap.get infoHash (Bloom.torrentPeers (Bloom.fields s)) = Some ps ->
           Bloom.peersOf infoHash (exec (Bloom.onPeerEvent w peer infoHash Bloom.Connected) s)
           = JsSet.add peer ps))
  /\
  (forall o infoHash,
     (forall s name,
        Pooled.rondevu (Pooled.fields s) = Some name ->
        (Pooled.maxPeersPerTorrent o - Pooled.peerCount infoHash s <= 0)%Z ->
        Pooled.discoverPeersForTorrent o infoHash Pooled.NoAwaiter s
        = (tt, s, [Pooled.Log (Pooled.LMaxPeersReached infoHash)]))
     /\ (forall aw s name,
           Pooled.rondevu (Pooled.fields s) = Some name ->
           (Pooled.peerCount infoHash s < Pooled.maxPeersPerTorrent o)%Z ->
           JsMap.has infoHash (Pooled.torrentOfferHandles (Pooled.fields s)) = true ->
           effects (Pooled.discoverPeersForTorrent o infoHash aw) s
           = [Pooled.Log (Pooled.LDiscovering infoHash);
              Pooled.CallDiscover infoHash
                (Pooled.maxPeersPerTorrent o - Pooled.peerCount infoHash s)%Z])
     /\ (forall remoteOffer rest aw peer s ps,
           JsMap.get infoHash (Pooled.torrentPeers (Pooled.fields s)) = Some ps ->
           exists k,
             Pooled.resume o (Pooled.AwaitPeer infoHash remoteOffer rest aw)
               (Pooled.PeerReady peer) = Some k
             /\ Pooled.peersOf infoHash (exec k s) = JsSet.add peer ps)).
Proof.
  split.
  - intros o w T. repeat split.
    + intros s H. now rewrite (bloom_pass_at_cap o T Bloom.NoAwaiter s H).
    + intros aw s H. unfold exec. now rewrite (bloom_pass_below_cap o T aw s H).
    + intros cur peer aw id s.
      destruct (bloom_offer_created o T cur peer aw id s) as [k [R [E _]]].
      exists k. eexists. split; [exact R | exact E].
    + intros p s ps G. unfold Bloom.peersOf.
      now rewrite bloom_connected_peers, get_onEntry_same, G.
  - intros o T. repeat split.
    + intros s name R H. now rewrite (pooled_pass_at_cap o T Pooled.NoAwaiter s name R H).
    + intros aw s name R H F. unfold effects.
      now rewrite (pooled_pass_below_cap o T aw s name R H), F.
    + intros ro rest aw p s ps G.
      destruct (peer_ready_tracked o T ro rest aw p s ps G) as [k [R K]].
      exists k. split; [exact R|]. unfold Pooled.peersOf. now rewrite K.
Qed.

(** ** After a failed initialisation *)

Section BloomInert.
Import Bloom.
Variable o : Options.
Variable w : World.

Ltac inert_same :=
  let s := fresh "s" in
  let F := fresh "F" in
  intros s (F & ? & ? & ? & ? & ?);
  repeat split; simpl; auto; try (rewrite F; reflexivity).

Lemma inert_log m : preserves inert quiet (log m).
Proof. now apply preserves_emit. Qed.

Lemma inert_park t : awaitedByAdded t = false -> preserves inert quiet (park t).
Proof.
  intros A. unfold park. apply preserves_bind; [apply preserves_gets | intros k].
  apply preserves_modify. inert_same. apply Forall_app. split; auto.
Qed.

Lemma inert_createPeer : preserves inert quiet createPeer.
Proof.
  unfold createPeer. apply preserves_bind; [apply preserves_gets | intros p].
  apply preserves_bind; [apply preserves_modify; inert_same | intros _].
  apply preserves_bind; [now apply preserves_emit | intros _; apply preserves_ret].
Qed.

Lemma inert_filterAdd bf x : preserves inert quiet (filterAdd bf x).
Proof.
  destruct bf; [|apply preserves_ret]. apply preserves_modify. inert_same.
Qed.

Lemma inert_setupPeerHandlers p T b : preserves inert quiet (setupPeerHandlers p T b).
Proof. apply preserves_modify. inert_same. Qed.

Lemma inert_connectLoop T bf offers :
  preserves inert quiet (connectLoop o T bf offers NoAwaiter).
Proof.
  induction offers as [|ro rest IH]; cbn [connectLoop].
  - apply preserves_ret.
  - apply preserves_bind; [apply preserves_gets|]. intros [|]; [exact IH|].
    destruct (truthy (ro_answererPeerId ro)); [exact IH|].
    apply preserves_bind; [apply inert_filterAdd | intros _].
    apply preserves_bind; [apply inert_createPeer | intros p].
    apply preserves_bind; [apply inert_log | intros _].
    apply preserves_bind; [now apply preserves_emit | intros _].
    now apply inert_park.
Qed.

Lemma inert_pass T : preserves inert quiet (discoverPeersForTorrent o T NoAwaiter).
Proof.
  unfold discoverPeersForTorrent. apply preserves_bind; [apply preserves_gets | intros cur].
  destruct (maxPeersPerTorrent o <=? cur)%Z.
  - apply preserves_bind; [apply inert_log | intros _; apply preserves_ret].
  - apply preserves_bind; [apply inert_createPeer | intros p].
    apply preserves_bind; [apply inert_log | intros _].
    apply preserves_bind; [now apply preserves_emit | intros _].
    now apply inert_park.
Qed.

Lemma inert_resume t r k :
  awaitedByAdded t = false -> resume o t r = Some k -> preserves inert quiet k.
Proof.
  destruct t as [T cur p [|]|T bf [|]|T bf p ro rest [|]|id]; try discriminate;
    intros _; destruct r; try discriminate; intros [= <-].
  - apply preserves_bind; [apply inert_log | intros _; apply preserves_ret].
  - apply preserves_bind; [apply preserves_modify; inert_same | intros _].
    apply preserves_bind; [apply inert_setupPeerHandlers | intros _].
    apply preserves_bind; [apply inert_log | intros _].
    apply preserves_bind; [apply preserves_gets | intros bf].
    apply preserves_bind; [apply preserves_gets | intros bytes].
    apply preserves_bind; [now apply preserves_emit | intros _].
    now apply inert_park.
  - apply preserves_bind; [apply inert_log | intros _; apply preserves_ret].
  - apply preserves_bind; [apply inert_log | intros _; apply inert_connectLoop].
  - apply preserves_bind; [apply inert_log | intros _; apply inert_connectLoop].
  - apply preserves_bind; [apply inert_setupPeerHandlers | intros _; apply inert_connectLoop].
  - apply inert_log.
  - apply preserves_ret.
Qed.

Lemma inert_onPeerEvent p T e : preserves inert quiet (onPeerEvent w p T e).
Proof.
  destruct e; cbn [onPeerEvent].
  - apply preserves_bind; [apply inert_log | intros _].
    apply preserves_bind; [apply preserves_modify; inert_same | intros _].
    apply preserves_bind; [now apply preserves_emit | intros _].
    destruct (addPeerThrows w p); [apply inert_log | apply preserves_ret].
  - apply preserves_bind; [apply inert_log | intros _].
    apply preserves_modify; inert_same.
  - apply preserves_bind; [apply inert_log | intros _].
    apply preserves_modify; inert_same.
  - apply inert_log.
Qed.

Lemma findTask_In k s t : findTask k s = Some t -> exists k', In (k', t) (tasks (runtime s)).
Proof.
  unfold findTask. destruct (find _ _) as [[k' t']|] eqn:F; [|discriminate].
  intros [= <-]. exists k'. now apply find_some in F.
Qed.

Lemma inert_step ev : preserves inert quiet (step o w ev).
Proof.
  destruct ev; cbn [step].
  - apply preserves_gets_bind. intros s H.
    destruct H as (F & L & D & In & P & Ts). rewrite P.
    split; [now repeat split | constructor].
  - apply preserves_modify. inert_same.
  - apply preserves_gets_bind. intros s H.
    destruct H as (F & L & D & In & P & Ts). rewrite L.
    split; [now repeat split | constructor].
  - apply preserves_gets_bind. intros s H.
    pose proof H as (F & L & D & In & P & Ts). rewrite D. cbn [filter].
    match goal with |- inert (exec ?m s) /\ _ =>
      assert (K : preserves inert quiet m) end.
    { apply preserves_bind; [apply preserves_modify; inert_same | intros _].
      apply preserves_bind; [apply preserves_modify | intros _; apply preserves_ret].
      intros s' (F' & L' & D' & In' & P' & Ts'). repeat split; simpl; auto.
      now rewrite D'. }
    apply K, H.
  - apply preserves_gets_bind. intros s H.
    pose proof H as (F & L & D & In & P & Ts). rewrite In. cbn [find].
    split; [exact H | constructor].
  - apply preserves_gets_bind. intros s H.
    destruct (findTask task s) as [t|] eqn:FT; [|split; [exact H | constructor]].
    destruct (resume o t r) as [k|] eqn:R; [|split; [exact H | constructor]].
    assert (A : awaitedByAdded t = false).
    { destruct (findTask_In _ _ _ FT) as [k' Hk].
      destruct H as (_ & _ & _ & _ & _ & Ts).
      rewrite Forall_forall in Ts. apply (Ts _ Hk). }
    revert s H FT.
    assert (K : preserves inert quiet (bind (modify (dropTask task)) (fun _ => k))).
    { apply preserves_bind; [|intros _; eapply inert_resume; eauto].
      apply preserves_modify. intros s (F & L & D & In & P & Ts).
      repeat split; simpl; auto.
      rewrite Forall_forall in *. intros x Hx. apply filter_In in Hx. now apply Ts. }
    intros s H _. apply K, H.
  - apply preserves_bind; [apply preserves_gets | intros hs].
    apply preserves_forEach. intros h _. apply inert_onPeerEvent.
  - unfold discoverPeers. apply preserves_bind; [apply preserves_gets | intros [|]];
      [apply inert_pass | apply inert_log].
  - unfold destroy. apply preserves_bind; [apply inert_log | intros _].
    apply preserves_gets_bind. intros s H.
    pose proof H as (F & L & D & In & P & Ts). rewrite F. cbn [JsMap.values noFields torrentCleanupHandlers map forEach].
    match goal with |- inert (exec ?m s) /\ _ =>
      assert (K : preserves inert quiet m) end.
    { repeat (apply preserves_bind; [|intros _]); try apply preserves_ret;
        apply preserves_modify; inert_same. }
    apply K, H.
Qed.

Lemma inert_run evs : preserves inert quiet (run o w evs).
Proof.
  induction evs as [|ev evs IH]; cbn [run].
  - apply preserves_ret.
  - apply preserves_bind; [apply inert_step | intros _; exact IH].
Qed.
End BloomInert.

Section PooledInert.
Import Pooled.
Variable o : Options.
Variable w : World.

Ltac inert_same :=
  let s := fresh "s" in
  let F := fresh "F" in
  intros s (F & ? & ? & ? & ? & ?);
  repeat split; simpl; auto; try (rewrite F; reflexivity).

Lemma pooled_inert_log m : preserves inert quiet (log m).
Proof. now apply preserves_emit. Qed.

Lemma pooled_inert_onPeerEvent p T e : preserves inert quiet (onPeerEvent w p T e).
Proof.
  destruct e; cbn [onPeerEvent].
  - apply preserves_bind; [apply pooled_inert_log | intros _].
    destruct (hasPeerConnection w p); [|apply preserves_ret].
    apply preserves_bind; [now apply preserves_emit | intros _].
    destruct (addPeerThrows w p); [apply pooled_inert_log | apply preserves_ret].
  - apply preserves_bind; [apply pooled_inert_log | intros _].
    apply preserves_modify; inert_same.
  - apply preserves_bind; [apply pooled_inert_log | intros _].
    apply preserves_modify; inert_same.
Qed.

Lemma pooled_inert_pass T s :
  inert s -> discoverPeersForTorrent o T NoAwaiter s = (tt, s, []).
Proof.
  intros (F & _). unfold discoverPeersForTorrent.
  unfold bind, gets. rewrite F. reflexivity.
Qed.

Lemma pooled_inert_step ev : preserves inert quiet (step o w ev).
Proof.
  destruct ev; cbn [step].
  - apply preserves_gets_bind. intros s H.
    destruct H as (F & L & D & In & P & Ts). rewrite P.
    split; [now repeat split | constructor].
  - apply preserves_modify. inert_same.
  - apply preserves_gets_bind. intros s H.
    destruct H as (F & L & D & In & P & Ts). rewrite L.
    split; [now repeat split | constructor].
  - apply preserves_gets_bind. intros s H.
    pose proof H as (F & L & D & In & P & Ts). rewrite D. cbn [filter].
    match goal with |- inert (exec ?m s) /\ _ =>
      assert (K : preserves inert quiet m) end.
    { apply preserves_bind; [apply preserves_modify; inert_same | intros _].
      apply preserves_bind; [apply preserves_modify | intros _].
      - intros s' (F' & L' & D' & In' & P' & Ts'). repeat split; simpl; auto.
        now rewrite D'.
      - apply preserves_bind; [apply preserves_ret | intros _; apply preserves_ret]. }
    apply K, H.
  - apply preserves_gets_bind. intros s H.
    pose proof H as (F & L & D & In & P & Ts). rewrite In. cbn [find].
    split; [exact H | constructor].
  - apply preserves_gets_bind. intros s H.
    pose proof H as (F & L & D & In & P & Ts). unfold findTask. rewrite Ts. cbn [find option_map].
    split; [exact H | constructor].
  - apply preserves_bind; [apply preserves_gets | intros hs].
    apply preserves_forEach. intros h _. apply pooled_inert_onPeerEvent.
  - apply preserves_bind; [apply preserves_gets | intros ls].
    apply preserves_forEach. intros T _. unfold onConnectionOpened.
    apply preserves_bind; [apply pooled_inert_log | intros _].
    apply preserves_modify; inert_same.
  - apply preserves_bind; [apply preserves_gets | intros hs].
    apply preserves_forEach. intros h _. unfold onConnectionConnected.
    destruct (connHasPeerConnection w conn); [|apply preserves_ret].
    apply preserves_bind; [now apply preserves_emit | intros _].
    destruct (addIncomingThrows w conn); apply pooled_inert_log.
  - unfold discoverPeers. apply preserves_gets_bind. intros s H.
    destruct (existsb _ _).
    + unfold exec, effects. rewrite (pooled_inert_pass _ _ H). split; [exact H | constructor].
    + apply (pooled_inert_log _ s H).
  - unfold destroy. apply preserves_bind; [|intros _; apply preserves_ret].
    apply preserves_bind; [apply pooled_inert_log | intros _].
    apply preserves_gets_bind. intros s H.
    pose proof H as (F & L & D & In & P & Ts). rewrite F.
    cbn [JsMap.values noFields torrentCleanupHandlers map forEachOk].
    match goal with |- inert (exec ?m s) /\ _ =>
      assert (K : preserves inert quiet m) end.
    { apply preserves_bind; [apply preserves_ret | intros [|]; [|apply preserves_ret]].
      repeat (apply preserves_bind; [|intros _]); try apply preserves_ret;
        apply preserves_modify; inert_same. }
    apply K, H.
Qed.

Lemma pooled_inert_run evs : preserves inert quiet (run o w evs).
Proof.
  induction evs as [|ev evs IH]; cbn [run].
  - apply preserves_ret.
  - apply preserves_bind; [apply pooled_inert_step | intros _; exact IH].
Qed.
End PooledInert.

(** C8.  When [rondevu.register()] (bloom-filter revision) or
    [Rondevu.connect] (pooled revision) rejects, [initialize] logs the
    failure and returns; from then on, whatever events follow, the
    ['torrent'] listener is not attached, no private map gets an entry, no
    timer is started and registration is not called again. *)
Theorem failed_init_stays_inert :
  (forall mo w torrents,
     Bloom.o_credentials mo = None ->
     let o := Bloom.resolveOptions mo in
     let s0 := Bloom.constructed mo torrents in
     let s1 := exec (Bloom.step o w (Bloom.EvInitSettled Bloom.Rejected)) s0 in
     snd (Bloom.construct mo torrents) = [Bloom.Log Bloom.LInitializing; Bloom.CallRegister]
     /\ effects (Bloom.step o w (Bloom.EvInitSettled Bloom.Rejected)) s0
       = [Bloom.Log Bloom.LFailedToRegister]
     /\ forall evs,
          Bloom.inert (exec (Bloom.run o w evs) s1)
          /\ Forall Bloom.quiet (effects (Bloom.run o w evs) s1))
  /\
  (forall mo w torrents,
     let o := Pooled.resolveOptions mo in
     let s0 := Pooled.constructed mo torrents in
     let s1 := exec (Pooled.step o w (Pooled.EvInitSettled Pooled.Rejected)) s0 in
     snd (Pooled.construct mo torrents)
       = [Pooled.Log Pooled.LInitializing;
          Pooled.CallConnect (Pooled.o_rondevuServer mo) (Pooled.o_credential mo)]
     /\ effects (Pooled.step o w (Pooled.EvInitSettled Pooled.Rejected)) s0
       = [Pooled.Log Pooled.LFailedToConnectRondevu]
     /\ forall evs,
          Pooled.inert (exec (Pooled.run o w evs) s1)
          /\ Forall Pooled.quiet (effects (Pooled.run o w evs) s1)).
Proof.
  split.
  - intros mo w torrents C o s0 s1. subst s0 s1 o.
    unfold Bloom.constructed, Bloom.construct. rewrite C.
    split; [reflexivity|]. split; [reflexivity|]. intros evs. apply inert_run.
    repeat split; constructor.
  - intros mo w torrents o s0 s1. subst s0 s1 o.
    split; [reflexivity|]. split; [reflexivity|]. intros evs. apply pooled_inert_run.
    repeat split; constructor.
Qed.

(** ** Concrete runs *)

(** Two peers tracked under a cap of 2: the next pass stops at the
    capacity check. *)
Lemma cap_checked_when_pass_starts_witness :
  let o := Bloom.resolveOptions (Bloom.sampleOptions 2 (Some "me")) in
  let s := Bloom.after 2 Bloom.bothConnect in
  (Bloom.maxPeersPerTorrent o - Bloom.peerCount "T" s <= 0)%Z
  /\ Bloom.discoverPeersForTorrent o "T" Bloom.NoAwaiter s
     = (tt, s, [Bloom.Log (Bloom.LMaxPeersReached "T")]).
Proof.
  split; [vm_compute; discriminate|].
  apply (proj1 (proj1 cap_checked_when_pass_starts _ Bloom.calm "T")).
  vm_compute; discriminate.
Defined.

(** C1 (the code at the failing input).  The peer set of a torrent is to
    stay within [maxPeersPerTorrent], a connection that completes at the
    cap being dropped.  With a cap of 1 the peer set of T reaches size 2:
    in the bloom-filter revision when the peer behind the own offer and
    the peer that answered bob both connect, in the pooled revision when
    two overlapping passes each get one peer. *)
Lemma peer_set_exceeds_cap :
  (Bloom.peerCount "T" (Bloom.after 1 Bloom.bothConnect)
   > Bloom.maxPeersPerTorrent (Bloom.resolveOptions (Bloom.sampleOptions 1 (Some "me"))))%Z
  /\ Bloom.peersOf "T" (Bloom.after 1 Bloom.bothConnect) = [0; 1]
  /\ (Pooled.peerCount "T" (Pooled.after 1 Pooled.overlappingPasses)
      > Pooled.maxPeersPerTorrent (Pooled.resolveOptions (Pooled.sampleOptions 1)))%Z
  /\ Pooled.peersOf "T" (Pooled.after 1 Pooled.overlappingPasses) = [1; 2].
Proof. repeat split; reflexivity. Qed.

(** Answering bob's advertisement leaves bob in the filter. *)
Lemma bloom_answered_identity_recorded_witness :
  let o := Bloom.resolveOptions (Bloom.sampleOptions 5 (Some "me")) in
  let s := Bloom.after 5 Bloom.addedOnce in
  0 < length (Bloom.filters (Bloom.runtime s))
  /\ In (Bloom.Answer 1 Bloom.bob "T")
        (effects (Bloom.connectLoop o "T" (Some 0) [Bloom.bob] Bloom.NoAwaiter) s)
  /\ In (Bloom.ro_peerId Bloom.bob)
        (Bloom.filterItems 0
           (exec (Bloom.connectLoop o "T" (Some 0) [Bloom.bob] Bloom.NoAwaiter) s)).
Proof.
  assert (L : 0 < length (Bloom.filters (Bloom.runtime (Bloom.after 5 Bloom.addedOnce))))
    by (vm_compute; lia).
  assert (A : In (Bloom.Answer 1 Bloom.bob "T")
                (effects (Bloom.connectLoop
                            (Bloom.resolveOptions (Bloom.sampleOptions 5 (Some "me")))
                            "T" (Some 0) [Bloom.bob] Bloom.NoAwaiter)
                   (Bloom.after 5 Bloom.addedOnce)))
    by (vm_compute; right; right; left; reflexivity).
  split; [exact L|]. split; [exact A|].
  exact (proj1 (bloom_answered_identity_recorded _ "T") 0 [Bloom.bob] Bloom.NoAwaiter
           _ 1 Bloom.bob "T" L A).
Defined.

(** Two passes whose query returns bob: [rondevu.peer] is called for bob
    twice (pooled revision); bob is in the filter after the first pass and
    is answered again in the second (bloom-filter revision). *)
Lemma identity_handed_over_again :
  length (filter (Pooled.callsPeer "bob") (Pooled.traceOf 5 Pooled.secondPass)) = 2
  /\ In "bob" (Bloom.filterItems 0 (Bloom.after 5 Bloom.firstPass))
  /\ length (filter (Bloom.answers "bob") (Bloom.traceOf 5 Bloom.firstPass)) = 1
  /\ length (filter (Bloom.answers "bob") (Bloom.traceOf 5 Bloom.secondPass)) = 2.
Proof. repeat split; try reflexivity. vm_compute. now left. Qed.

(** A connected manager that tracks nothing yet. *)
Lemma added_once_one_entry_one_timer_witness :
  let o := Pooled.resolveOptions (Pooled.sampleOptions 5) in
  let s := Pooled.after 5 [Pooled.EvInitSettled (Pooled.ConnectedAs "me")] in
  Pooled.rondevu (Pooled.fields s) = Some "me"
  /\ JsMap.has "T" (Pooled.torrentPeers (Pooled.fields s)) = false
  /\ Pooled.liveTimers "T" s = []
  /\ Pooled.peersOf "T" (exec (Pooled.handleTorrentAdded o "T") s) = []
  /\ Pooled.liveTimers "T" (exec (Pooled.handleTorrentAdded_resume o "T") s)
     = [Pooled.nextTimer (Pooled.runtime s)].
Proof.
  split; [reflexivity|]. split; [reflexivity|]. split; [reflexivity|].
  destruct (proj2 added_once_one_entry_one_timer
              (Pooled.resolveOptions (Pooled.sampleOptions 5)) "T"
              (Pooled.after 5 [Pooled.EvInitSettled (Pooled.ConnectedAs "me")])
              "me" eq_refl)
    as (_ & A & B).
  split; [exact (proj1 (A eq_refl)) | exact (proj1 (proj2 (B eq_refl)))].
Defined.

(** Torrent T, added by [initialize] and then again by the ['torrent']
    listener: the second addition starts a second timer, which stays live
    beside the first, and replaces the tracked peer set by an empty one. *)
Lemma added_twice_two_timers :
  Pooled.liveTimers "T" (Pooled.after 5 Pooled.addedAtInit) = [0]
  /\ Pooled.peersOf "T" (Pooled.after 5 Pooled.addedAtInit) = [1]
  /\ Pooled.liveTimers "T" (Pooled.after 5 Pooled.addedAgain) = [0; 1]
  /\ Pooled.peersOf "T" (Pooled.after 5 Pooled.addedAgain) = [].
Proof. repeat split; reflexivity. Qed.

(** Teardown of a torrent with a timer, an offer handle and one peer. *)
Lemma teardown_order_by_revision_witness :
  let s := Pooled.after 5 Pooled.firstPass in
  (forall h, In h (Pooled.handleOf "T" s) -> Pooled.cancelThrows Pooled.calm h = false)
  /\ Pooled.cleanup Pooled.calm "T" s
     = (true, exec (Pooled.cleanup Pooled.calm "T") s,
        Pooled.cleanupTrace Pooled.calm "T" s).
Proof.
  assert (H : forall h, In h (Pooled.handleOf "T" (Pooled.after 5 Pooled.firstPass)) ->
                        Pooled.cancelThrows Pooled.calm h = false)
    by (intros; reflexivity).
  split; [exact H|].
  exact (proj1 (proj2 teardown_order_by_revision Pooled.calm "T" _ H)).
Defined.

(** The pooled revision cancels the offer handle before it closes the
    peers. *)
Lemma pooled_teardown_offer_before_peers :
  effects (Pooled.cleanup Pooled.calm "T") (Pooled.after 5 Pooled.firstPass)
  = [Pooled.Log (Pooled.LCleaningUp "T"); Pooled.ClearInterval 0;
     Pooled.OfferCancel 7; Pooled.PeerClose 1]
  /\ claimedTeardownOrder Pooled.phase
       (effects (Pooled.cleanup Pooled.calm "T") (Pooled.after 5 Pooled.firstPass))
     = false.
Proof. split; reflexivity. Qed.


(** A pass of the pooled revision with an offer handle tracked and one of
    five peers. *)
Lemma offer_creation_by_revision_witness :
  let o := Pooled.resolveOptions (Pooled.sampleOptions 5) in
  let s := Pooled.after 5 Pooled.firstPass in
  Pooled.rondevu (Pooled.fields s) = Some "me"
  /\ (Pooled.peerCount "T" s < Pooled.maxPeersPerTorrent o)%Z
  /\ JsMap.has "T" (Pooled.torrentOfferHandles (Pooled.fields s)) = true
  /\ effects (Pooled.discoverPeersForTorrent o "T" Pooled.NoAwaiter) s
     = [Pooled.Log (Pooled.LDiscovering "T"); Pooled.CallDiscover "T" 4%Z].
Proof.
  split; [reflexivity|]. split; [reflexivity|]. split; [reflexivity|].
  exact (proj1 (proj1 (proj1 offer_creation_by_revision
                         (Pooled.resolveOptions (Pooled.sampleOptions 5)) "T"
                         Pooled.NoAwaiter (Pooled.after 5 Pooled.firstPass) "me"
                         eq_refl eq_refl) eq_refl)).
Defined.

(** The bloom-filter revision creates offer o2 in the second pass although
    o1 is tracked. *)
Lemma bloom_offer_created_every_pass :
  Bloom.offersOf "T" (Bloom.after 5 Bloom.firstPass) = ["o1"]
  /\ In (Bloom.CreateOffer 2 "T" 300000%Z) (Bloom.traceOf 5 Bloom.secondPass)
  /\ Bloom.offersOf "T" (Bloom.after 5 Bloom.secondPass) = ["o1"; "o2"].
Proof.
  split; [vm_compute; reflexivity|]. split; [vm_compute; tauto|].
  vm_compute; reflexivity.
Qed.

(** Two peers at a cap of 2 and a manual [discoverPeers]: the turn is one
    log line and [getStats] still reports 2. *)
Lemma pass_at_cap_returns_early_witness :
  let o := Bloom.resolveOptions (Bloom.sampleOptions 2 (Some "me")) in
  let s := Bloom.after 2 Bloom.bothConnect in
  (Bloom.maxPeersPerTorrent o - Bloom.peerCount "T" s <= 0)%Z
  /\ existsb (String.eqb "T") (Bloom.clientTorrents (Bloom.host s)) = true
  /\ Bloom.step o Bloom.calm (Bloom.EvDiscoverPeers "T") s
     = (tt, s, [Bloom.Log (Bloom.LMaxPeersReached "T")])
  /\ Bloom.st_torrents (Bloom.getStats o s) = [("T", 2%Z)].
Proof.
  assert (H : (Bloom.maxPeersPerTorrent (Bloom.resolveOptions (Bloom.sampleOptions 2 (Some "me")))
               - Bloom.peerCount "T" (Bloom.after 2 Bloom.bothConnect) <= 0)%Z)
    by (vm_compute; discriminate).
  split; [exact H|]. split; [reflexivity|]. split; [|reflexivity].
  destruct (proj1 pass_at_cap_returns_early _ Bloom.calm "T" _ H) as (_ & _ & M & _).
  apply M. reflexivity.
Defined.

(** Registration fails; a torrent is announced, a pass is asked for and
    the manager is destroyed. *)
Lemma failed_init_stays_inert_witness :
  let mo := Bloom.sampleOptions 5 None in
  let o := Bloom.resolveOptions mo in
  let s1 := exec (Bloom.step o Bloom.calm (Bloom.EvInitSettled Bloom.Rejected))
              (Bloom.constructed mo ["T"]) in
  Bloom.o_credentials mo = None
  /\ Bloom.inert
       (exec (Bloom.run o Bloom.calm
                [Bloom.EvTorrent "T"; Bloom.EvDiscoverPeers "T"; Bloom.EvDestroy]) s1).
Proof.
  split; [reflexivity|].
  destruct (proj1 failed_init_stays_inert (Bloom.sampleOptions 5 None) Bloom.calm ["T"] eq_refl)
    as (_ & _ & K).
  apply K.
Defined.

(** Peer 1 is tracked before and after its ['open'] event. *)
Lemma pooled_peer_counted_while_connecting_witness :
  let o := Pooled.resolveOptions (Pooled.sampleOptions 5) in
  let s := Pooled.after 5 Pooled.firstPass in
  Pooled.lifecycle "T" (Pooled.EvPeer 1 Pooled.Open) = false
  /\ Pooled.closesPeer 1 (Pooled.EvPeer 1 Pooled.Open) = false
  /\ In 1 (Pooled.peersOf "T" s)
  /\ In 1 (Pooled.peersOf "T" (exec (Pooled.step o Pooled.calm (Pooled.EvPeer 1 Pooled.Open)) s)).
Proof.
  assert (H : In 1 (Pooled.peersOf "T" (Pooled.after 5 Pooled.firstPass)))
    by (vm_compute; now left).
  split; [reflexivity|]. split; [reflexivity|]. split; [exact H|].
  destruct (pooled_peer_counted_while_connecting
              (Pooled.resolveOptions (Pooled.sampleOptions 5)) Pooled.calm "T")
    as (_ & _ & _ & _ & K).
  exact (K 1 (Pooled.EvPeer 1 Pooled.Open) _ eq_refl eq_refl H).
Defined.

(** C9 as stated fails: peer 1 is tracked for T and no ['close'] or
    ['error'] event fires on it, yet it leaves the set when the client
    emits ['torrent'] for T once more (the handler stores a new empty set)
    and when T is destroyed (the cleanup closure drops the set). *)
Lemma pooled_peer_dropped_without_close :
  In 1 (Pooled.peersOf "T" (Pooled.after 5 Pooled.addedAtInit))
  /\ Pooled.closesPeer 1 (Pooled.EvTorrent "T") = false
  /\ ~ In 1 (Pooled.peersOf "T"
               (exec (Pooled.step (Pooled.resolveOptions (Pooled.sampleOptions 5))
                        Pooled.calm (Pooled.EvTorrent "T"))
                     (Pooled.after 5 Pooled.addedAtInit)))
  /\ Pooled.closesPeer 1 (Pooled.EvDestroyed "T") = false
  /\ ~ In 1 (Pooled.peersOf "T"
               (exec (Pooled.step (Pooled.resolveOptions (Pooled.sampleOptions 5))
                        Pooled.calm (Pooled.EvDestroyed "T"))
                     (Pooled.after 5 Pooled.addedAtInit))).
Proof.
  split; [vm_compute; now left|]. split; [reflexivity|].
  split; [vm_compute; tauto|]. split; [reflexivity|]. vm_compute; tauto.
Qed.

(** An advertisement already answered by dave is passed over. *)
Lemma bloom_skips_answered_offer_witness :
  let o := Bloom.resolveOptions (Bloom.sampleOptions 5 (Some "me")) in
  let s := Bloom.after 5 Bloom.addedOnce in
  truthy (Bloom.ro_answererPeerId Bloom.taken) = true
  /\ Bloom.connectLoop o "T" (Some 0) [Bloom.taken; Bloom.bob] Bloom.NoAwaiter s
     = Bloom.connectLoop o "T" (Some 0) [Bloom.bob] Bloom.NoAwaiter s.
Proof.
  split; [reflexivity|].
  exact (proj1 (bloom_skips_answered_offer _ "T" (Some 0) Bloom.taken [Bloom.bob]
                  Bloom.NoAwaiter _ eq_refl)).
Defined.

(** ** What every event leaves in place *)

(** Walks a handler built from [bind], [gets], [emit], [modify] and the
    loops; [known] closes the parts already proved, [solve_mod] settles the
    state changes. *)
Ltac frame_using known solve_mod :=
  repeat first
    [ solve [known]
    | apply preserves_ret
    | apply preserves_gets
    | solve [apply preserves_emit; first [exact I | reflexivity]]
    | solve [apply preserves_modify; solve_mod]
    | apply preserves_bind; [|intros ?]
    | apply preserves_forEach; intros ? _
    | apply preserves_forEachOk; intros ? _
    | match goal with
      | |- preserves _ _ (match ?x with _ => _ end) => destruct x
      end
    | assumption ].

Ltac frame_with solve_mod := frame_using ltac:(fail) solve_mod.

Section BloomKeeps.
Import Bloom.
Variable o : Options.
Variable w : World.

Ltac keeps_mod :=
  idtac;
  let s := fresh "s" in
  let A := fresh "A" in
  let B := fresh "B" in
  let C := fresh "C" in
  let E := fresh "E" in
  intros s (A & B & C);
  split; [intros E; first [discriminate E | exact (A E)]|];
  split; [simpl; auto using incl_appl|];
  intros E; first [discriminate E | simpl; auto using incl_appl].

Ltac kframe := frame_with keeps_mod.

Lemma keeps_refl id tm s :
  (id = true -> initPending (runtime s) = false) -> keeps id tm s s.
Proof.
  intros P. split; [intros E; now rewrite (P E)|].
  split; [apply incl_refl | intros _; apply incl_refl].
Qed.

Lemma keeps_passReturns id tm s0 aw T :
  preserves (keeps id tm s0) anyCall (passReturns o aw T).
Proof. destruct aw; cbn [passReturns]; unfold handleTorrentAdded_resume; kframe. Qed.

Lemma keeps_connectLoop id tm s0 T bf offers aw :
  preserves (keeps id tm s0) anyCall (connectLoop o T bf offers aw).
Proof.
  induction offers as [|ro rest IH]; cbn [connectLoop].
  - apply keeps_passReturns.
  - unfold filterAdd, createPeer, log, park. kframe.
Qed.

Lemma keeps_pass id tm s0 T aw :
  preserves (keeps id tm s0) anyCall (discoverPeersForTorrent o T aw).
Proof.
  unfold discoverPeersForTorrent, createPeer, log, park.
  pose proof (keeps_passReturns id tm s0 aw T). kframe.
Qed.

Lemma keeps_resume id tm s0 t r k :
  resume o t r = Some k -> preserves (keeps id tm s0) anyCall k.
Proof.
  destruct t as [T cur p aw|T bf aw|T bf p ro rest aw|offerId]; destruct r;
    try discriminate; intros [= <-];
    try pose proof (keeps_passReturns id tm s0 aw T);
    try pose proof (keeps_connectLoop id tm s0 T bf rest aw);
    try (match goal with offers : list RemoteOffer |- _ =>
           pose proof (keeps_connectLoop id tm s0 T bf offers aw) end);
    unfold setupPeerHandlers, log, park; kframe.
Qed.

Lemma keeps_onPeerEvent id tm s0 p T e :
  preserves (keeps id tm s0) anyCall (onPeerEvent w p T e).
Proof. destruct e; cbn [onPeerEvent]; unfold log; kframe. Qed.

Lemma keeps_added id tm s0 T :
  preserves (keeps id tm s0) anyCall (handleTorrentAdded o T).
Proof.
  unfold handleTorrentAdded, newFilter, log.
  pose proof (keeps_pass id tm s0 T AddedHandler). kframe.
Qed.

(** Teardown stops timers; everything else it leaves. *)
Lemma keeps_cleanup id s0 T :
  preserves (keeps id false s0) anyCall (cleanup w T).
Proof. unfold cleanup, closePeer, deleteOffer, log, park. kframe. Qed.

Lemma keeps_step id tm s0 ev :
  (tm = true -> tearsDown ev = false) ->
  preserves (keeps id tm s0) anyCall (step o w ev).
Proof.
  intros Htm. destruct ev; cbn [step].
  - apply preserves_gets_bind. intros s H.
    destruct (initPending (runtime s)) eqn:P; [|split; [exact H | constructor]].
    destruct id.
    { destruct H as (A & _). destruct (A eq_refl) as (A1 & _). congruence. }
    match goal with |- keeps _ _ _ (exec ?m s) /\ _ =>
      assert (K : preserves (keeps false tm s0) anyCall m) end.
    { destruct r; cbn [initialize_resume]; try apply preserves_ret.
      - unfold log. kframe.
      - unfold attachListeners, log. kframe. all: apply keeps_added. }
    apply K, H.
  - kframe.
  - pose proof (keeps_added id tm s0 infoHash). kframe.
  - destruct tm; [specialize (Htm eq_refl); discriminate|].
    kframe. all: apply keeps_cleanup.
  - apply preserves_bind; [apply preserves_gets | intros [[? T]|]];
      [apply keeps_pass | apply preserves_ret].
  - apply preserves_gets_bind. intros s H.
    destruct (findTask task s) as [t|]; [|split; [exact H | constructor]].
    destruct (resume o t r) as [k|] eqn:R; [|split; [exact H | constructor]].
    assert (K : preserves (keeps id tm s0) anyCall (bind (modify (dropTask task)) (fun _ => k))).
    { apply preserves_bind; [|intros _; eapply keeps_resume; eauto].
      unfold dropTask. kframe. }
    apply K, H.
  - kframe. all: apply keeps_onPeerEvent.
  - unfold discoverPeers, log. pose proof (keeps_pass id tm s0 infoHash NoAwaiter). kframe.
  - destruct tm; [specialize (Htm eq_refl); discriminate|].
    unfold destroy, log. kframe. all: apply keeps_cleanup.
Qed.

Lemma keeps_run id tm s0 evs :
  (tm = true -> forallb (fun ev => negb (tearsDown ev)) evs = true) ->
  preserves (keeps id tm s0) anyCall (run o w evs).
Proof.
  induction evs as [|ev evs IH]; cbn [run forallb]; intros H.
  - apply preserves_ret.
  - apply preserves_bind; [apply keeps_step | intros _; apply IH]; intros E;
      specialize (H E); apply andb_true_iff in H; destruct H as [H1 H2]; auto.
    now apply negb_true_iff.
Qed.
End BloomKeeps.

Lemma liveTimers_incl {A} (f : A * string -> bool) (l l' : list (A * string)) x :
  incl l l' -> In x (map fst (filter f l)) -> In x (map fst (filter f l')).
Proof.
  intros H Hx. apply in_map_iff in Hx. destruct Hx as (e & <- & He).
  apply filter_In in He. destruct He as [He Hf].
  apply in_map. apply filter_In. split; [now apply H | exact Hf].
Qed.

(** X1.  Bloom-filter revision.  Once [initialize] has returned with the
    ['torrent'] listener attached, no later event changes the credentials
    ([getCredentials]) or detaches the listener, [destroy] included: a
    torrent the client announces afterwards is tracked again, with a new
    empty peer set. *)
Theorem bloom_destroy_leaves_manager_listening :
  forall o w s evs infoHash,
    Bloom.initPending (Bloom.runtime s) = false ->
    Bloom.torrentListener (Bloom.host s) = true ->
    let s' := exec (Bloom.run o w evs) s in
    Bloom.getCredentials s' = Bloom.getCredentials s
    /\ Bloom.torrentListener (Bloom.host s') = true
    /\ JsMap.get infoHash
         (Bloom.torrentPeers
            (Bloom.fields (exec (Bloom.step o w (Bloom.EvTorrent infoHash)) s')))
       = Some [].
Proof.
  intros o w s evs T P L s'.
  destruct (keeps_run o w true false s evs (fun E => False_ind _ (diff_false_true E)) s
              (keeps_refl true false s (fun _ => P))) as [(A & _) _].
  destruct (A eq_refl) as (_ & C & L'). fold s' in C, L'.
  split; [exact C|]. split; [congruence|].
  cbn [Bloom.step]. rewrite exec_gets_bind, L', L.
  rewrite bloom_added_peers. apply get_set_same.
Qed.

(** X2.  Bloom-filter revision.  A refresh timer is stopped by teardown
    only (the torrent's ['destroyed'] event or [destroy]): through every
    other event, a pass or an answer that is rejected among them, a live
    timer of a torrent stays live. *)
Theorem bloom_timer_stopped_only_by_teardown :
  forall o w s evs infoHash timer,
    forallb (fun ev => negb (Bloom.tearsDown ev)) evs = true ->
    In timer (Bloom.liveTimers infoHash s) ->
    In timer (Bloom.liveTimers infoHash (exec (Bloom.run o w evs) s)).
Proof.
  intros o w s evs T tm H Hin.
  destruct (keeps_run o w false true s evs (fun _ => H) s
              (keeps_refl false true s (fun E => False_ind _ (diff_false_true E))))
    as [(_ & _ & C) _].
  unfold Bloom.liveTimers in *. eapply liveTimers_incl; [apply C; reflexivity | exact Hin].
Qed.

Section PooledKeeps.
Import Pooled.
Variable o : Options.
Variable w : World.

Ltac keeps_mod :=
  idtac;
  let s := fresh "s" in
  let A := fresh "A" in
  let B := fresh "B" in
  let B' := fresh "D" in
  let C := fresh "C" in
  let E := fresh "E" in
  intros s (A & B & B' & C);
  split; [intros E; first [discriminate E | exact (A E)]|];
  split; [simpl; auto using incl_appl|];
  split; [simpl; auto using incl_appl|];
  intros E; first [discriminate E | simpl; auto using incl_appl].

Ltac kframe := frame_with keeps_mod.

Lemma pooled_keeps_refl id tm s :
  (id = true -> initPending (runtime s) = false) -> keeps id tm s s.
Proof.
  intros P. split; [intros E; now rewrite (P E)|].
  split; [apply incl_refl|]. split; [apply incl_refl | intros _; apply incl_refl].
Qed.

Lemma pooled_keeps_passReturns id tm s0 aw T :
  preserves (keeps id tm s0) anyCall (passReturns o aw T).
Proof. destruct aw; cbn [passReturns]; unfold handleTorrentAdded_resume; kframe. Qed.

Lemma pooled_keeps_connectLoop id tm s0 T offers aw :
  preserves (keeps id tm s0) anyCall (connectLoop o T offers aw).
Proof.
  pose proof (pooled_keeps_passReturns id tm s0 aw T).
  induction offers as [|ro rest IH]; cbn [connectLoop].
  - assumption.
  - unfold log, park. kframe.
Qed.

Lemma pooled_keeps_pass id tm s0 T aw :
  preserves (keeps id tm s0) anyCall (discoverPeersForTorrent o T aw).
Proof.
  unfold discoverPeersForTorrent, discover, log, park.
  pose proof (pooled_keeps_passReturns id tm s0 aw T). kframe.
Qed.

Lemma pooled_keeps_resume id tm s0 t r k :
  resume o t r = Some k -> preserves (keeps id tm s0) anyCall k.
Proof.
  destruct t as [T cur aw|T aw|T ro rest aw]; destruct r;
    try discriminate; intros [= <-];
    pose proof (pooled_keeps_passReturns id tm s0 aw T);
    try pose proof (pooled_keeps_connectLoop id tm s0 T rest aw);
    try (match goal with offers : list RemoteOffer |- _ =>
           pose proof (pooled_keeps_connectLoop id tm s0 T offers aw) end);
    unfold discover, log, park; kframe.
Qed.

Lemma pooled_keeps_onPeerEvent id tm s0 p T e :
  preserves (keeps id tm s0) anyCall (onPeerEvent w p T e).
Proof. destruct e; cbn [onPeerEvent]; unfold log; kframe. Qed.

Lemma pooled_keeps_added id tm s0 T :
  preserves (keeps id tm s0) anyCall (handleTorrentAdded o T).
Proof.
  unfold handleTorrentAdded, log.
  pose proof (pooled_keeps_pass id tm s0 T AddedHandler). kframe.
Qed.

Lemma pooled_keeps_cleanup id s0 T :
  preserves (keeps id false s0) anyCall (cleanup w T).
Proof. unfold cleanup, cleanup_peers, closePeer, log. kframe. Qed.

Lemma pooled_keeps_step id tm s0 ev :
  (tm = true -> tearsDown ev = false) ->
  preserves (keeps id tm s0) anyCall (step o w ev).
Proof.
  intros Htm. destruct ev; cbn [step].
  - apply preserves_gets_bind. intros s H.
    destruct (initPending (runtime s)) eqn:P; [|split; [exact H | constructor]].
    destruct id.
    { destruct H as (A & _). destruct (A eq_refl) as (A1 & _). congruence. }
    match goal with |- keeps _ _ _ (exec ?m s) /\ _ =>
      assert (K : preserves (keeps false tm s0) anyCall m) end.
    { destruct r; cbn [initialize_resume]; try apply preserves_ret.
      - unfold log. kframe.
      - unfold attachListeners, log. kframe. all: apply pooled_keeps_added. }
    apply K, H.
  - kframe.
  - pose proof (pooled_keeps_added id tm s0 infoHash). kframe.
  - destruct tm; [specialize (Htm eq_refl); discriminate|].
    kframe. all: apply pooled_keeps_cleanup.
  - apply preserves_bind; [apply preserves_gets | intros [[? T]|]];
      [apply pooled_keeps_pass | apply preserves_ret].
  - apply preserves_gets_bind. intros s H.
    destruct (findTask task s) as [t|]; [|split; [exact H | constructor]].
    destruct (resume o t r) as [k|] eqn:R; [|split; [exact H | constructor]].
    assert (K : preserves (keeps id tm s0) anyCall (bind (modify (dropTask task)) (fun _ => k))).
    { apply preserves_bind; [|intros _; eapply pooled_keeps_resume; eauto].
      unfold dropTask. kframe. }
    apply K, H.
  - kframe. all: apply pooled_keeps_onPeerEvent.
  - unfold onConnectionOpened, log. kframe.
  - unfold onConnectionConnected, log. kframe.
  - unfold discoverPeers, log. pose proof (pooled_keeps_pass id tm s0 infoHash NoAwaiter). kframe.
  - destruct tm; [specialize (Htm eq_refl); discriminate|].
    unfold destroy, log. kframe. all: apply pooled_keeps_cleanup.
Qed.

Lemma pooled_keeps_run id tm s0 evs :
  (tm = true -> forallb (fun ev => negb (tearsDown ev)) evs = true) ->
  preserves (keeps id tm s0) anyCall (run o w evs).
Proof.
  induction evs as [|ev evs IH]; cbn [run forallb]; intros H.
  - apply preserves_ret.
  - apply preserves_bind; [apply pooled_keeps_step | intros _; apply IH]; intros E;
      specialize (H E); apply andb_true_iff in H; destruct H as [H1 H2]; auto.
    now apply negb_true_iff.
Qed.
End PooledKeeps.

(** X3.  Pooled revision.  Once [initialize] has returned with the client
    connected and the ['torrent'] listener attached, no later event
    clears [this.rondevu] (the name [getStats] reports) or detaches the
    listener, [destroy] included: a torrent the client announces afterwards
    is tracked again, with a new empty peer set. *)
Theorem pooled_destroy_leaves_manager_listening :
  forall o w s evs infoHash name,
    Pooled.initPending (Pooled.runtime s) = false ->
    Pooled.rondevu (Pooled.fields s) = Some name ->
    Pooled.torrentListener (Pooled.host s) = true ->
    let s' := exec (Pooled.run o w evs) s in
    Pooled.st_username (Pooled.getStats o s') = Some name
    /\ Pooled.torrentListener (Pooled.host s') = true
    /\ JsMap.get infoHash
         (Pooled.torrentPeers
            (Pooled.fields (exec (Pooled.step o w (Pooled.EvTorrent infoHash)) s')))
       = Some [].
Proof.
  intros o w s evs T name P R L s'.
  destruct (pooled_keeps_run o w true false s evs (fun E => False_ind _ (diff_false_true E)) s
              (pooled_keeps_refl true false s (fun _ => P))) as [(A & _) _].
  destruct (A eq_refl) as (_ & C & L'). fold s' in C, L'.
  assert (R' : Pooled.rondevu (Pooled.fields s') = Some name) by congruence.
  split; [exact R'|]. split; [congruence|].
  cbn [Pooled.step]. rewrite exec_gets_bind, L', L.
  rewrite (pooled_added_peers o T s' name R'). apply get_set_same.
Qed.

(** X4.  Pooled revision.  A refresh timer is stopped by teardown only
    (the torrent's ['destroyed'] event or [destroy]): through every other
    event, a rejected offer, query or connection attempt among them, a
    live timer of a torrent stays live. *)
Theorem pooled_timer_stopped_only_by_teardown :
  forall o w s evs infoHash timer,
    forallb (fun ev => negb (Pooled.tearsDown ev)) evs = true ->
    In timer (Pooled.liveTimers infoHash s) ->
    In timer (Pooled.liveTimers infoHash (exec (Pooled.run o w evs) s)).
Proof.
  intros o w s evs T tm H Hin.
  destruct (pooled_keeps_run o w false true s evs (fun _ => H) s
              (pooled_keeps_refl false true s (fun E => False_ind _ (diff_false_true E))))
    as [(_ & _ & _ & C) _].
  unfold Pooled.liveTimers in *. eapply liveTimers_incl; [apply C; reflexivity | exact Hin].
Qed.

Section PooledInbound.
Import Pooled.
Variable o : Options.
Variable w : World.

Lemma incoming_app conn t1 t2 :
  incoming conn (t1 ++ t2) = incoming conn t1 ++ incoming conn t2.
Proof. unfold incoming. apply flat_map_app. Qed.

Lemma opened_keeps_handler conn T T' s :
  In (conn, T) (connectionHandlers (host s)) ->
  In (conn, T) (connectionHandlers (host (exec (onConnectionOpened conn T') s))).
Proof. intros H. unfold onConnectionOpened, exec, log, bind, emit, modify. simpl. apply in_or_app. now left. Qed.

Lemma opened_registers conn T ls :
  In T ls ->
  forall s, In (conn, T) (connectionHandlers (host (exec (forEach ls (onConnectionOpened conn)) s))).
Proof.
  induction ls as [|T' ls IH]; intros Hin s; [destruct Hin|].
  cbn [forEach]. rewrite exec_bind. destruct Hin as [->|Hin].
  - assert (K : preserves (fun s => In (conn, T) (connectionHandlers (host s))) anyCall
                  (forEach ls (onConnectionOpened conn))).
    { apply preserves_forEach. intros x _ s1 H1. split; [|apply any_calls].
      now apply opened_keeps_handler. }
    apply K. unfold onConnectionOpened, exec, log, bind, emit, modify. simpl.
    apply in_or_app. right. now left.
  - now apply IH.
Qed.

Lemma connected_hands_over conn T hs :
  connHasPeerConnection w conn = true ->
  In (conn, T) hs ->
  forall s, In T (incoming conn
                    (effects (forEach hs (fun h => onConnectionConnected w conn (snd h))) s)).
Proof.
  intros Hpc. induction hs as [|h hs IH]; intros Hin s; [destruct Hin|].
  cbn [forEach]. rewrite effects_bind, incoming_app. apply in_or_app.
  destruct Hin as [->|Hin].
  - left. unfold onConnectionConnected. rewrite Hpc. cbn [snd].
    destruct (addIncomingThrows w conn);
      unfold effects, incoming, log, bind, emit; simpl; rewrite Nat.eqb_refl; now left.
  - right. now apply IH.
Qed.

Lemma inbound_fields ev conn s :
  ev = EvConnectionOpened conn \/ ev = EvConnectionConnected conn ->
  fields (exec (step o w ev) s) = fields s
  /\ clientTorrents (host (exec (step o w ev) s)) = clientTorrents (host s).
Proof.
  intros H.
  assert (K : preserves (fun s' => fields s' = fields s
                                  /\ clientTorrents (host s') = clientTorrents (host s))
                anyCall (step o w ev)).
  { destruct H as [-> | ->]; cbn [step];
      unfold onConnectionOpened, onConnectionConnected, log;
      frame_with ltac:(idtac; intros ? [? ?]; split; simpl; assumption). }
  apply K. now split.
Qed.
End PooledInbound.

(** X5.  Pooled revision.  The ['connection:opened'] listener that a
    torrent's first offer pool registers is never removed and looks at no
    offer id: whatever events follow (the torrent destroyed, [destroy]
    called), every inbound connection that has a peer connection is handed
    to that torrent's [addPeer] when it connects. *)
Theorem pooled_inbound_reaches_every_pool :
  forall o w s evs conn infoHash,
    In infoHash (Pooled.connectionListeners (Pooled.host s)) ->
    Pooled.connHasPeerConnection w conn = true ->
    let s' := exec (Pooled.run o w evs) s in
    In infoHash
       (Pooled.incoming conn
          (effects (bind (Pooled.step o w (Pooled.EvConnectionOpened conn))
                         (fun _ => Pooled.step o w (Pooled.EvConnectionConnected conn)))
                   s')).
Proof.
  intros o w s evs conn T Hin Hpc s'.
  destruct (pooled_keeps_run o w false false s evs (fun E => False_ind _ (diff_false_true E)) s
              (pooled_keeps_refl false false s (fun E => False_ind _ (diff_false_true E))))
    as [(_ & B & _) _].
  apply B in Hin. fold s' in Hin.
  rewrite effects_bind, incoming_app. apply in_or_app. right.
  cbn [Pooled.step]. rewrite effects_gets_bind.
  apply connected_hands_over; [exact Hpc|].
  apply filter_In. split; [|apply Nat.eqb_refl].
  rewrite exec_gets_bind. now apply opened_registers.
Qed.

(** X6.  Pooled revision.  An inbound connection is never tracked: its
    ['connection:opened'] and ['connected'] events leave every private map
    as it is, so the peer it adds to the torrent is not counted by the
    capacity check and not reported by [getStats]. *)
Theorem pooled_inbound_not_tracked :
  forall o w s conn ev infoHash,
    ev = Pooled.EvConnectionOpened conn \/ ev = Pooled.EvConnectionConnected conn ->
    Pooled.fields (exec (Pooled.step o w ev) s) = Pooled.fields s
    /\ Pooled.peerCount infoHash (exec (Pooled.step o w ev) s) = Pooled.peerCount infoHash s
    /\ Pooled.getStats o (exec (Pooled.step o w ev) s) = Pooled.getStats o s.
Proof.
  intros o w s conn ev T H.
  destruct (inbound_fields o w ev conn s H) as [F C].
  split; [exact F|]. split.
  - unfold Pooled.peerCount. now rewrite F.
  - unfold Pooled.getStats. now rewrite F, C.
Qed.

(** T is tracked with a timer, an offer and a parked answer; [destroy]
    runs, and the client announces U. *)
Lemma bloom_destroy_leaves_manager_listening_witness :
  Bloom.initPending (Bloom.runtime (Bloom.after 5 Bloom.firstPass)) = false
  /\ Bloom.torrentListener (Bloom.host (Bloom.after 5 Bloom.firstPass)) = true
  /\ JsMap.get "U"
       (Bloom.torrentPeers
          (Bloom.fields
             (exec (Bloom.step (Bloom.resolveOptions (Bloom.sampleOptions 5 (Some "me")))
                      Bloom.calm (Bloom.EvTorrent "U"))
                (exec (Bloom.run (Bloom.resolveOptions (Bloom.sampleOptions 5 (Some "me")))
                         Bloom.calm [Bloom.EvDestroy])
                   (Bloom.after 5 Bloom.firstPass)))))
     = Some [].
Proof.
  split; [reflexivity|]. split; [reflexivity|].
  exact (proj2 (proj2 (bloom_destroy_leaves_manager_listening
                         (Bloom.resolveOptions (Bloom.sampleOptions 5 (Some "me")))
                         Bloom.calm (Bloom.after 5 Bloom.firstPass) [Bloom.EvDestroy] "U"
                         eq_refl eq_refl))).
Defined.

(** The timer of T fires and the pass it starts is rejected: timer 0 is
    still live. *)
Lemma bloom_timer_stopped_only_by_teardown_witness :
  forallb (fun ev => negb (Bloom.tearsDown ev))
    [Bloom.EvTick 0; Bloom.EvSettle 3 Bloom.Rejected] = true
  /\ In 0 (Bloom.liveTimers "T" (Bloom.after 5 Bloom.firstPass))
  /\ In 0 (Bloom.liveTimers "T"
             (exec (Bloom.run (Bloom.resolveOptions (Bloom.sampleOptions 5 (Some "me")))
                      Bloom.calm [Bloom.EvTick 0; Bloom.EvSettle 3 Bloom.Rejected])
                (Bloom.after 5 Bloom.firstPass))).
Proof.
  assert (H : In 0 (Bloom.liveTimers "T" (Bloom.after 5 Bloom.firstPass)))
    by (vm_compute; now left).
  split; [reflexivity|]. split; [exact H|].
  exact (bloom_timer_stopped_only_by_teardown
           (Bloom.resolveOptions (Bloom.sampleOptions 5 (Some "me"))) Bloom.calm
           (Bloom.after 5 Bloom.firstPass)
           [Bloom.EvTick 0; Bloom.EvSettle 3 Bloom.Rejected] "T" 0 eq_refl H).
Defined.

Lemma pooled_destroy_leaves_manager_listening_witness :
  Pooled.initPending (Pooled.runtime (Pooled.after 5 Pooled.firstPass)) = false
  /\ Pooled.rondevu (Pooled.fields (Pooled.after 5 Pooled.firstPass)) = Some "me"
  /\ Pooled.torrentListener (Pooled.host (Pooled.after 5 Pooled.firstPass)) = true
  /\ JsMap.get "U"
       (Pooled.torrentPeers
          (Pooled.fields
             (exec (Pooled.step (Pooled.resolveOptions (Pooled.sampleOptions 5))
                      Pooled.calm (Pooled.EvTorrent "U"))
                (exec (Pooled.run (Pooled.resolveOptions (Pooled.sampleOptions 5))
                         Pooled.calm [Pooled.EvDestroy])
                   (Pooled.after 5 Pooled.firstPass)))))
     = Some [].
Proof.
  split; [reflexivity|]. split; [reflexivity|]. split; [reflexivity|].
  exact (proj2 (proj2 (pooled_destroy_leaves_manager_listening
                         (Pooled.resolveOptions (Pooled.sampleOptions 5))
                         Pooled.calm (Pooled.after 5 Pooled.firstPass) [Pooled.EvDestroy]
                         "U" "me" eq_refl eq_refl eq_refl))).
Defined.

(** The timer of T fires and the query of the pass it starts is rejected:
    timer 0 is still live. *)
Lemma pooled_timer_stopped_only_by_teardown_witness :
  forallb (fun ev => negb (Pooled.tearsDown ev))
    [Pooled.EvTick 0; Pooled.EvSettle 3 Pooled.Rejected] = true
  /\ In 0 (Pooled.liveTimers "T" (Pooled.after 5 Pooled.firstPass))
  /\ In 0 (Pooled.liveTimers "T"
             (exec (Pooled.run (Pooled.resolveOptions (Pooled.sampleOptions 5))
                      Pooled.calm [Pooled.EvTick 0; Pooled.EvSettle 3 Pooled.Rejected])
                (Pooled.after 5 Pooled.firstPass))).
Proof.
  assert (H : In 0 (Pooled.liveTimers "T" (Pooled.after 5 Pooled.firstPass)))
    by (vm_compute; now left).
  split; [reflexivity|]. split; [exact H|].
  exact (pooled_timer_stopped_only_by_teardown
           (Pooled.resolveOptions (Pooled.sampleOptions 5)) Pooled.calm
           (Pooled.after 5 Pooled.firstPass)
           [Pooled.EvTick 0; Pooled.EvSettle 3 Pooled.Rejected] "T" 0 eq_refl H).
Defined.

(** T has an offer pool; T is destroyed; connection 9 comes in and is
    handed to T. *)
Lemma pooled_inbound_reaches_every_pool_witness :
  In "T" (Pooled.connectionListeners (Pooled.host (Pooled.after 5 Pooled.firstPass)))
  /\ Pooled.connHasPeerConnection Pooled.calm 9 = true
  /\ In "T"
       (Pooled.incoming 9
          (effects (bind (Pooled.step (Pooled.resolveOptions (Pooled.sampleOptions 5))
                            Pooled.calm (Pooled.EvConnectionOpened 9))
                         (fun _ => Pooled.step (Pooled.resolveOptions (Pooled.sampleOptions 5))
                                     Pooled.calm (Pooled.EvConnectionConnected 9)))
             (exec (Pooled.run (Pooled.resolveOptions (Pooled.sampleOptions 5))
                      Pooled.calm [Pooled.EvDestroyed "T"])
                (Pooled.after 5 Pooled.firstPass)))).
Proof.
  assert (H : In "T" (Pooled.connectionListeners (Pooled.host (Pooled.after 5 Pooled.firstPass))))
    by (vm_compute; now left).
  split; [exact H|]. split; [reflexivity|].
  exact (pooled_inbound_reaches_every_pool
           (Pooled.resolveOptions (Pooled.sampleOptions 5)) Pooled.calm
           (Pooled.after 5 Pooled.firstPass) [Pooled.EvDestroyed "T"] 9 "T" H eq_refl).
Defined.

(** Connection 9 connects: the peer count of T is as before. *)
Lemma pooled_inbound_not_tracked_witness :
  Pooled.peerCount "T"
    (exec (Pooled.step (Pooled.resolveOptions (Pooled.sampleOptions 5)) Pooled.calm
             (Pooled.EvConnectionConnected 9))
       (Pooled.after 5 Pooled.firstPass))
  = Pooled.peerCount "T" (Pooled.after 5 Pooled.firstPass).
Proof.
  exact (proj1 (proj2 (pooled_inbound_not_tracked
                         (Pooled.resolveOptions (Pooled.sampleOptions 5)) Pooled.calm
                         (Pooled.after 5 Pooled.firstPass) 9
                         (Pooled.EvConnectionConnected 9) "T" (or_intror eq_refl)))).
Defined.

(** ** A whole pass, one settlement after the other *)

Lemma bind_assoc {S E A B C} (m : M S E A) (f : A -> M S E B) (g : B -> M S E C) s :
  bind (bind m f) g s = bind m (fun x => bind (f x) g) s.
Proof.
  unfold bind. destruct (m s) as [[a s1] e1]. destruct (f a s1) as [[b s2] e2].
  destruct (g b s2) as [[c s3] e3]. now rewrite app_assoc.
Qed.

Lemma effects_bind_of {S E A B} (m : M S E A) (f : A -> M S E B) s a s1 e1 :
  m s = (a, s1, e1) -> effects (bind m f) s = e1 ++ effects (f a) s1.
Proof. intros H. rewrite effects_bind. unfold effects, exec. now rewrite H. Qed.

Lemma find_fresh {T} k (t : T) l :
  Forall (fun kt => fst kt < k) l ->
  find (fun e => Nat.eqb (fst e) k) (l ++ [(k, t)]) = Some (k, t).
Proof.
  induction 1 as [|x l Hx _ IH]; simpl; [now rewrite Nat.eqb_refl|].
  destruct (Nat.eqb_spec (fst x) k); [lia | exact IH].
Qed.

Lemma filter_fresh {T} k (t : T) l :
  Forall (fun kt => fst kt < k) l ->
  filter (fun e => negb (Nat.eqb (fst e) k)) (l ++ [(k, t)]) = l.
Proof.
  induction 1 as [|x l Hx _ IH]; simpl; [now rewrite Nat.eqb_refl|].
  destruct (Nat.eqb_spec (fst x) k); [lia | simpl; now rewrite IH].
Qed.

Lemma bind_gets {S E A B} (f : S -> A) (k : A -> M S E B) s :
  bind (gets f) k s = k (f s) s.
Proof. unfold bind, gets. destruct (k (f s) s) as [[b s2] e2]. reflexivity. Qed.

Lemma bind_modify {S E B} (f : S -> S) (k : unit -> M S E B) s :
  bind (modify f) k s = k tt (f s).
Proof. unfold bind, modify. destruct (k tt (f s)) as [[b s2] e2]. reflexivity. Qed.

Lemma bind_emit {S E B} (e : E) (k : unit -> M S E B) s :
  bind (emit e) k s = (fst (fst (k tt s)), snd (fst (k tt s)), e :: snd (k tt s)).
Proof. unfold bind, emit. destruct (k tt s) as [[b s2] e2]. reflexivity. Qed.

Lemma bind_ext {S E A B} (m : M S E A) (f g : A -> M S E B) s :
  (forall a s1, f a s1 = g a s1) -> bind m f s = bind m g s.
Proof. intros H. unfold bind. destruct (m s) as [[a s1] e1]. now rewrite H. Qed.

Lemma bind_cong_l {S E A B} (m m' : M S E A) (f : A -> M S E B) s :
  m s = m' s -> bind m f s = bind m' f s.
Proof. intros H. unfold bind. now rewrite H. Qed.

Lemma snd_bind_of {S E A B} (m : M S E A) (f : A -> M S E B) s a s1 e1 :
  m s = (a, s1, e1) -> snd (bind m f s) = e1 ++ snd (f a s1).
Proof. intros H. unfold bind. rewrite H. destruct (f a s1) as [[b s2] e2]. reflexivity. Qed.

Section PooledPass.
Import Pooled.
Variable o : Options.
Variable w : World.

Lemma pooled_passReturns_attempts aw T s :
  attempts (effects (passReturns o aw T) s) = [].
Proof. destruct aw; reflexivity. Qed.

Lemma pooled_bind_park {A} t (k : unit -> Act A) s :
  bind (park t) k s = k tt (exec (park t) s).
Proof. unfold park. rewrite bind_assoc, bind_gets, bind_modify. reflexivity. Qed.

Lemma pooled_settle_latest t r go s1 k0 :
  nextTask (runtime s1) = S k0 ->
  findTask k0 s1 = Some t ->
  resume o t r = Some go ->
  settleLatest o w r s1 = bind (modify (dropTask k0)) (fun _ => go) s1.
Proof.
  intros N F R. unfold settleLatest. rewrite bind_gets, N. cbn [pred step].
  rewrite bind_gets, F, R. reflexivity.
Qed.

Lemma pooled_park_found t s :
  freshTasks s ->
  nextTask (runtime (exec (park t) s)) = S (nextTask (runtime s))
  /\ findTask (nextTask (runtime s)) (exec (park t) s) = Some t
  /\ tasks (runtime (dropTask (nextTask (runtime s)) (exec (park t) s))) = tasks (runtime s).
Proof.
  intros F. unfold park, exec, bind, gets, modify, findTask, dropTask. simpl.
  rewrite (find_fresh _ _ _ F), (filter_fresh _ _ _ F). auto.
Qed.

Lemma attempts_app t1 t2 : attempts (t1 ++ t2) = attempts t1 ++ attempts t2.
Proof. unfold attempts. apply flat_map_app. Qed.

Lemma pooled_fresh_after s s2 :
  freshTasks s ->
  tasks (runtime s2) = tasks (runtime s) ->
  nextTask (runtime s2) = S (nextTask (runtime s)) ->
  freshTasks s2.
Proof.
  unfold freshTasks. intros F -> ->. eapply Forall_impl; [|exact F].
  simpl. intros; lia.
Qed.

Lemma pooled_pass_attempts T aw name offers :
  forall rs s,
    rondevu (fields s) = Some name ->
    freshTasks s ->
    forallb attemptOutcome rs = true ->
    length rs = length (eligible name offers) ->
    attempts (snd (bind (connectLoop o T offers aw)
                        (fun _ => forEach rs (settleLatest o w)) s))
    = map ro_username (eligible name offers).
Proof.
  induction offers as [|ro rest IH]; intros rs s R F A L.
  - destruct rs; [|discriminate]. cbn [connectLoop eligible filter map forEach].
    change (snd (bind (passReturns o aw T) (fun _ => ret tt) s))
      with (effects (bind (passReturns o aw T) (fun _ => ret tt)) s).
    rewrite effects_bind, attempts_app, pooled_passReturns_attempts. reflexivity.
  - cbn [connectLoop]. rewrite bind_assoc, bind_gets, R.
    unfold eligible in *. cbn [filter] in *.
    destruct (String.eqb (ro_username ro) name) eqn:N; cbn [negb] in *.
    + now apply IH.
    + destruct rs as [|r rs]; [discriminate|]. cbn [map length forallb forEach] in *.
      apply andb_true_iff in A. destruct A as [Ar A]. injection L as L.
      unfold log. rewrite bind_assoc, bind_emit. cbn [snd attempts flat_map app].
      rewrite bind_assoc, bind_emit. cbn [snd attempts flat_map app]. f_equal.
      rewrite pooled_bind_park.
      destruct (pooled_park_found (AwaitPeer T ro rest aw) s F) as (N1 & N2 & N3).
      destruct r; try discriminate.
      * rewrite (bind_cong_l _ _ _ _
                   (pooled_settle_latest _ Rejected _ _ _ N1 N2 eq_refl)).
        rewrite bind_assoc, bind_modify. unfold log.
        rewrite bind_assoc, bind_emit. cbn [snd attempts flat_map app].
        apply IH; auto.
        eapply pooled_fresh_after; eauto.
      * rewrite (bind_cong_l _ _ _ _
                   (pooled_settle_latest _ (PeerReady peer) _ _ _ N1 N2 eq_refl)).
        rewrite bind_assoc, bind_modify, bind_assoc, bind_modify, bind_assoc, bind_modify.
        apply IH; auto.
        eapply pooled_fresh_after; eauto.
Qed.
End PooledPass.

Section BloomPass.
Import Bloom.
Variable o : Options.
Variable w : World.

Lemma bloom_passReturns_answered aw T s :
  answered (effects (passReturns o aw T) s) = [].
Proof. destruct aw; reflexivity. Qed.

Lemma bloom_bind_park {A} t (k : unit -> Act A) s :
  bind (park t) k s = k tt (exec (park t) s).
Proof. unfold park. rewrite bind_assoc, bind_gets, bind_modify. reflexivity. Qed.

Lemma bloom_settle_latest t r go s1 k0 :
  nextTask (runtime s1) = S k0 ->
  findTask k0 s1 = Some t ->
  resume o t r = Some go ->
  settleLatest o w r s1 = bind (modify (dropTask k0)) (fun _ => go) s1.
Proof.
  intros N F R. unfold settleLatest. rewrite bind_gets, N. cbn [pred step].
  rewrite bind_gets, F, R. reflexivity.
Qed.

Lemma bloom_park_found t s :
  freshTasks s ->
  nextTask (runtime (exec (park t) s)) = S (nextTask (runtime s))
  /\ findTask (nextTask (runtime s)) (exec (park t) s) = Some t
  /\ tasks (runtime (dropTask (nextTask (runtime s)) (exec (park t) s))) = tasks (runtime s).
Proof.
  intros F. unfold park, exec, bind, gets, modify, findTask, dropTask. simpl.
  rewrite (find_fresh _ _ _ F), (filter_fresh _ _ _ F). auto.
Qed.

Lemma answered_app t1 t2 : answered (t1 ++ t2) = answered t1 ++ answered t2.
Proof. unfold answered. apply flat_map_app. Qed.

Lemma bloom_fresh_after s s2 :
  freshTasks s ->
  tasks (runtime s2) = tasks (runtime s) ->
  nextTask (runtime s2) = S (nextTask (runtime s)) ->
  freshTasks s2.
Proof.
  unfold freshTasks. intros F -> ->. eapply Forall_impl; [|exact F].
  simpl. intros; lia.
Qed.

Lemma bloom_bind_filterAdd {A} bf x (k : unit -> Act A) s :
  bind (filterAdd bf x) k s = k tt (exec (filterAdd bf x) s).
Proof.
  destruct bf; cbn [filterAdd]; [now rewrite bind_modify|].
  unfold bind, ret, exec. simpl. destruct (k tt s) as [[b s2] e2]. reflexivity.
Qed.

Lemma bloom_filterAdd_runtime bf x s :
  credentials (runtime (exec (filterAdd bf x) s)) = credentials (runtime s)
  /\ tasks (runtime (exec (filterAdd bf x) s)) = tasks (runtime s)
  /\ nextTask (runtime (exec (filterAdd bf x) s)) = nextTask (runtime s).
Proof. destruct bf; repeat split. Qed.

Lemma eligible_credentials s s' offers :
  credentials (runtime s') = credentials (runtime s) ->
  eligible s' offers = eligible s offers.
Proof.
  intros C. unfold eligible. apply filter_ext. intros ro. unfold isOwn. now rewrite C.
Qed.

Lemma bloom_pass_answers T bf aw offers :
  forall rs s,
    freshTasks s ->
    forallb attemptOutcome rs = true ->
    length rs = length (eligible s offers) ->
    answered (snd (bind (connectLoop o T bf offers aw)
                        (fun _ => forEach rs (settleLatest o w)) s))
    = eligible s offers.
Proof.
  induction offers as [|ro rest IH]; intros rs s F A L.
  - destruct rs; [|discriminate]. cbn [connectLoop eligible filter forEach].
    change (snd (bind (passReturns o aw T) (fun _ => ret tt) s))
      with (effects (bind (passReturns o aw T) (fun _ => ret tt)) s).
    rewrite effects_bind, answered_app, bloom_passReturns_answered. reflexivity.
  - unfold eligible in *. cbn [filter] in *.
    pose proof (bloom_loop_cons o T bf ro rest aw s) as Hc.
    destruct (isOwn ro s || truthy (ro_answererPeerId ro)) eqn:N; cbn [negb] in *.
    + rewrite (bind_cong_l _ _ _ _ Hc). now apply IH.
    + destruct rs as [|r rs]; [discriminate|]. cbn [length forallb forEach] in *.
      apply andb_true_iff in A. destruct A as [Ar A]. injection L as L.
      cbv zeta in Hc. rewrite (snd_bind_of _ _ _ _ _ _ Hc).
      cbn [answered flat_map app]. f_equal.
      destruct (bloom_filterAdd_runtime bf (ro_peerId ro) s) as (C1 & C2 & C3).
      set (s1 := upd_runtime (set_nextPeer (S (nextPeer (runtime s))))
                   (exec (filterAdd bf (ro_peerId ro)) s)) in *.
      assert (F1 : freshTasks s1).
      { unfold freshTasks, s1. cbn [runtime upd_runtime set_nextPeer tasks nextTask].
        rewrite C2, C3. exact F. }
      assert (E : forall l, eligible s l = eligible (dropTask (nextTask (runtime s1))
                    (exec (park (AwaitAnswer T bf (nextPeer (runtime s)) ro rest aw)) s1)) l).
      { intros l. symmetry. apply eligible_credentials. unfold s1. simpl. exact C1. }
      unfold eligible in E.
      destruct (bloom_park_found (AwaitAnswer T bf (nextPeer (runtime s)) ro rest aw) s1 F1)
        as (N1 & N2 & N3).
      destruct r; try discriminate.
      * rewrite (bind_cong_l _ _ _ _
                   (bloom_settle_latest _ Rejected _ _ _ N1 N2 eq_refl)).
        rewrite bind_assoc, bind_modify. unfold log.
        rewrite bind_assoc, bind_emit. cbn [snd answered flat_map app].
        rewrite E. apply IH; auto.
        -- eapply bloom_fresh_after; eauto.
        -- now rewrite <- E.
      * rewrite (bind_cong_l _ _ _ _
                   (bloom_settle_latest _ Answered _ _ _ N1 N2 eq_refl)).
        rewrite bind_assoc, bind_modify. unfold setupPeerHandlers.
        rewrite bind_assoc, bind_modify. cbv beta.
        match goal with |- context [snd (bind _ _ ?s2)] =>
          assert (E2 : forall l, eligible s l = eligible s2 l)
            by (intros l; symmetry; apply eligible_credentials; unfold s1; simpl; exact C1)
        end.
        unfold eligible in E2. rewrite E2. apply IH; auto.
        -- eapply bloom_fresh_after; eauto.
        -- now rewrite <- E2.
Qed.
End BloomPass.

(** Task numbers are given out in order, in every reachable state. *)
Section PooledFresh.
Import Pooled.
Variable o : Options.
Variable w : World.

Ltac fresh_mod :=
  idtac;
  let s := fresh "s" in
  let F := fresh "F" in
  intros s F; unfold freshTasks in *;
  cbn [runtime tasks nextTask upd_runtime set_tasks set_nextTask set_nextTimer
       set_initPending dropTask];
  first
    [ exact F
    | apply Forall_app; split;
        [eapply Forall_impl; [|exact F]; simpl; intros; lia
        | repeat constructor; simpl; lia]
    | rewrite Forall_forall in *; intros x Hx; apply filter_In in Hx; now apply F ].

Ltac fframe := frame_with fresh_mod.

Lemma pooled_fresh_passReturns aw T : preserves freshTasks anyCall (passReturns o aw T).
Proof. destruct aw; cbn [passReturns]; unfold handleTorrentAdded_resume; fframe. Qed.

Lemma pooled_fresh_connectLoop T offers aw :
  preserves freshTasks anyCall (connectLoop o T offers aw).
Proof.
  pose proof (pooled_fresh_passReturns aw T).
  induction offers as [|ro rest IH]; cbn [connectLoop]; [assumption|].
  unfold log. fframe.
Qed.

Lemma pooled_fresh_pass T aw :
  preserves freshTasks anyCall (discoverPeersForTorrent o T aw).
Proof.
  unfold discoverPeersForTorrent, discover, log.
  pose proof (pooled_fresh_passReturns aw T). fframe.
Qed.

Lemma pooled_fresh_resume t r k :
  resume o t r = Some k -> preserves freshTasks anyCall k.
Proof.
  destruct t as [T cur aw|T aw|T ro rest aw]; destruct r;
    try discriminate; intros [= <-];
    pose proof (pooled_fresh_passReturns aw T);
    try pose proof (pooled_fresh_connectLoop T rest aw);
    try (match goal with offers : list RemoteOffer |- _ =>
           pose proof (pooled_fresh_connectLoop T offers aw) end);
    unfold discover, log; fframe.
Qed.

Lemma pooled_fresh_added T : preserves freshTasks anyCall (handleTorrentAdded o T).
Proof.
  unfold handleTorrentAdded, log. pose proof (pooled_fresh_pass T AddedHandler). fframe.
Qed.

Lemma pooled_fresh_cleanup T : preserves freshTasks anyCall (cleanup w T).
Proof. unfold cleanup, cleanup_peers, closePeer, log. fframe. Qed.

Lemma pooled_fresh_step ev : preserves freshTasks anyCall (step o w ev).
Proof.
  destruct ev; cbn [step].
  - apply preserves_bind; [apply preserves_gets | intros [|]]; [|apply preserves_ret].
    destruct r; cbn [initialize_resume]; try apply preserves_ret;
      unfold attachListeners, log; fframe. all: apply pooled_fresh_added.
  - fframe.
  - pose proof (pooled_fresh_added infoHash). fframe.
  - fframe. all: apply pooled_fresh_cleanup.
  - apply preserves_bind; [apply preserves_gets | intros [[? T]|]];
      [apply pooled_fresh_pass | apply preserves_ret].
  - apply preserves_gets_bind. intros s H.
    destruct (findTask task s) as [t|]; [|split; [exact H | constructor]].
    destruct (resume o t r) as [k|] eqn:R; [|split; [exact H | constructor]].
    assert (K : preserves freshTasks anyCall (bind (modify (dropTask task)) (fun _ => k))).
    { apply preserves_bind; [|intros _; eapply pooled_fresh_resume; eauto]. fframe. }
    apply K, H.
  - unfold onPeerEvent. fframe.
  - unfold onConnectionOpened, log. fframe.
  - unfold onConnectionConnected, log. fframe.
  - unfold discoverPeers, log. pose proof (pooled_fresh_pass infoHash NoAwaiter). fframe.
  - unfold destroy, log. fframe. all: apply pooled_fresh_cleanup.
Qed.

Lemma pooled_fresh_run evs : preserves freshTasks anyCall (run o w evs).
Proof.
  induction evs as [|ev evs IH]; cbn [run].
  - apply preserves_ret.
  - apply preserves_bind; [apply pooled_fresh_step | intros _; exact IH].
Qed.
End PooledFresh.

Section BloomFresh.
Import Bloom.
Variable o : Options.
Variable w : World.

Ltac fresh_mod :=
  idtac;
  let s := fresh "s" in
  let F := fresh "F" in
  intros s F; unfold freshTasks in *;
  cbn [runtime tasks nextTask upd_runtime set_tasks set_nextTask set_nextTimer
       set_nextPeer set_filters set_credentials set_initPending dropTask];
  first
    [ exact F
    | apply Forall_app; split;
        [eapply Forall_impl; [|exact F]; simpl; intros; lia
        | repeat constructor; simpl; lia]
    | rewrite Forall_forall in *; intros x Hx; apply filter_In in Hx; now apply F ].

Ltac fframe := frame_with fresh_mod.

Lemma bloom_fresh_passReturns aw T : preserves freshTasks anyCall (passReturns o aw T).
Proof. destruct aw; cbn [passReturns]; unfold handleTorrentAdded_resume; fframe. Qed.

Lemma bloom_fresh_connectLoop T bf offers aw :
  preserves freshTasks anyCall (connectLoop o T bf offers aw).
Proof.
  pose proof (bloom_fresh_passReturns aw T).
  induction offers as [|ro rest IH]; cbn [connectLoop]; [assumption|].
  unfold filterAdd, createPeer, log. fframe.
Qed.

Lemma bloom_fresh_pass T aw :
  preserves freshTasks anyCall (discoverPeersForTorrent o T aw).
Proof.
  unfold discoverPeersForTorrent, createPeer, log.
  pose proof (bloom_fresh_passReturns aw T). fframe.
Qed.

Lemma bloom_fresh_resume t r k :
  resume o t r = Some k -> preserves freshTasks anyCall k.
Proof.
  destruct t as [T cur p aw|T bf aw|T bf p ro rest aw|offerId]; destruct r;
    try discriminate; intros [= <-];
    try pose proof (bloom_fresh_passReturns aw T);
    try pose proof (bloom_fresh_connectLoop T bf rest aw);
    try (match goal with offers : list RemoteOffer |- _ =>
           pose proof (bloom_fresh_connectLoop T bf offers aw) end);
    unfold setupPeerHandlers, log; fframe.
Qed.

Lemma bloom_fresh_added T : preserves freshTasks anyCall (handleTorrentAdded o T).
Proof.
  unfold handleTorrentAdded, newFilter, log.
  pose proof (bloom_fresh_pass T AddedHandler). fframe.
Qed.

Lemma bloom_fresh_cleanup T : preserves freshTasks anyCall (cleanup w T).
Proof. unfold cleanup, closePeer, deleteOffer, log. fframe. Qed.

Lemma bloom_fresh_step ev : preserves freshTasks anyCall (step o w ev).
Proof.
  destruct ev; cbn [step].
  - apply preserves_bind; [apply preserves_gets | intros [|]]; [|apply preserves_ret].
    destruct r; cbn [initialize_resume]; try apply preserves_ret;
      unfold attachListeners, log; fframe. all: apply bloom_fresh_added.
  - fframe.
  - pose proof (bloom_fresh_added infoHash). fframe.
  - fframe. all: apply bloom_fresh_cleanup.
  - apply preserves_bind; [apply preserves_gets | intros [[? T]|]];
      [apply bloom_fresh_pass | apply preserves_ret].
  - apply preserves_gets_bind. intros s H.
    destruct (findTask task s) as [t|]; [|split; [exact H | constructor]].
    destruct (resume o t r) as [k|] eqn:R; [|split; [exact H | constructor]].
    assert (K : preserves freshTasks anyCall (bind (modify (dropTask task)) (fun _ => k))).
    { apply preserves_bind; [|intros _; eapply bloom_fresh_resume; eauto]. fframe. }
    apply K, H.
  - unfold onPeerEvent. fframe.
  - unfold discoverPeers, log. pose proof (bloom_fresh_pass infoHash NoAwaiter). fframe.
  - unfold destroy, log. fframe. all: apply bloom_fresh_cleanup.
Qed.

Lemma bloom_fresh_initialize : preserves freshTasks anyCall (initialize o).
Proof. unfold initialize, attachListeners, log. fframe. all: apply bloom_fresh_added. Qed.

Lemma bloom_fresh_run evs : preserves freshTasks anyCall (run o w evs).
Proof.
  induction evs as [|ev evs IH]; cbn [run].
  - apply preserves_ret.
  - apply preserves_bind; [apply bloom_fresh_step | intros _; exact IH].
Qed.
End BloomFresh.

Lemma pooled_reachable_fresh mo w torrents evs :
  Pooled.freshTasks
    (exec (Pooled.run (Pooled.resolveOptions mo) w evs) (Pooled.constructed mo torrents)).
Proof. apply pooled_fresh_run. constructor. Qed.

Lemma bloom_reachable_fresh mo w torrents evs :
  Bloom.freshTasks
    (exec (Bloom.run (Bloom.resolveOptions mo) w evs) (Bloom.constructed mo torrents)).
Proof.
  apply bloom_fresh_run. unfold Bloom.constructed, Bloom.construct.
  apply bloom_fresh_initialize. constructor.
Qed.

(** X7.  Pooled revision.  A pass that got its advertisements connects to
    them one after the other: when each [rondevu.peer] promise settles,
    resolved or rejected, before the next event, the pass calls
    [rondevu.peer] exactly once for every advertisement that is not the
    manager's own, in the order the service returned them, and never for
    its own name.  ([freshTasks] holds in every reachable state.) *)
Theorem pooled_pass_attempts_each_eligible_once :
  forall o w infoHash aw name offers outcomes s,
    Pooled.rondevu (Pooled.fields s) = Some name ->
    Pooled.freshTasks s ->
    forallb Pooled.attemptOutcome outcomes = true ->
    length outcomes = length (Pooled.eligible name offers) ->
    let trace :=
      effects (bind (Pooled.connectLoop o infoHash offers aw)
                    (fun _ => forEach outcomes (Pooled.settleLatest o w))) s in
    Pooled.attempts trace = map Pooled.ro_username (Pooled.eligible name offers)
    /\ ~ In name (Pooled.attempts trace).
Proof.
  intros o w T aw name offers rs s R F A L trace.
  assert (E : Pooled.attempts trace = map Pooled.ro_username (Pooled.eligible name offers))
    by (apply pooled_pass_attempts; assumption).
  split; [exact E|]. rewrite E. intros H.
  apply in_map_iff in H. destruct H as (ro & Hn & Hin).
  apply filter_In in Hin. destruct Hin as [_ Hin].
  rewrite Hn, String.eqb_refl in Hin. discriminate.
Qed.

(** X8.  Bloom-filter revision.  A pass that got its advertisements
    answers them one after the other: when each [answer] promise settles,
    resolved or rejected, before the next event, the pass calls [answer]
    exactly once for every advertisement that is neither the manager's own
    nor already answered, in the order the service returned them, and for
    no other.  ([freshTasks] holds in every reachable state.) *)
Theorem bloom_pass_answers_each_eligible_once :
  forall o w infoHash bloomFilter aw offers outcomes s,
    Bloom.freshTasks s ->
    forallb Bloom.attemptOutcome outcomes = true ->
    length outcomes = length (Bloom.eligible s offers) ->
    Bloom.answered
      (effects (bind (Bloom.connectLoop o infoHash bloomFilter offers aw)
                     (fun _ => forEach outcomes (Bloom.settleLatest o w))) s)
    = Bloom.eligible s offers.
Proof. intros. now apply bloom_pass_answers. Qed.

(** bob is rejected, the own advertisement is passed over, carol
    resolves. *)
Lemma pooled_pass_attempts_each_eligible_once_witness :
  Pooled.rondevu (Pooled.fields (Pooled.after 5 Pooled.firstPass)) = Some "me"
  /\ Pooled.freshTasks (Pooled.after 5 Pooled.firstPass)
  /\ Pooled.attempts
       (effects (bind (Pooled.connectLoop (Pooled.resolveOptions (Pooled.sampleOptions 5)) "T"
                         [Pooled.bob; {| Pooled.ro_username := "me" |}; Pooled.carol]
                         Pooled.NoAwaiter)
                      (fun _ => forEach [Pooled.Rejected; Pooled.PeerReady 2]
                                  (Pooled.settleLatest
                                     (Pooled.resolveOptions (Pooled.sampleOptions 5))
                                     Pooled.calm)))
          (Pooled.after 5 Pooled.firstPass))
     = ["bob"; "carol"].
Proof.
  assert (F : Pooled.freshTasks (Pooled.after 5 Pooled.firstPass))
    by apply pooled_reachable_fresh.
  split; [reflexivity|]. split; [exact F|].
  exact (proj1 (pooled_pass_attempts_each_eligible_once
                  (Pooled.resolveOptions (Pooled.sampleOptions 5)) Pooled.calm "T"
                  Pooled.NoAwaiter "me"
                  [Pooled.bob; {| Pooled.ro_username := "me" |}; Pooled.carol]
                  [Pooled.Rejected; Pooled.PeerReady 2]
                  (Pooled.after 5 Pooled.firstPass) eq_refl F eq_refl eq_refl)).
Defined.

(** The answered advertisement is passed over, bob's is answered. *)
Lemma bloom_pass_answers_each_eligible_once_witness :
  Bloom.freshTasks (Bloom.after 5 Bloom.addedOnce)
  /\ Bloom.answered
       (effects (bind (Bloom.connectLoop (Bloom.resolveOptions (Bloom.sampleOptions 5 (Some "me")))
                         "T" (Some 0) [Bloom.taken; Bloom.bob] Bloom.NoAwaiter)
                      (fun _ => forEach [Bloom.Rejected]
                                  (Bloom.settleLatest
                                     (Bloom.resolveOptions (Bloom.sampleOptions 5 (Some "me")))
                                     Bloom.calm)))
          (Bloom.after 5 Bloom.addedOnce))
     = [Bloom.bob].
Proof.
  assert (F : Bloom.freshTasks (Bloom.after 5 Bloom.addedOnce))
    by apply bloom_reachable_fresh.
  split; [exact F|].
  exact (bloom_pass_answers_each_eligible_once
           (Bloom.resolveOptions (Bloom.sampleOptions 5 (Some "me"))) Bloom.calm "T"
           (Some 0) Bloom.NoAwaiter [Bloom.taken; Bloom.bob] [Bloom.Rejected]
           (Bloom.after 5 Bloom.addedOnce) F eq_refl eq_refl).
Defined.

(** ** [destroy] *)

Lemma flat_map_ext_in {A B} (f g : A -> list B) l :
  (forall x, In x l -> f x = g x) -> flat_map f l = flat_map g l.
Proof.
  induction l as [|x l IH]; intros H; simpl; [reflexivity|].
  rewrite (H x (or_introl eq_refl)), IH; [reflexivity|].
  intros y Hy. apply H. now right.
Qed.

Lemma snd_effects {S E A} (m : M S E A) s : snd (m s) = effects m s.
Proof. reflexivity. Qed.

Section BloomDestroy.
Import Bloom.
Variable w : World.

Lemma cleanupTrace_forget T T' s s1 :
  T' <> T -> fields s1 = forget T (fields s) ->
  cleanupTrace w T' s1 = cleanupTrace w T' s.
Proof.
  intros N F. unfold cleanupTrace, timerOf, peersOf, offersOf. rewrite F. simpl.
  now rewrite !(get_delete_other _ _ _ N).
Qed.

Lemma bloom_cleanups_trace l :
  NoDup l ->
  forall s, effects (forEach l (cleanup w)) s = flat_map (fun T => cleanupTrace w T s) l.
Proof.
  induction 1 as [|T l Hn Hd IH]; intros s; [reflexivity|].
  cbn [forEach flat_map]. rewrite effects_bind, cleanup_effects. f_equal.
  rewrite IH. apply flat_map_ext_in. intros T' Hin.
  apply (cleanupTrace_forget T T' s); [|apply cleanup_fields].
  intros ->. contradiction.
Qed.
End BloomDestroy.

(** X9.  Bloom-filter revision.  [destroy] runs the cleanup closure of
    every torrent that has one, each on what is tracked for its torrent
    when [destroy] is called: the trace is the log line followed by the
    torrents' teardown traces (timer cleared, peers closed, offers
    deleted) in the order of the handler map, and all five maps are empty
    afterwards. *)
Theorem bloom_destroy_runs_every_cleanup :
  forall w s,
    NoDup (JsMap.values (Bloom.torrentCleanupHandlers (Bloom.fields s))) ->
    effects (Bloom.destroy w) s
    = Bloom.Log Bloom.LDestroying
        :: flat_map (fun infoHash => Bloom.cleanupTrace w infoHash s)
             (JsMap.values (Bloom.torrentCleanupHandlers (Bloom.fields s)))
    /\ Bloom.fields (exec (Bloom.destroy w) s) = Bloom.noFields.
Proof.
  intros w s H. unfold Bloom.destroy, Bloom.log. split.
  - unfold effects. rewrite bind_emit. cbn [snd]. f_equal. rewrite bind_gets.
    rewrite (snd_effects (bind _ _)), effects_bind, (bloom_cleanups_trace w _ H).
    match goal with |- ?a ++ ?b = _ => change b with (@nil Bloom.Effect) end.
    apply app_nil_r.
  - rewrite !exec_bind. reflexivity.
Qed.

Section PooledDestroy.
Import Pooled.
Variable w : World.

Lemma pooled_cleanupTrace_forget T T' s s1 :
  T' <> T -> fields s1 = forget T (fields s) ->
  cleanupTrace w T' s1 = cleanupTrace w T' s /\ handleOf T' s1 = handleOf T' s.
Proof.
  intros N F. unfold cleanupTrace, timerOf, peersOf, handleOf. rewrite F. simpl.
  now rewrite !(get_delete_other _ _ _ N).
Qed.

Lemma bind_of {S E A B} (m : M S E A) (f : A -> M S E B) s a s1 e1 :
  m s = (a, s1, e1) ->
  bind m f s = (fst (fst (f a s1)), snd (fst (f a s1)), e1 ++ snd (f a s1)).
Proof. intros H. unfold bind. rewrite H. destruct (f a s1) as [[b s2] e2]. reflexivity. Qed.

Lemma pooled_cleanups_trace l :
  NoDup l ->
  forall s,
    (forall T h, In T l -> In h (handleOf T s) -> cancelThrows w h = false) ->
    fst (fst (forEachOk l (cleanup w) s)) = true
    /\ effects (forEachOk l (cleanup w)) s = flat_map (fun T => cleanupTrace w T s) l
    /\ rondevu (fields (exec (forEachOk l (cleanup w)) s)) = rondevu (fields s).
Proof.
  induction 1 as [|T l Hn Hd IH]; intros s Hc; [now repeat split|].
  cbn [forEachOk flat_map].
  destruct (pooled_cleanup_returns w T s (fun h Hh => Hc T h (or_introl eq_refl) Hh))
    as [E F].
  unfold effects. rewrite (bind_of _ _ _ _ _ _ E). cbn [fst snd].
  assert (Hc' : forall T' h, In T' l -> In h (handleOf T' (exec (cleanup w T) s)) ->
                             cancelThrows w h = false).
  { intros T' h Hin Hh. apply (Hc T' h (or_intror Hin)).
    rewrite <- (proj2 (pooled_cleanupTrace_forget T T' s _
                         (fun e => Hn (eq_ind T' (fun x => In x l) Hin T e)) F)).
    exact Hh. }
  destruct (IH _ Hc') as (I1 & I2 & I3). split; [exact I1|]. split.
  - f_equal. unfold effects in I2. rewrite I2. apply flat_map_ext_in. intros T' Hin.
    apply (pooled_cleanupTrace_forget T T' s); [|exact F].
    intros ->. contradiction.
  - unfold exec at 1. rewrite (bind_of _ _ _ _ _ _ E). cbn [fst snd].
    unfold exec in I3 at 1. rewrite I3, F. reflexivity.
Qed.

Lemma pooled_cleanup_throws T h s :
  JsMap.get T (torrentOfferHandles (fields s)) = Some h ->
  cancelThrows w h = true ->
  fst (fst (cleanup w T s)) = false
  /\ effects (cleanup w T) s
     = Log (LCleaningUp T) :: map ClearInterval (timerOf T s) ++ [OfferCancel h]
  /\ torrentPeers (fields (exec (cleanup w T) s)) = torrentPeers (fields s)
  /\ torrentOfferHandles (fields (exec (cleanup w T) s)) = torrentOfferHandles (fields s)
  /\ torrentCleanupHandlers (fields (exec (cleanup w T) s))
     = torrentCleanupHandlers (fields s)
  /\ refreshTimers (fields (exec (cleanup w T) s))
     = JsMap.delete T (refreshTimers (fields s)).
Proof.
  intros G C. unfold cleanup, timerOf, effects, exec, log.
  unfold bind, gets, modify, emit, ret. cbv beta iota.
  destruct (JsMap.get T (refreshTimers (fields s))) as [tm|] eqn:E; simpl;
    rewrite G; simpl; rewrite C; simpl; repeat split; try reflexivity.
  symmetry. now apply delete_absent.
Qed.
End PooledDestroy.

(** X10.  Pooled revision.  When no [offerHandle.cancel()] throws,
    [destroy] runs the cleanup closure of every torrent that has one, each
    on what is tracked for its torrent when [destroy] is called: the trace
    is the log line followed by the torrents' teardown traces (timer
    cleared, offer handle cancelled, peers closed) in the order of the
    handler map, and the four maps are empty afterwards; [this.rondevu] is
    kept. *)
Theorem pooled_destroy_runs_every_cleanup :
  forall w s,
    NoDup (JsMap.values (Pooled.torrentCleanupHandlers (Pooled.fields s))) ->
    (forall h, Pooled.cancelThrows w h = false) ->
    effects (Pooled.destroy w) s
    = Pooled.Log Pooled.LDestroying
        :: flat_map (fun infoHash => Pooled.cleanupTrace w infoHash s)
             (JsMap.values (Pooled.torrentCleanupHandlers (Pooled.fields s)))
    /\ Pooled.fields (exec (Pooled.destroy w) s)
       = {| Pooled.rondevu := Pooled.rondevu (Pooled.fields s);
            Pooled.torrentOfferHandles := JsMap.empty;
            Pooled.torrentPeers := JsMap.empty;
            Pooled.torrentCleanupHandlers := JsMap.empty;
            Pooled.refreshTimers := JsMap.empty |}.
Proof.
  intros w s H C. unfold Pooled.destroy, Pooled.log.
  destruct (pooled_cleanups_trace w _ H s (fun T h _ _ => C h)) as (K1 & K2 & K3).
  remember (JsMap.values (Pooled.torrentCleanupHandlers (Pooled.fields s))) as l.
  destruct (forEachOk l (Pooled.cleanup w) s) as [[ok s1] tr] eqn:E.
  cbn [fst] in K1. subst ok. unfold effects in K2. rewrite E in K2. cbn [snd] in K2.
  unfold exec in K3. rewrite E in K3. cbn [fst snd] in K3.
  unfold effects, exec. rewrite bind_emit, bind_gets, <- Heql, (bind_of _ _ _ _ _ _ E).
  cbn [fst snd]. split.
  - f_equal. rewrite K2. apply app_nil_r.
  - unfold bind, modify, ret. simpl. now rewrite K3.
Qed.

(** X11.  Pooled revision.  [offerHandle.cancel()] is called outside any
    [try]: when it throws for the first torrent of the handler map, the
    exception leaves [destroy] there.  That torrent's timer has been
    cleared; no peer is closed, no other torrent is looked at, and the
    peer sets, offer handles and cleanup handlers are all still in the
    maps. *)
Theorem pooled_destroy_stops_when_cancel_throws :
  forall w s infoHash rest h,
    JsMap.values (Pooled.torrentCleanupHandlers (Pooled.fields s)) = infoHash :: rest ->
    JsMap.get infoHash (Pooled.torrentOfferHandles (Pooled.fields s)) = Some h ->
    Pooled.cancelThrows w h = true ->
    fst (fst (Pooled.destroy w s)) = false
    /\ effects (Pooled.destroy w) s
       = Pooled.Log Pooled.LDestroying
           :: Pooled.Log (Pooled.LCleaningUp infoHash)
           :: map Pooled.ClearInterval (Pooled.timerOf infoHash s) ++ [Pooled.OfferCancel h]
    /\ Pooled.torrentPeers (Pooled.fields (exec (Pooled.destroy w) s))
       = Pooled.torrentPeers (Pooled.fields s)
    /\ Pooled.torrentOfferHandles (Pooled.fields (exec (Pooled.destroy w) s))
       = Pooled.torrentOfferHandles (Pooled.fields s)
    /\ Pooled.torrentCleanupHandlers (Pooled.fields (exec (Pooled.destroy w) s))
       = Pooled.torrentCleanupHandlers (Pooled.fields s)
    /\ Pooled.refreshTimers (Pooled.fields (exec (Pooled.destroy w) s))
       = JsMap.delete infoHash (Pooled.refreshTimers (Pooled.fields s)).
Proof.
  intros w s T rest h V G C.
  destruct (pooled_cleanup_throws w T h s G C) as (K1 & K2 & K3 & K4 & K5 & K6).
  destruct (Pooled.cleanup w T s) as [[ok s1] tr] eqn:E.
  unfold effects in K2. unfold exec in K3, K4, K5, K6. rewrite E in *.
  cbn [fst snd] in *. subst ok.
  unfold Pooled.destroy, Pooled.log, effects, exec.
  rewrite bind_emit, bind_gets, V. cbn [forEachOk].
  rewrite (bind_of _ _ _ _ _ _ (bind_of _ _ _ _ _ _ E)).
  cbn [fst snd ret]. unfold ret. cbn [fst snd]. rewrite !app_nil_r, K2.
  repeat split; assumption.
Qed.

(** T is tracked with timer 0, offer o1 and a parked answer. *)
Lemma bloom_destroy_runs_every_cleanup_witness :
  NoDup (JsMap.values (Bloom.torrentCleanupHandlers
                         (Bloom.fields (Bloom.after 5 Bloom.firstPass))))
  /\ effects (Bloom.destroy Bloom.calm) (Bloom.after 5 Bloom.firstPass)
     = [Bloom.Log Bloom.LDestroying; Bloom.Log (Bloom.LCleaningUp "T");
        Bloom.ClearInterval 0; Bloom.OffersDelete "o1"]
  /\ Bloom.fields (exec (Bloom.destroy Bloom.calm) (Bloom.after 5 Bloom.firstPass))
     = Bloom.noFields.
Proof.
  assert (H : NoDup (JsMap.values (Bloom.torrentCleanupHandlers
                                     (Bloom.fields (Bloom.after 5 Bloom.firstPass)))))
    by (vm_compute; repeat constructor; intros []).
  split; [exact H|].
  destruct (bloom_destroy_runs_every_cleanup Bloom.calm (Bloom.after 5 Bloom.firstPass) H)
    as [E F].
  split; [rewrite E; reflexivity | exact F].
Defined.

(** T is tracked with timer 0, offer handle 7 and peer 1. *)
Lemma pooled_destroy_runs_every_cleanup_witness :
  NoDup (JsMap.values (Pooled.torrentCleanupHandlers
                         (Pooled.fields (Pooled.after 5 Pooled.firstPass))))
  /\ (forall h, Pooled.cancelThrows Pooled.calm h = false)
  /\ effects (Pooled.destroy Pooled.calm) (Pooled.after 5 Pooled.firstPass)
     = [Pooled.Log Pooled.LDestroying; Pooled.Log (Pooled.LCleaningUp "T");
        Pooled.ClearInterval 0; Pooled.OfferCancel 7; Pooled.PeerClose 1].
Proof.
  assert (H : NoDup (JsMap.values (Pooled.torrentCleanupHandlers
                                     (Pooled.fields (Pooled.after 5 Pooled.firstPass)))))
    by (vm_compute; repeat constructor; intros []).
  split; [exact H|]. split; [reflexivity|].
  rewrite (proj1 (pooled_destroy_runs_every_cleanup Pooled.calm
                    (Pooled.after 5 Pooled.firstPass) H (fun _ => eq_refl))).
  reflexivity.
Defined.

(** The same state, with an offer handle whose [cancel] throws: peer 1
    stays tracked and is not closed. *)
Lemma pooled_destroy_stops_when_cancel_throws_witness :
  let w := {| Pooled.closeThrows := fun _ => false; Pooled.cancelThrows := fun _ => true;
              Pooled.addPeerThrows := fun _ => false;
              Pooled.hasPeerConnection := fun _ => true;
              Pooled.connHasPeerConnection := fun _ => true;
              Pooled.addIncomingThrows := fun _ => false |} in
  JsMap.values (Pooled.torrentCleanupHandlers (Pooled.fields (Pooled.after 5 Pooled.firstPass)))
  = ["T"]
  /\ JsMap.get "T" (Pooled.torrentOfferHandles (Pooled.fields (Pooled.after 5 Pooled.firstPass)))
     = Some 7
  /\ effects (Pooled.destroy w) (Pooled.after 5 Pooled.firstPass)
     = [Pooled.Log Pooled.LDestroying; Pooled.Log (Pooled.LCleaningUp "T");
        Pooled.ClearInterval 0; Pooled.OfferCancel 7]
  /\ Pooled.peersOf "T" (exec (Pooled.destroy w) (Pooled.after 5 Pooled.firstPass)) = [1].
Proof.
  intros w.
  destruct (pooled_destroy_stops_when_cancel_throws w (Pooled.after 5 Pooled.firstPass)
              "T" [] 7 eq_refl eq_refl eq_refl) as (_ & E & P & _).
  split; [reflexivity|]. split; [reflexivity|]. split.
  - rewrite E. reflexivity.
  - unfold Pooled.peersOf. rewrite P. reflexivity.
Defined.

(** ** A cap of zero *)

Section PooledCapZero.
Import Pooled.
Variable o : Options.
Variable w : World.
Hypothesis cap : (maxPeersPerTorrent o <= 0)%Z.

Let idle (s : State) : Prop := tasks (runtime s) = [].
Let still (e : Effect) : Prop := discovers e = false.

Ltac idle_mod := idtac; intros ? ?; assumption.
Ltac iframe := frame_with idle_mod.

Lemma pooled_peerCount_nonneg T s : (0 <= peerCount T s)%Z.
Proof. unfold peerCount, JsSet.size. destruct (JsMap.get _ _); lia. Qed.

Lemma pooled_idle_passReturns aw T : preserves idle still (passReturns o aw T).
Proof. destruct aw; cbn [passReturns]; unfold handleTorrentAdded_resume; iframe. Qed.

Lemma pooled_idle_pass T aw : preserves idle still (discoverPeersForTorrent o T aw).
Proof.
  pose proof (pooled_idle_passReturns aw T).
  unfold discoverPeersForTorrent.
  apply preserves_bind; [apply preserves_gets | intros [name|]]; [|assumption].
  apply preserves_gets_bind. intros s Hs.
  assert (E : (maxPeersPerTorrent o <=? peerCount T s)%Z = true).
  { apply Z.leb_le. pose proof (pooled_peerCount_nonneg T s). lia. }
  assert (K : preserves idle still
                (bind (log (LMaxPeersReached T)) (fun _ => passReturns o aw T)))
    by (unfold log; iframe).
  rewrite E. apply K, Hs.
Qed.

Lemma pooled_idle_added T : preserves idle still (handleTorrentAdded o T).
Proof.
  unfold handleTorrentAdded, log.
  frame_using ltac:(apply pooled_idle_pass) idle_mod.
Qed.

Lemma pooled_idle_cleanup T : preserves idle still (cleanup w T).
Proof. unfold cleanup, cleanup_peers, closePeer, log. iframe. Qed.

Lemma pooled_idle_step ev : preserves idle still (step o w ev).
Proof.
  destruct ev; cbn [step].
  - apply preserves_bind; [apply preserves_gets | intros [|]]; [|apply preserves_ret].
    destruct r; cbn [initialize_resume]; try apply preserves_ret;
      unfold attachListeners, log;
      frame_using ltac:(apply pooled_idle_added) idle_mod.
  - iframe.
  - frame_using ltac:(apply pooled_idle_added) idle_mod.
  - frame_using ltac:(apply pooled_idle_cleanup) idle_mod.
  - apply preserves_bind; [apply preserves_gets | intros [[? T]|]];
      [apply pooled_idle_pass | apply preserves_ret].
  - apply preserves_gets_bind. intros s H. unfold findTask.
    unfold idle in H. rewrite H. cbn [find option_map]. split; [exact H | constructor].
  - unfold onPeerEvent, log. iframe.
  - unfold onConnectionOpened, log. iframe.
  - unfold onConnectionConnected, log. iframe.
  - unfold discoverPeers, log. frame_using ltac:(apply pooled_idle_pass) idle_mod.
  - unfold destroy, log. frame_using ltac:(apply pooled_idle_cleanup) idle_mod.
Qed.

Lemma pooled_idle_run evs : preserves idle still (run o w evs).
Proof.
  induction evs as [|ev evs IH]; cbn [run].
  - apply preserves_ret.
  - apply preserves_bind; [apply pooled_idle_step | intros _; exact IH].
Qed.
End PooledCapZero.

Section BloomCapZero.
Import Bloom.
Variable o : Options.
Variable w : World.
Hypothesis cap : (maxPeersPerTorrent o <= 0)%Z.

Let idle (s : State) : Prop :=
  Forall (fun kt => awaitsDelete (snd kt) = true) (tasks (runtime s)).
Let still (e : Effect) : Prop := discovers e = false.

Ltac idle_mod :=
  idtac;
  let s := fresh "s" in
  let F := fresh "F" in
  intros s F; unfold idle in *;
  cbn [runtime tasks upd_runtime set_tasks set_nextTask set_nextTimer
       set_nextPeer set_filters set_credentials set_initPending dropTask];
  first
    [ exact F
    | apply Forall_app; split; [exact F | repeat constructor]
    | rewrite Forall_forall in *; intros x Hx; apply filter_In in Hx; now apply F ].

Ltac iframe := frame_with idle_mod.

Lemma bloom_peerCount_nonneg T s : (0 <= peerCount T s)%Z.
Proof. unfold peerCount, JsSet.size. destruct (JsMap.get _ _); lia. Qed.

Lemma bloom_idle_passReturns aw T : preserves idle still (passReturns o aw T).
Proof. destruct aw; cbn [passReturns]; unfold handleTorrentAdded_resume; iframe. Qed.

Lemma bloom_idle_pass T aw : preserves idle still (discoverPeersForTorrent o T aw).
Proof.
  unfold discoverPeersForTorrent.
  apply preserves_gets_bind. intros s Hs.
  assert (E : (maxPeersPerTorrent o <=? peerCount T s)%Z = true).
  { apply Z.leb_le. pose proof (bloom_peerCount_nonneg T s). lia. }
  assert (K : preserves idle still
                (bind (log (LMaxPeersReached T)) (fun _ => passReturns o aw T)))
    by (unfold log; frame_using ltac:(apply bloom_idle_passReturns) idle_mod).
  rewrite E. apply K, Hs.
Qed.

Lemma bloom_idle_added T : preserves idle still (handleTorrentAdded o T).
Proof.
  unfold handleTorrentAdded, newFilter, log.
  frame_using ltac:(apply bloom_idle_pass) idle_mod.
Qed.

Lemma bloom_idle_cleanup T : preserves idle still (cleanup w T).
Proof. unfold cleanup, closePeer, deleteOffer, log. iframe. Qed.

Lemma bloom_idle_initialize : preserves idle still (initialize o).
Proof.
  unfold initialize, attachListeners, log.
  frame_using ltac:(apply bloom_idle_added) idle_mod.
Qed.

Lemma bloom_idle_step ev : preserves idle still (step o w ev).
Proof.
  destruct ev; cbn [step].
  - apply preserves_bind; [apply preserves_gets | intros [|]]; [|apply preserves_ret].
    destruct r; cbn [initialize_resume]; try apply preserves_ret;
      unfold attachListeners, log;
      frame_using ltac:(apply bloom_idle_added) idle_mod.
  - iframe.
  - frame_using ltac:(apply bloom_idle_added) idle_mod.
  - frame_using ltac:(apply bloom_idle_cleanup) idle_mod.
  - apply preserves_bind; [apply preserves_gets | intros [[? T]|]];
      [apply bloom_idle_pass | apply preserves_ret].
  - apply preserves_gets_bind. intros s H.
    destruct (findTask task s) as [t|] eqn:FT; [|split; [exact H | constructor]].
    assert (A : awaitsDelete t = true).
    { destruct (findTask_In _ _ _ FT) as [k' Hk].
      unfold idle in H. rewrite Forall_forall in H. apply (H _ Hk). }
    destruct t; try discriminate.
    destruct r; cbn [resume]; try (split; [exact H | constructor]).
    + assert (K : preserves idle still
                    (bind (modify (dropTask task)) (fun _ => log LErrorDeletingOffer)))
        by (unfold log; iframe).
      apply K, H.
    + assert (K : preserves idle still (bind (modify (dropTask task)) (fun _ => ret tt)))
        by iframe.
      apply K, H.
  - unfold onPeerEvent, log. iframe.
  - unfold discoverPeers, log. frame_using ltac:(apply bloom_idle_pass) idle_mod.
  - unfold destroy, log. frame_using ltac:(apply bloom_idle_cleanup) idle_mod.
Qed.

Lemma bloom_idle_run evs : preserves idle still (run o w evs).
Proof.
  induction evs as [|ev evs IH]; cbn [run].
  - apply preserves_ret.
  - apply preserves_bind; [apply bloom_idle_step | intros _; exact IH].
Qed.
End BloomCapZero.

(** X12.  Pooled revision.  A [maxPeersPerTorrent] of zero or less (an
    explicit 0 is kept, the default applies to [undefined] only) switches
    discovery off: whatever events follow the construction, the manager
    never calls [rondevu.offer], [rondevu.discover] or [rondevu.peer],
    since every pass stops at the capacity check. *)
Theorem pooled_cap_zero_never_discovers :
  forall mo w torrents evs c,
    Pooled.o_maxPeersPerTorrent mo = Some c ->
    (c <= 0)%Z ->
    Forall (fun e => Pooled.discovers e = false)
      (snd (Pooled.construct mo torrents)
       ++ effects (Pooled.run (Pooled.resolveOptions mo) w evs)
                  (Pooled.constructed mo torrents)).
Proof.
  intros mo w torrents evs c C H. apply Forall_app. split.
  - repeat constructor.
  - apply (pooled_idle_run (Pooled.resolveOptions mo) w); [|reflexivity].
    unfold Pooled.resolveOptions. simpl. now rewrite C.
Qed.

(** X13.  Bloom-filter revision.  A [maxPeersPerTorrent] of zero or less
    (an explicit 0 is kept, the default applies to [undefined] only)
    switches discovery off: neither the constructor nor any event after
    it makes the manager create a peer or an offer, query the service or
    answer an advertisement, since every pass stops at the capacity
    check. *)
Theorem bloom_cap_zero_never_discovers :
  forall mo w torrents evs c,
    Bloom.o_maxPeersPerTorrent mo = Some c ->
    (c <= 0)%Z ->
    Forall (fun e => Bloom.discovers e = false)
      (snd (Bloom.construct mo torrents)
       ++ effects (Bloom.run (Bloom.resolveOptions mo) w evs)
                  (Bloom.constructed mo torrents)).
Proof.
  intros mo w torrents evs c C H.
  assert (Hc : (Bloom.maxPeersPerTorrent (Bloom.resolveOptions mo) <= 0)%Z)
    by (unfold Bloom.resolveOptions; simpl; now rewrite C).
  destruct (bloom_idle_initialize (Bloom.resolveOptions mo) Hc
              (Bloom.newState (Bloom.o_credentials mo) torrents)) as [I0 E0];
    [constructor|].
  apply Forall_app. split; [exact E0|].
  apply (bloom_idle_run (Bloom.resolveOptions mo) w Hc). exact I0.
Qed.

(** Cap 0: T is announced, its timer fires and a pass is asked for. *)
Lemma pooled_cap_zero_never_discovers_witness :
  Pooled.o_maxPeersPerTorrent (Pooled.sampleOptions 0) = Some 0%Z
  /\ (0 <= 0)%Z
  /\ Forall (fun e => Pooled.discovers e = false)
       (snd (Pooled.construct (Pooled.sampleOptions 0) [])
        ++ effects (Pooled.run (Pooled.resolveOptions (Pooled.sampleOptions 0)) Pooled.calm
                      [Pooled.EvInitSettled (Pooled.ConnectedAs "me"); Pooled.EvClientAdd "T";
                       Pooled.EvTorrent "T"; Pooled.EvTick 0; Pooled.EvDiscoverPeers "T"])
                   (Pooled.constructed (Pooled.sampleOptions 0) [])).
Proof.
  split; [reflexivity|]. split; [apply Z.le_refl|].
  exact (pooled_cap_zero_never_discovers (Pooled.sampleOptions 0) Pooled.calm []
           [Pooled.EvInitSettled (Pooled.ConnectedAs "me"); Pooled.EvClientAdd "T";
            Pooled.EvTorrent "T"; Pooled.EvTick 0; Pooled.EvDiscoverPeers "T"]
           0%Z eq_refl (Z.le_refl 0)).
Defined.

Lemma bloom_cap_zero_never_discovers_witness :
  Bloom.o_maxPeersPerTorrent (Bloom.sampleOptions 0 (Some "me")) = Some 0%Z
  /\ (0 <= 0)%Z
  /\ Forall (fun e => Bloom.discovers e = false)
       (snd (Bloom.construct (Bloom.sampleOptions 0 (Some "me")) ["T"])
        ++ effects (Bloom.run (Bloom.resolveOptions (Bloom.sampleOptions 0 (Some "me")))
                      Bloom.calm
                      [Bloom.EvTick 0; Bloom.EvDiscoverPeers "T"; Bloom.EvDestroyed "T"])
                   (Bloom.constructed (Bloom.sampleOptions 0 (Some "me")) ["T"])).
Proof.
  split; [reflexivity|]. split; [apply Z.le_refl|].
  exact (bloom_cap_zero_never_discovers (Bloom.sampleOptions 0 (Some "me")) Bloom.calm ["T"]
           [Bloom.EvTick 0; Bloom.EvDiscoverPeers "T"; Bloom.EvDestroyed "T"]
           0%Z eq_refl (Z.le_refl 0)).
Defined.

(** ** [SimplePeerWrapper] *)

Section WrapperFacts.
Import Wrapper.
Variable w : World.

Let gone (s : State) : Prop := destroyed s = true.
Let noClose (e : Effect) : Prop := isPcClose e = false /\ isChannelClose e = false.

(** Once destroyed, always destroyed, and nothing is closed again. *)
Lemma wrapper_gone_step ev : preserves gone noClose (step w ev).
Proof.
  destruct ev; cbn [step].
  - destruct st; cbn [onIceChange];
      frame_using ltac:(apply preserves_emit; now split) ltac:(idtac; intros ? ?; assumption).
  - unfold setupDataChannel. frame_with ltac:(idtac; intros ? ?; assumption).
  - frame_using ltac:(apply preserves_emit; now split) ltac:(idtac; intros ? ?; assumption).
  - frame_using ltac:(apply preserves_emit; now split) ltac:(idtac; intros ? ?; assumption).
  - unfold emitError.
    frame_using ltac:(apply preserves_emit; now split) ltac:(idtac; intros ? ?; assumption).
  - frame_using ltac:(apply preserves_emit; now split) ltac:(idtac; intros ? ?; assumption).
  - unfold send.
    frame_using ltac:(apply preserves_emit; now split) ltac:(idtac; intros ? ?; assumption).
  - apply preserves_bind; [|intros _; apply preserves_ret].
    unfold destroy. apply preserves_gets_bind. intros s H.
    unfold gone in H. rewrite H. split; [exact H | constructor].
Qed.

Lemma wrapper_gone_run evs : preserves gone noClose (run w evs).
Proof.
  induction evs as [|ev evs IH]; cbn [run].
  - apply preserves_ret.
  - apply preserves_bind; [apply wrapper_gone_step | intros _; exact IH].
Qed.

Lemma noClose_filters tr :
  Forall noClose tr -> filter isPcClose tr = [] /\ filter isChannelClose tr = [].
Proof.
  induction 1 as [|e tr [H1 H2] _ [IH1 IH2]]; [now split|].
  cbn [filter]. now rewrite H1, H2.
Qed.

(** Only [destroy] touches the flag and closes anything. *)
Lemma wrapper_other_step d ev :
  isDestroy ev = false ->
  preserves (fun s => destroyed s = d) noClose (step w ev).
Proof.
  destruct ev; try discriminate; intros _; cbn [step].
  - destruct st; cbn [onIceChange];
      frame_using ltac:(apply preserves_emit; now split) ltac:(idtac; intros ? ?; assumption).
  - unfold setupDataChannel. frame_with ltac:(idtac; intros ? ?; assumption).
  - frame_using ltac:(apply preserves_emit; now split) ltac:(idtac; intros ? ?; assumption).
  - frame_using ltac:(apply preserves_emit; now split) ltac:(idtac; intros ? ?; assumption).
  - unfold emitError.
    frame_using ltac:(apply preserves_emit; now split) ltac:(idtac; intros ? ?; assumption).
  - frame_using ltac:(apply preserves_emit; now split) ltac:(idtac; intros ? ?; assumption).
  - unfold send.
    frame_using ltac:(apply preserves_emit; now split) ltac:(idtac; intros ? ?; assumption).
Qed.

Lemma wrapper_first_destroy err s :
  destroyed s = false ->
  destroyed (exec (step w (Destroy err)) s) = true
  /\ filter isPcClose (effects (step w (Destroy err)) s) = [PcClose]
  /\ length (filter isChannelClose (effects (step w (Destroy err)) s)) <= 1.
Proof.
  intros D. cbn [step]. unfold destroy, emitError, exec, effects.
  unfold bind, gets, modify, emit, ret. cbv beta iota. rewrite D. simpl.
  destruct (channel s), err, (errorListener w); simpl; repeat split; try reflexivity; lia.
Qed.

Lemma wrapper_closes evs :
  forall s,
    filter isPcClose (effects (run w evs) s)
    = (if destroyed s then [] else if existsb isDestroy evs then [PcClose] else [])
    /\ length (filter isChannelClose (effects (run w evs) s)) <= 1.
Proof.
  induction evs as [|ev evs IH]; intros s.
  - cbn. destruct (destroyed s); split; auto.
  - destruct (destroyed s) eqn:D.
    + destruct (wrapper_gone_run (ev :: evs) s D) as [_ F].
      destruct (noClose_filters _ F) as [F1 F2]. rewrite F1, F2. split; auto.
    + cbn [run existsb]. rewrite effects_bind, !filter_app, length_app.
      destruct (isDestroy ev) eqn:Dv.
      * destruct ev; try discriminate.
        destruct (wrapper_first_destroy err s D) as (D1 & P1 & C1).
        destruct (wrapper_gone_run evs _ D1) as [_ F].
        destruct (noClose_filters _ F) as [F1 F2]. rewrite P1, F1, F2.
        cbn [orb app length]. split; [reflexivity | lia].
      * destruct (wrapper_other_step false ev Dv s D) as [D1 F].
        destruct (noClose_filters _ F) as [F1 F2]. rewrite F1, F2.
        destruct (IH (exec (step w ev) s)) as [I1 I2]. rewrite D1 in I1.
        cbn [orb app length]. split; [exact I1 | exact I2].
Qed.

(** The handlers put on a channel outlive [destroy]. *)
Lemma wrapper_open_after_destroy err c s :
  In c (wired s) ->
  let s' := exec (bind (step w (Destroy err)) (fun _ => step w (ChanOpen c))) s in
  destroyed s' = true /\ connected s' = true
  /\ In (Emit Connect) (effects (bind (step w (Destroy err)) (fun _ => step w (ChanOpen c))) s).
Proof.
  intros Hin.
  assert (W : existsb (Nat.eqb c) (wired s) = true).
  { apply existsb_exists. exists c. split; [exact Hin | apply Nat.eqb_refl]. }
  cbn [step]. unfold destroy, emitError, exec, effects.
  unfold bind, gets, modify, emit, ret. cbv beta iota.
  destruct (destroyed s) eqn:D; simpl;
    destruct (channel s), err, (errorListener w); simpl;
    rewrite W; simpl; rewrite ?D; repeat split; auto;
    repeat (try (now left); right).
Qed.
End WrapperFacts.

(** X14.  [SimplePeerWrapper.destroy] acts once: over any sequence of
    events and calls, [pc.close()] is called exactly once, by the first
    [destroy] (and not at all on a wrapper that is already destroyed, or
    when [destroy] is never called), and [channel.close()] at most once. *)
Theorem wrapper_closes_connection_once :
  forall w evs s,
    filter Wrapper.isPcClose (effects (Wrapper.run w evs) s)
    = (if Wrapper.destroyed s then []
       else if existsb Wrapper.isDestroy evs then [Wrapper.PcClose] else [])
    /\ length (filter Wrapper.isChannelClose (effects (Wrapper.run w evs) s)) <= 1.
Proof. intros w evs s. apply wrapper_closes. Qed.

(** X15.  [SimplePeerWrapper.destroy] does not take the handlers off the
    data channel: when a channel the wrapper was set up with opens after
    [destroy], the wrapper emits ['connect'] and reports [connected] again
    although it is [destroyed]. *)
Theorem wrapper_handlers_outlive_destroy :
  forall w err c s,
    In c (Wrapper.wired s) ->
    let after := bind (Wrapper.step w (Wrapper.Destroy err))
                      (fun _ => Wrapper.step w (Wrapper.ChanOpen c)) in
    Wrapper.destroyed (exec after s) = true
    /\ Wrapper.connected (exec after s) = true
    /\ In (Wrapper.Emit Wrapper.Connect) (effects after s).
Proof. intros w err c s H. now apply wrapper_open_after_destroy. Qed.

(** A wrapper made with channel 3. *)
Lemma wrapper_handlers_outlive_destroy_witness :
  In 3 (Wrapper.wired (Wrapper.construct (Some 3)))
  /\ Wrapper.connected
       (exec (bind (Wrapper.step {| Wrapper.readyState := fun _ => Wrapper.Closed;
                                    Wrapper.errorListener := true |}
                      (Wrapper.Destroy None))
                   (fun _ => Wrapper.step {| Wrapper.readyState := fun _ => Wrapper.Closed;
                                             Wrapper.errorListener := true |}
                               (Wrapper.ChanOpen 3)))
          (Wrapper.construct (Some 3)))
     = true.
Proof.
  split; [now left|].
  exact (proj1 (proj2 (wrapper_handlers_outlive_destroy
                         {| Wrapper.readyState := fun _ => Wrapper.Closed;
                            Wrapper.errorListener := true |}
                         None 3 (Wrapper.construct (Some 3)) (or_introl eq_refl)))).
Defined.

(** ** Tracked peers are listened to *)

Lemma sel_delete_entry x T0 T p m :
  In x (peersAt T0 (JsMap.onEntry T (JsSet.delete p) m)) -> In x (peersAt T0 m).
Proof.
  unfold peersAt. destruct (String.eqb_spec T0 T) as [->|N].
  - rewrite get_onEntry_same. destruct (JsMap.get T m); simpl; [|tauto].
    apply JsSet_delete_subset.
  - now rewrite (get_onEntry_other _ _ _ _ N).
Qed.

Lemma sel_add_entry x T0 T p m :
  In x (peersAt T0 (JsMap.onEntry T (JsSet.add p) m)) -> In x (peersAt T0 m) \/ (x = p /\ T0 = T).
Proof.
  unfold peersAt. destruct (String.eqb_spec T0 T) as [->|N].
  - rewrite get_onEntry_same. destruct (JsMap.get T m) as [ps|]; simpl; [|tauto].
    unfold JsSet.add. destruct (JsSet.mem p ps); [tauto|].
    intros H. apply in_app_or in H. destruct H as [H|[<-|[]]]; auto.
  - rewrite (get_onEntry_other _ _ _ _ N). tauto.
Qed.

Lemma sel_set_empty x T0 T m :
  In x (peersAt T0 (JsMap.set T [] m)) -> In x (peersAt T0 m).
Proof.
  unfold peersAt. destruct (String.eqb_spec T0 T) as [->|N].
  - rewrite get_set_same. intros [].
  - now rewrite (get_set_other _ _ _ _ N).
Qed.

Lemma sel_delete x T0 T m :
  In x (peersAt T0 (JsMap.delete T m)) -> In x (peersAt T0 m).
Proof.
  unfold peersAt. destruct (String.eqb_spec T0 T) as [->|N].
  - rewrite get_delete_same. intros [].
  - now rewrite (get_delete_other _ _ _ N).
Qed.

Lemma preserves_strengthen {S E A} (I J : S -> Prop) (ok : E -> Prop) (m : M S E A) :
  (forall s, J s -> I s) -> preserves J ok m ->
  forall s, J s -> I (exec m s) /\ Forall ok (effects m s).
Proof. intros H P s Hs. destruct (P s Hs) as [H1 H2]. split; [now apply H | exact H2]. Qed.

Section BloomHeard.
Import Bloom.
Variable o : Options.
Variable w : World.

(** The listeners of [hs] are on their peers and every tracked peer is
    listened to. *)
Let heardWith (hs : list (PeerRef * string)) (s : State) : Prop :=
  incl hs (peerHandlers (host s)) /\ heard s.

Ltac heard_mod :=
  idtac;
  let s := fresh "s" in
  let B := fresh "B" in
  let H := fresh "H" in
  let T0 := fresh "T" in
  let p0 := fresh "p" in
  let Hin := fresh "Hin" in
  intros s [B H]; split;
    [ simpl; auto using incl_appl
    | intros T0 p0 Hin; unfold heard, peersOf in *; simpl in *;
      fold (peersAt T0 (torrentPeers (fields s))) in *;
      first
        [ exact (H T0 p0 Hin)
        | apply in_or_app; left; exact (H T0 p0 Hin)
        | apply (H T0 p0); first
            [ exact (sel_delete_entry _ _ _ _ _ Hin)
            | exact (sel_set_empty _ _ _ _ Hin)
            | exact (sel_delete _ _ _ _ Hin) ]
        | destruct Hin ] ].

Ltac hframe := frame_with heard_mod.

Lemma heard_passReturns hs aw T : preserves (heardWith hs) anyCall (passReturns o aw T).
Proof. destruct aw; cbn [passReturns]; unfold handleTorrentAdded_resume; hframe. Qed.

Lemma heard_connectLoop hs T bf offers aw :
  preserves (heardWith hs) anyCall (connectLoop o T bf offers aw).
Proof.
  pose proof (heard_passReturns hs aw T).
  induction offers as [|ro rest IH]; cbn [connectLoop]; [assumption|].
  unfold filterAdd, createPeer, log. hframe.
Qed.

Lemma heard_pass hs T aw :
  preserves (heardWith hs) anyCall (discoverPeersForTorrent o T aw).
Proof.
  unfold discoverPeersForTorrent, createPeer, log.
  frame_using ltac:(apply heard_passReturns) heard_mod.
Qed.

Lemma heard_resume hs t r k :
  resume o t r = Some k -> preserves (heardWith hs) anyCall k.
Proof.
  destruct t as [T cur p aw|T bf aw|T bf p ro rest aw|offerId]; destruct r;
    try discriminate; intros [= <-];
    unfold setupPeerHandlers, log;
    frame_using ltac:(first [apply heard_passReturns | apply heard_connectLoop]) heard_mod.
Qed.

Lemma heard_onPeerEvent hs p T e :
  In (p, T) hs -> preserves (heardWith hs) anyCall (onPeerEvent w p T e).
Proof.
  intros Hh. destruct e; cbn [onPeerEvent]; unfold log; hframe.
  apply preserves_modify. intros s [B H]. split; [exact B|].
  intros T0 p0 Hin. unfold heard, peersOf in *. simpl in *.
  fold (peersAt T0 (torrentPeers (fields s))) in *.
  destruct (sel_add_entry _ _ _ _ _ Hin) as [Hin'|[-> ->]].
  - exact (H T0 p0 Hin').
  - apply B, Hh.
Qed.

Lemma heard_added hs T : preserves (heardWith hs) anyCall (handleTorrentAdded o T).
Proof.
  unfold handleTorrentAdded, newFilter, log.
  frame_using ltac:(apply heard_pass) heard_mod.
Qed.

Lemma heard_cleanup hs T : preserves (heardWith hs) anyCall (cleanup w T).
Proof. unfold cleanup, closePeer, deleteOffer, log. hframe. Qed.

Lemma heard_initialize hs : preserves (heardWith hs) anyCall (initialize o).
Proof.
  unfold initialize, attachListeners, log.
  frame_using ltac:(apply heard_added) heard_mod.
Qed.

Lemma heard_step ev : preserves (heardWith []) anyCall (step o w ev).
Proof.
  destruct ev; cbn [step].
  - apply preserves_bind; [apply preserves_gets | intros [|]]; [|apply preserves_ret].
    destruct r; cbn [initialize_resume]; try apply preserves_ret;
      unfold attachListeners, log;
      frame_using ltac:(apply heard_added) heard_mod.
  - hframe.
  - frame_using ltac:(apply heard_added) heard_mod.
  - frame_using ltac:(apply heard_cleanup) heard_mod.
  - apply preserves_bind; [apply preserves_gets | intros [[? T]|]];
      [apply heard_pass | apply preserves_ret].
  - apply preserves_gets_bind. intros s H.
    destruct (findTask task s) as [t|]; [|split; [exact H | constructor]].
    destruct (resume o t r) as [k|] eqn:R; [|split; [exact H | constructor]].
    assert (K : preserves (heardWith []) anyCall (bind (modify (dropTask task)) (fun _ => k))).
    { apply preserves_bind; [|intros _; eapply heard_resume; eauto].
      unfold dropTask. hframe. }
    apply K, H.
  - apply preserves_gets_bind. intros s [B H].
    set (hs := filter (fun h => Nat.eqb (fst h) peer) (peerHandlers (host s))).
    apply (preserves_strengthen (heardWith []) (heardWith hs)).
    + intros s' [_ H']. split; [intros x []| exact H'].
    + apply preserves_forEach. intros [p T] Hin. cbn [snd].
      apply heard_onPeerEvent.
      assert (E : p = peer).
      { apply filter_In in Hin. destruct Hin as [_ E]. now apply Nat.eqb_eq in E. }
      now subst p.
    + split; [|exact H]. intros x Hx. apply filter_In in Hx. tauto.
  - unfold discoverPeers, log. frame_using ltac:(apply heard_pass) heard_mod.
  - unfold destroy, log. frame_using ltac:(apply heard_cleanup) heard_mod.
Qed.

Lemma heard_run evs : preserves (heardWith []) anyCall (run o w evs).
Proof.
  induction evs as [|ev evs IH]; cbn [run].
  - apply preserves_ret.
  - apply preserves_bind; [apply heard_step | intros _; exact IH].
Qed.
End BloomHeard.

Lemma preserves_modify_twice {S E B} (I : S -> Prop) (ok : E -> Prop)
    (f g : S -> S) (k : M S E B) :
  (forall s, I s -> I (g (f s))) -> preserves I ok k ->
  preserves I ok (bind (modify f) (fun _ => bind (modify g) (fun _ => k))).
Proof.
  intros H K s Hs. unfold exec, effects. rewrite bind_modify, bind_modify.
  apply (K _ (H s Hs)).
Qed.

Section PooledHeard.
Import Pooled.
Variable o : Options.
Variable w : World.

Ltac heard_mod :=
  idtac;
  let s := fresh "s" in
  let H := fresh "H" in
  let T0 := fresh "T" in
  let p0 := fresh "p" in
  let Hin := fresh "Hin" in
  intros s H; intros T0 p0 Hin; unfold heard, peersOf in *; simpl in *;
    fold (peersAt T0 (torrentPeers (fields s))) in *;
    first
      [ exact (H T0 p0 Hin)
      | apply in_or_app; left; exact (H T0 p0 Hin)
      | apply (H T0 p0); first
          [ exact (sel_delete_entry _ _ _ _ _ Hin)
          | exact (sel_set_empty _ _ _ _ Hin)
          | exact (sel_delete _ _ _ _ Hin) ]
      | destruct Hin ].

Ltac hframe := frame_with heard_mod.

Lemma pooled_heard_passReturns aw T : preserves heard anyCall (passReturns o aw T).
Proof. destruct aw; cbn [passReturns]; unfold handleTorrentAdded_resume; hframe. Qed.

Lemma pooled_heard_connectLoop T offers aw :
  preserves heard anyCall (connectLoop o T offers aw).
Proof.
  pose proof (pooled_heard_passReturns aw T).
  induction offers as [|ro rest IH]; cbn [connectLoop]; [assumption|].
  unfold log. hframe.
Qed.

Lemma pooled_heard_pass T aw :
  preserves heard anyCall (discoverPeersForTorrent o T aw).
Proof.
  unfold discoverPeersForTorrent, discover, log.
  frame_using ltac:(apply pooled_heard_passReturns) heard_mod.
Qed.

Lemma pooled_heard_resume t r k :
  resume o t r = Some k -> preserves heard anyCall k.
Proof.
  destruct t as [T cur aw|T aw|T ro rest aw]; destruct r;
    try discriminate; intros [= <-];
    unfold discover, log;
    try solve [frame_using ltac:(first [apply pooled_heard_passReturns
                                       | apply pooled_heard_connectLoop]) heard_mod].
  apply preserves_modify_twice; [|apply pooled_heard_connectLoop].
  intros s H T0 p0 Hin. unfold heard, peersOf in *. simpl in *.
  fold (peersAt T0 (torrentPeers (fields s))) in *.
  apply in_or_app.
  destruct (sel_add_entry _ _ _ _ _ Hin) as [Hin'|[-> ->]].
  - left. exact (H T0 p0 Hin').
  - right. now left.
Qed.

Lemma pooled_heard_added T : preserves heard anyCall (handleTorrentAdded o T).
Proof.
  unfold handleTorrentAdded, log.
  frame_using ltac:(apply pooled_heard_pass) heard_mod.
Qed.

Lemma pooled_heard_cleanup T : preserves heard anyCall (cleanup w T).
Proof. unfold cleanup, cleanup_peers, closePeer, log. hframe. Qed.

Lemma pooled_heard_step ev : preserves heard anyCall (step o w ev).
Proof.
  destruct ev; cbn [step].
  - apply preserves_bind; [apply preserves_gets | intros [|]]; [|apply preserves_ret].
    destruct r; cbn [initialize_resume]; try apply preserves_ret;
      unfold attachListeners, log;
      frame_using ltac:(apply pooled_heard_added) heard_mod.
  - hframe.
  - frame_using ltac:(apply pooled_heard_added) heard_mod.
  - frame_using ltac:(apply pooled_heard_cleanup) heard_mod.
  - apply preserves_bind; [apply preserves_gets | intros [[? T]|]];
      [apply pooled_heard_pass | apply preserves_ret].
  - apply preserves_gets_bind. intros s H.
    destruct (findTask task s) as [t|]; [|split; [exact H | constructor]].
    destruct (resume o t r) as [k|] eqn:R; [|split; [exact H | constructor]].
    assert (K : preserves heard anyCall (bind (modify (dropTask task)) (fun _ => k))).
    { apply preserves_bind; [|intros _; eapply pooled_heard_resume; eauto].
      unfold dropTask. hframe. }
    apply K, H.
  - unfold onPeerEvent, log. hframe.
  - unfold onConnectionOpened, log. hframe.
  - unfold onConnectionConnected, log. hframe.
  - unfold discoverPeers, log. frame_using ltac:(apply pooled_heard_pass) heard_mod.
  - unfold destroy, log. frame_using ltac:(apply pooled_heard_cleanup) heard_mod.
Qed.

Lemma pooled_heard_run evs : preserves heard anyCall (run o w evs).
Proof.
  induction evs as [|ev evs IH]; cbn [run].
  - apply preserves_ret.
  - apply preserves_bind; [apply pooled_heard_step | intros _; exact IH].
Qed.
End PooledHeard.

Section BloomDrop.
Import Bloom.
Variable w : World.

Lemma bloom_drop_keeps_absent p T T' e s :
  e = Disconnected \/ e = Failed ->
  ~ In p (peersOf T s) -> ~ In p (peersOf T (exec (onPeerEvent w p T' e) s)).
Proof.
  intros [->| ->] H Hin; apply H; cbn [onPeerEvent] in Hin; rewrite exec_bind in Hin;
    unfold exec, modify, log, emit, peersOf in *; simpl in *;
    exact (sel_delete_entry _ _ _ _ _ Hin).
Qed.

Lemma bloom_drop_here p T e s :
  e = Disconnected \/ e = Failed ->
  ~ In p (peersOf T (exec (onPeerEvent w p T e) s)).
Proof.
  intros [->| ->]; cbn [onPeerEvent]; rewrite exec_bind;
    unfold exec, modify, log, emit, peersOf; simpl;
    rewrite get_onEntry_same;
    (destruct (JsMap.get T (torrentPeers (fields s))); simpl;
     [apply JsSet_delete_self | tauto]).
Qed.

Lemma bloom_drop p T e hs :
  e = Disconnected \/ e = Failed ->
  In (p, T) hs ->
  forall s, ~ In p (peersOf T (exec (forEach hs (fun h => onPeerEvent w p (snd h) e)) s)).
Proof.
  intros He. induction hs as [|h hs IH]; intros Hin s; [destruct Hin|].
  cbn [forEach]. rewrite exec_bind. destruct Hin as [->|Hin].
  - simpl snd.
    assert (K : preserves (fun s => ~ In p (peersOf T s)) anyCall
                  (forEach hs (fun h => onPeerEvent w p (snd h) e))).
    { apply preserves_forEach. intros x _ s0 H0. split; [|apply Forall_forall; now intros].
      now apply bloom_drop_keeps_absent. }
    apply K. now apply bloom_drop_here.
  - now apply IH.
Qed.
End BloomDrop.

(** X16.  Bloom-filter revision.  In every state the manager can reach,
    each peer in a torrent's peer set carries the listeners of
    [setupPeerHandlers] for that torrent, so its ['disconnected'] or
    ['failed'] event takes it out of the set: no peer stays counted after
    it has dropped. *)
Theorem bloom_tracked_peer_dropped_when_it_fails :
  forall mo w torrents evs infoHash peer e,
    let o := Bloom.resolveOptions mo in
    let s := exec (Bloom.run o w evs) (Bloom.constructed mo torrents) in
    In peer (Bloom.peersOf infoHash s) ->
    e = Bloom.Disconnected \/ e = Bloom.Failed ->
    In (peer, infoHash) (Bloom.peerHandlers (Bloom.host s))
    /\ ~ In peer (Bloom.peersOf infoHash (exec (Bloom.step o w (Bloom.EvPeer peer e)) s)).
Proof.
  intros mo w torrents evs T p e o s Hin He.
  assert (H : Bloom.heard s).
  { apply (heard_run o w evs). unfold Bloom.constructed, Bloom.construct.
    apply (heard_initialize o []). split; [intros x []|]. intros T0 p0 []. }
  split; [exact (H T p Hin)|].
  cbn [Bloom.step]. rewrite exec_gets_bind.
  apply bloom_drop; [exact He|].
  apply filter_In. split; [exact (H T p Hin) | apply Nat.eqb_refl].
Qed.

(** X17.  Pooled revision.  In every state the manager can reach, each
    peer in a torrent's peer set carries the ['close'] and ['error']
    listeners for that torrent, so either event takes it out of the set:
    no peer stays counted after it has closed. *)
Theorem pooled_tracked_peer_dropped_when_it_closes :
  forall mo w torrents evs infoHash peer e,
    let o := Pooled.resolveOptions mo in
    let s := exec (Pooled.run o w evs) (Pooled.constructed mo torrents) in
    In peer (Pooled.peersOf infoHash s) ->
    e = Pooled.Close \/ e = Pooled.Error ->
    In (peer, infoHash) (Pooled.peerHandlers (Pooled.host s))
    /\ ~ In peer (Pooled.peersOf infoHash (exec (Pooled.step o w (Pooled.EvPeer peer e)) s)).
Proof.
  intros mo w torrents evs T p e o s Hin He.
  assert (H : Pooled.heard s).
  { apply (pooled_heard_run o w evs). intros T0 p0 []. }
  split; [exact (H T p Hin)|].
  cbn [Pooled.step]. rewrite exec_gets_bind.
  apply close_removes; [exact He|].
  apply filter_In. split; [exact (H T p Hin) | apply Nat.eqb_refl].
Qed.

(** Both peers of T are tracked; peer 1 fails. *)
Lemma bloom_tracked_peer_dropped_when_it_fails_witness :
  In 1 (Bloom.peersOf "T"
          (exec (Bloom.run (Bloom.resolveOptions (Bloom.sampleOptions 5 (Some "me")))
                   Bloom.calm Bloom.bothConnect)
             (Bloom.constructed (Bloom.sampleOptions 5 (Some "me")) [])))
  /\ ~ In 1 (Bloom.peersOf "T"
               (exec (Bloom.step (Bloom.resolveOptions (Bloom.sampleOptions 5 (Some "me")))
                        Bloom.calm (Bloom.EvPeer 1 Bloom.Failed))
                  (exec (Bloom.run (Bloom.resolveOptions (Bloom.sampleOptions 5 (Some "me")))
                           Bloom.calm Bloom.bothConnect)
                     (Bloom.constructed (Bloom.sampleOptions 5 (Some "me")) [])))).
Proof.
  assert (H : In 1 (Bloom.peersOf "T"
                      (exec (Bloom.run (Bloom.resolveOptions (Bloom.sampleOptions 5 (Some "me")))
                               Bloom.calm Bloom.bothConnect)
                         (Bloom.constructed (Bloom.sampleOptions 5 (Some "me")) []))))
    by (vm_compute; tauto).
  split; [exact H|].
  exact (proj2 (bloom_tracked_peer_dropped_when_it_fails
                  (Bloom.sampleOptions 5 (Some "me")) Bloom.calm [] Bloom.bothConnect
                  "T" 1 Bloom.Failed H (or_intror eq_refl))).
Defined.

(** Peer 1 is tracked for T while it connects; it errors. *)
Lemma pooled_tracked_peer_dropped_when_it_closes_witness :
  In 1 (Pooled.peersOf "T"
          (exec (Pooled.run (Pooled.resolveOptions (Pooled.sampleOptions 5))
                   Pooled.calm Pooled.firstPass)
             (Pooled.constructed (Pooled.sampleOptions 5) [])))
  /\ ~ In 1 (Pooled.peersOf "T"
               (exec (Pooled.step (Pooled.resolveOptions (Pooled.sampleOptions 5))
                        Pooled.calm (Pooled.EvPeer 1 Pooled.Error))
                  (exec (Pooled.run (Pooled.resolveOptions (Pooled.sampleOptions 5))
                           Pooled.calm Pooled.firstPass)
                     (Pooled.constructed (Pooled.sampleOptions 5) [])))).
Proof.
  assert (H : In 1 (Pooled.peersOf "T"
                      (exec (Pooled.run (Pooled.resolveOptions (Pooled.sampleOptions 5))
                               Pooled.calm Pooled.firstPass)
                         (Pooled.constructed (Pooled.sampleOptions 5) []))))
    by (vm_compute; tauto).
  split; [exact H|].
  exact (proj2 (pooled_tracked_peer_dropped_when_it_closes
                  (Pooled.sampleOptions 5) Pooled.calm [] Pooled.firstPass
                  "T" 1 Pooled.Error H (or_intror eq_refl))).
Defined.

(** ** A pass in flight when [destroy] is called *)

Lemma exec_bind_ret {S E A} (m : M S E A) s :
  snd (fst (bind m (fun a => ret a) s)) = snd (fst (m s)).
Proof. unfold bind, ret. destruct (m s) as [[a s1] e1]. reflexivity. Qed.

Section PooledInFlight.
Import Pooled.
Variable o : Options.
Variable w : World.
Hypothesis calmCancel : forall h, cancelThrows w h = false.

Lemma pooled_cleanup_runtime T s0 :
  preserves (fun s => runtime s = runtime s0) anyCall (cleanup w T).
Proof.
  unfold cleanup, cleanup_peers, closePeer, log.
  frame_with ltac:(idtac; intros ? ?; assumption).
Qed.

Lemma pooled_cleanups_return l :
  forall s, fst (fst (forEachOk l (cleanup w) s)) = true.
Proof.
  induction l as [|T l IH]; intros s; [reflexivity|].
  cbn [forEachOk].
  destruct (pooled_cleanup_returns w T s (fun h _ => calmCancel h)) as [E _].
  rewrite (bind_of _ _ _ _ _ _ E). cbn [fst]. apply IH.
Qed.

Lemma pooled_destroy_state s :
  fields (exec (destroy w) s)
  = {| rondevu := rondevu (fields s); torrentOfferHandles := JsMap.empty;
       torrentPeers := JsMap.empty; torrentCleanupHandlers := JsMap.empty;
       refreshTimers := JsMap.empty |}
  /\ runtime (exec (destroy w) s) = runtime s.
Proof.
  unfold destroy, log, exec. rewrite bind_emit, bind_gets. cbn [fst snd].
  set (l := JsMap.values (torrentCleanupHandlers (fields s))).
  pose proof (pooled_cleanups_return l s) as R.
  assert (K : preserves (fun s' => rondevu (fields s') = rondevu (fields s)
                                   /\ runtime s' = runtime s) anyCall
                (forEachOk l (cleanup w))).
  { apply preserves_forEachOk. intros T _. unfold cleanup, cleanup_peers, closePeer, log.
    frame_with ltac:(idtac; intros ? [? ?]; split; assumption). }
  destruct (K s (conj eq_refl eq_refl)) as [[K1 K2] _]. unfold exec in K1, K2.
  destruct (forEachOk l (cleanup w) s) as [[ok s1] tr] eqn:E.
  cbn [fst snd] in *. subst ok.
  rewrite (bind_of _ _ _ _ _ _ E). cbn [fst snd].
  unfold bind, modify, ret. simpl. now rewrite K1, K2.
Qed.

Lemma pooled_settle_after_destroy k T ro rest aw name peer outcomes s :
  findTask k s = Some (AwaitPeer T ro rest aw) ->
  rondevu (fields s) = Some name ->
  freshTasks s ->
  forallb attemptOutcome outcomes = true ->
  length outcomes = length (eligible name rest) ->
  let s1 := exec (step o w EvDestroy) s in
  let settle := step o w (EvSettle k (PeerReady peer)) in
  attempts (effects (bind settle (fun _ => forEach outcomes (settleLatest o w))) s1)
  = map ro_username (eligible name rest)
  /\ torrentPeers (fields (exec settle s1)) = JsMap.empty
  /\ In (peer, T) (peerHandlers (host (exec settle s1))).
Proof.
  intros FT R F A L s1 settle.
  assert (E1 : exec (step o w EvDestroy) s = exec (destroy w) s).
  { cbn [step]. rewrite exec_bind. reflexivity. }
  destruct (pooled_destroy_state s) as [D1 D2]. rewrite <- E1 in D1, D2. fold s1 in D1, D2.
  assert (FT1 : findTask k s1 = Some (AwaitPeer T ro rest aw)).
  { unfold findTask in *. now rewrite D2. }
  assert (R1 : rondevu (fields s1) = Some name) by (rewrite D1; exact R).
  assert (F1 : freshTasks s1) by (unfold freshTasks in *; now rewrite D2).
  set (s2 := upd_peerHandlers (fun hs => hs ++ [(peer, T)])
               (upd_torrentPeers (JsMap.onEntry T (JsSet.add peer)) (dropTask k s1))).
  assert (S : forall {A} (F : unit -> Act A),
              bind settle F s1 = bind (connectLoop o T rest aw) F s2).
  { intros A0 F0. unfold settle. cbn [step].
    rewrite bind_assoc, bind_gets, FT1. cbn [resume].
    rewrite bind_assoc, bind_modify, bind_assoc, bind_modify, bind_assoc, bind_modify.
    reflexivity. }
  assert (R2 : rondevu (fields s2) = Some name) by exact R1.
  assert (F2 : freshTasks s2).
  { unfold freshTasks in *. unfold s2. simpl.
    rewrite Forall_forall in *. intros x Hx. apply filter_In in Hx. now apply F1. }
  assert (P2 : torrentPeers (fields s2) = JsMap.empty).
  { unfold s2. simpl. rewrite D1. reflexivity. }
  split; [|split].
  - unfold effects. rewrite S. now apply pooled_pass_attempts.
  - assert (Q : exec settle s1 = exec (connectLoop o T rest aw) s2).
    { unfold exec. rewrite <- (exec_bind_ret settle), <- (exec_bind_ret (connectLoop o T rest aw)).
      now rewrite S. }
    rewrite Q.
    destruct (connectLoop_peers o (eq (torrentPeers (fields s2))) T rest aw s2 eq_refl) as [K _].
    unfold onPeers in K. now rewrite <- K.
  - assert (Q : exec settle s1 = exec (connectLoop o T rest aw) s2).
    { unfold exec. rewrite <- (exec_bind_ret settle), <- (exec_bind_ret (connectLoop o T rest aw)).
      now rewrite S. }
    rewrite Q.
    destruct (pooled_keeps_connectLoop o false false s2 T rest aw s2
                (pooled_keeps_refl false false s2 (fun E => False_ind _ (diff_false_true E))))
      as [(_ & _ & B & _) _].
    apply B. unfold s2. simpl. apply in_or_app. right. now left.
Qed.
End PooledInFlight.

(** X18.  Pooled revision.  [destroy] does not stop a pass that waits for
    [rondevu.peer]: when no [cancel] throws, [destroy] leaves the peer map
    empty, and when the promise resolves afterwards the peer gets its
    listeners but is not tracked (there is no set to add it to), and the
    loop goes on to call [rondevu.peer] for every remaining advertisement
    that is not the manager's own. *)
Theorem pooled_pass_in_flight_outlives_destroy :
  forall o w s k infoHash remoteOffer rest aw name peer outcomes,
    (forall h, Pooled.cancelThrows w h = false) ->
    Pooled.findTask k s = Some (Pooled.AwaitPeer infoHash remoteOffer rest aw) ->
    Pooled.rondevu (Pooled.fields s) = Some name ->
    Pooled.freshTasks s ->
    forallb Pooled.attemptOutcome outcomes = true ->
    length outcomes = length (Pooled.eligible name rest) ->
    let s1 := exec (Pooled.step o w Pooled.EvDestroy) s in
    let settle := Pooled.step o w (Pooled.EvSettle k (Pooled.PeerReady peer)) in
    Pooled.attempts
      (effects (bind settle (fun _ => forEach outcomes (Pooled.settleLatest o w))) s1)
    = map Pooled.ro_username (Pooled.eligible name rest)
    /\ Pooled.torrentPeers (Pooled.fields (exec settle s1)) = JsMap.empty
    /\ In (peer, infoHash) (Pooled.peerHandlers (Pooled.host (exec settle s1))).
Proof. intros o w s k T ro rest aw name p rs C. now apply pooled_settle_after_destroy. Qed.

(** The first pass of T waits for bob's connection, carol's advertisement
    is next; [destroy] runs, then peer 1 arrives for bob and the attempt
    for carol is rejected. *)
Lemma pooled_pass_in_flight_outlives_destroy_witness :
  let evs := [Pooled.EvInitSettled (Pooled.ConnectedAs "me"); Pooled.EvClientAdd "T";
              Pooled.EvTorrent "T"; Pooled.EvSettle 0 (Pooled.OfferHandleReady 7);
              Pooled.EvSettle 1 (Pooled.Discovered [Pooled.bob; Pooled.carol])] in
  let o := Pooled.resolveOptions (Pooled.sampleOptions 5) in
  (forall h, Pooled.cancelThrows Pooled.calm h = false)
  /\ Pooled.findTask 2 (Pooled.after 5 evs)
     = Some (Pooled.AwaitPeer "T" Pooled.bob [Pooled.carol] Pooled.AddedHandler)
  /\ Pooled.rondevu (Pooled.fields (Pooled.after 5 evs)) = Some "me"
  /\ Pooled.freshTasks (Pooled.after 5 evs)
  /\ Pooled.attempts
       (effects (bind (Pooled.step o Pooled.calm (Pooled.EvSettle 2 (Pooled.PeerReady 1)))
                      (fun _ => forEach [Pooled.Rejected] (Pooled.settleLatest o Pooled.calm)))
          (exec (Pooled.step o Pooled.calm Pooled.EvDestroy) (Pooled.after 5 evs)))
     = ["carol"].
Proof.
  intros evs o.
  assert (H1 : Pooled.findTask 2 (Pooled.after 5 evs)
               = Some (Pooled.AwaitPeer "T" Pooled.bob [Pooled.carol] Pooled.AddedHandler))
    by (vm_compute; reflexivity).
  assert (H2 : Pooled.rondevu (Pooled.fields (Pooled.after 5 evs)) = Some "me")
    by (vm_compute; reflexivity).
  assert (H3 : Pooled.freshTasks (Pooled.after 5 evs)) by apply pooled_reachable_fresh.
  split; [reflexivity|]. split; [exact H1|]. split; [exact H2|]. split; [exact H3|].
  exact (proj1 (pooled_pass_in_flight_outlives_destroy o Pooled.calm (Pooled.after 5 evs)
                  2 "T" Pooled.bob [Pooled.carol] Pooled.AddedHandler "me" 1
                  [Pooled.Rejected] (fun _ => eq_refl) H1 H2 H3 eq_refl eq_refl)).
Defined.

Lemma find_app_found {A} (f : A -> bool) l extra x :
  find f l = Some x -> find f (l ++ extra) = Some x.
Proof.
  induction l as [|y l IH]; [discriminate|]. simpl.
  destruct (f y); [auto | exact IH].
Qed.

Section BloomInFlight.
Import Bloom.
Variable o : Options.
Variable w : World.

(** [destroy] parks its [offers.delete] calls behind what is parked and
    leaves the credentials. *)
Lemma bloom_destroy_runtime s :
  (exists extra,
     tasks (runtime (exec (destroy w) s)) = tasks (runtime s) ++ extra)
  /\ credentials (runtime (exec (destroy w) s)) = credentials (runtime s).
Proof.
  assert (K : preserves (fun s' => (exists extra, tasks (runtime s') = tasks (runtime s) ++ extra)
                                   /\ credentials (runtime s') = credentials (runtime s))
                anyCall (destroy w)).
  { unfold destroy, cleanup, closePeer, deleteOffer, log.
    frame_with ltac:(idtac;
      let s' := fresh "s" in let ex := fresh "ex" in
      let E := fresh "E" in let C := fresh "C" in
      intros s' [[ex E] C]; split; [|exact C]; simpl;
      first [ exists ex; exact E
            | eexists; rewrite E, <- app_assoc; reflexivity ]). }
  apply K. split; [exists []; now rewrite app_nil_r | reflexivity].
Qed.

Lemma bloom_settle_after_destroy k T bf answerPeer ro rest aw outcomes s :
  findTask k s = Some (AwaitAnswer T bf answerPeer ro rest aw) ->
  freshTasks s ->
  forallb attemptOutcome outcomes = true ->
  length outcomes = length (eligible s rest) ->
  let s1 := exec (step o w EvDestroy) s in
  let settle := step o w (EvSettle k Answered) in
  answered (effects (bind settle (fun _ => forEach outcomes (settleLatest o w))) s1)
  = eligible s rest
  /\ In (answerPeer, T) (peerHandlers (host (exec settle s1))).
Proof.
  intros FT F A L s1 settle.
  destruct (bloom_destroy_runtime s) as [[extra D1] D2].
  change (exec (destroy w) s) with s1 in D1, D2.
  assert (FT1 : findTask k s1 = Some (AwaitAnswer T bf answerPeer ro rest aw)).
  { unfold findTask in *. rewrite D1.
    destruct (find (fun e => Nat.eqb (fst e) k) (tasks (runtime s))) as [x|] eqn:Fx;
      [|discriminate].
    match goal with |- option_map snd ?t = _ =>
      assert (Ht : t = Some x) by exact (find_app_found _ _ extra _ Fx); rewrite Ht
    end.
    exact FT. }
  assert (F1 : freshTasks s1) by (apply (bloom_fresh_step o w EvDestroy s F)).
  set (s2 := upd_peerHandlers (fun hs => hs ++ [(answerPeer, T)]) (dropTask k s1)).
  assert (S : forall {A} (F : unit -> Act A),
              bind settle F s1 = bind (connectLoop o T bf rest aw) F s2).
  { intros A0 F0. unfold settle. cbn [step].
    rewrite bind_assoc, bind_gets, FT1. cbn [resume]. unfold setupPeerHandlers.
    rewrite bind_assoc, bind_modify, bind_assoc, bind_modify. reflexivity. }
  assert (F2 : freshTasks s2).
  { unfold freshTasks in *. unfold s2. simpl.
    rewrite Forall_forall in *. intros x Hx. apply filter_In in Hx. now apply F1. }
  assert (E2 : forall l, eligible s2 l = eligible s l)
    by (intros l; apply eligible_credentials; unfold s2; simpl; exact D2).
  split.
  - unfold effects. rewrite S, <- E2. apply bloom_pass_answers; auto. now rewrite E2.
  - assert (Q : exec settle s1 = exec (connectLoop o T bf rest aw) s2).
    { unfold exec. rewrite <- (exec_bind_ret settle), <- (exec_bind_ret (connectLoop o T bf rest aw)).
      now rewrite S. }
    rewrite Q.
    destruct (keeps_connectLoop o false false s2 T bf rest aw s2
                (keeps_refl false false s2 (fun E => False_ind _ (diff_false_true E))))
      as [(_ & B & _) _].
    apply B. unfold s2. simpl. apply in_or_app. right. now left.
Qed.
End BloomInFlight.

(** X19.  Bloom-filter revision.  [destroy] does not stop a pass that
    waits for [answer]: when the promise resolves afterwards, the answer
    peer gets its listeners and the loop goes on to answer every remaining
    advertisement that is neither the manager's own nor already
    answered. *)
Theorem bloom_pass_in_flight_outlives_destroy :
  forall o w s k infoHash bloomFilter answerPeer remoteOffer rest aw outcomes,
    Bloom.findTask k s
    = Some (Bloom.AwaitAnswer infoHash bloomFilter answerPeer remoteOffer rest aw) ->
    Bloom.freshTasks s ->
    forallb Bloom.attemptOutcome outcomes = true ->
    length outcomes = length (Bloom.eligible s rest) ->
    let s1 := exec (Bloom.step o w Bloom.EvDestroy) s in
    let settle := Bloom.step o w (Bloom.EvSettle k Bloom.Answered) in
    Bloom.answered
      (effects (bind settle (fun _ => forEach outcomes (Bloom.settleLatest o w))) s1)
    = Bloom.eligible s rest
    /\ In (answerPeer, infoHash) (Bloom.peerHandlers (Bloom.host (exec settle s1))).
Proof.
  intros o w s k T bf p ro rest aw rs FT F A L.
  now apply (bloom_settle_after_destroy o w k T bf p ro rest aw rs s).
Qed.

(** The first pass of T waits for the answer to bob's advertisement;
    [destroy] runs, then the answer resolves. *)
Lemma bloom_pass_in_flight_outlives_destroy_witness :
  let evs := [Bloom.EvClientAdd "T"; Bloom.EvTorrent "T"; Bloom.EvSettle 0 (Bloom.OfferCreated "o1");
              Bloom.EvSettle 1 (Bloom.OffersFound [Bloom.bob; Bloom.taken; Bloom.bob])] in
  let o := Bloom.resolveOptions (Bloom.sampleOptions 5 (Some "me")) in
  Bloom.findTask 2 (Bloom.after 5 evs)
  = Some (Bloom.AwaitAnswer "T" (Some 0) 1 Bloom.bob [Bloom.taken; Bloom.bob] Bloom.AddedHandler)
  /\ Bloom.freshTasks (Bloom.after 5 evs)
  /\ Bloom.answered
       (effects (bind (Bloom.step o Bloom.calm (Bloom.EvSettle 2 Bloom.Answered))
                      (fun _ => forEach [Bloom.Rejected] (Bloom.settleLatest o Bloom.calm)))
          (exec (Bloom.step o Bloom.calm Bloom.EvDestroy) (Bloom.after 5 evs)))
     = [Bloom.bob].
Proof.
  intros evs o.
  assert (H1 : Bloom.findTask 2 (Bloom.after 5 evs)
               = Some (Bloom.AwaitAnswer "T" (Some 0) 1 Bloom.bob [Bloom.taken; Bloom.bob]
                         Bloom.AddedHandler))
    by (vm_compute; reflexivity).
  assert (H3 : Bloom.freshTasks (Bloom.after 5 evs)) by apply bloom_reachable_fresh.
  split; [exact H1|]. split; [exact H3|].
  exact (proj1 (bloom_pass_in_flight_outlives_destroy o Bloom.calm (Bloom.after 5 evs)
                  2 "T" (Some 0) 1 Bloom.bob [Bloom.taken; Bloom.bob] Bloom.AddedHandler
                  [Bloom.Rejected] H1 H3 eq_refl eq_refl)).
Defined.
